(** * taco tensors: coordinate buffer, shared handles and the traversal engine

    A shallow embedding of [include/taco/tensor.h]: the [TensorBase] handle
    with its coordinate buffer ([insert]), [Tensor::transpose], the CSR
    factory and accessor ([makeCSR], [getCSRArrays]) and the resumable
    iterator [Tensor::const_iterator] ([advanceIndex], [operator==],
    [begin], [end]).

    Index values are [size_t]: they are carried as [Z] and every
    arithmetic operation of the source is followed by its wrap-around
    [wrap64].  Component values are carried as their bit patterns. *)

From Stdlib Require Import ZArith List Bool Lia.
From stdpp Require Import base numbers option list gmap strings.

Local Open Scope Z_scope.

(** ** Machine integers *)

(** [size_t] arithmetic: results are reduced modulo [2^64]. *)
Definition wrap64 (z : Z) : Z := z mod 2 ^ 64.

(** [sizeof(int)] on the platforms taco targets. *)
Definition sizeof_int : Z := 4.

(** ** Types declared in headers that tensor.h includes *)

(** Modelled from the spec: [DataType] (taco/type.h), "a tag for the
    numeric kind of tensor elements (e.g., int32/64, float32/64,
    complex)", with the width in bytes of one component. *)
Inductive DataType :=
  Int32 | Int64 | UInt64 | Float32 | Float64 | Complex64 | Complex128.

#[global] Instance DataType_eq_dec : EqDecision DataType.
Proof. solve_decision. Defined.

Definition getNumBytes (ty : DataType) : Z :=
  match ty with
  | Int32 | Float32 => 4
  | Int64 | UInt64 | Float64 | Complex64 => 8
  | Complex128 => 16
  end.

(** Modelled from the spec: [ModeType] (taco/format.h).  The source names
    the two mode types it traverses [Dense] and [Sparse] (the spec's
    Compressed); [Fixed] stands for a mode type the traversal does not
    implement. *)
Inductive ModeType := Dense | Sparse | Fixed.

#[global] Instance ModeType_eq_dec : EqDecision ModeType.
Proof. solve_decision. Defined.

(** Modelled from the spec: [Format] (taco/format.h), "an ordered pair of
    (mode type per dimension, mode ordering permutation)". *)
Record Format := mkFormat {
  getModeTypes : list ModeType;
  getModeOrdering : list Z
}.

#[global] Instance Format_eq_dec : EqDecision Format.
Proof. solve_decision. Defined.

(** The predefined format [CSR] of taco/format.h. *)
Definition CSR : Format := mkFormat [Dense; Sparse] [0; 1].

(** Addresses of heap objects and of caller-owned arrays. *)
Definition loc := nat.

(** Ownership tag of an array: [UserOwns] is the tag tensor.h passes for
    caller-owned arrays; [Free] is the spec's "library owns and frees". *)
Inductive Policy := UserOwns | Free.

(** Modelled from the spec: [storage::Array] (taco/storage/array.h): a
    typed array that wraps a data pointer together with its element count
    [arraySize] and ownership tag.  [elems] are the elements found at
    [getData]. *)
Record Array := mkArray {
  getType : DataType;
  getData : loc;
  arraySize : Z;
  elems : list Z;
  getPolicy : Policy
}.

(** Element [i] of a vector, when there is one. *)
Definition zlookup (l : list Z) (i : Z) : option Z :=
  if (0 <=? i) && (i <? Z.of_nat (length l)) then l !! Z.to_nat i else None.

(** Element [i] of a vector replaced; nothing to replace outside it. *)
Definition zupdate (l : list Z) (i : Z) (x : Z) : list Z :=
  if (0 <=? i) && (i <? Z.of_nat (length l)) then <[Z.to_nat i := x]> l else l.

(** [Array::get(i)]; the reads of a packed tensor are within bounds. *)
Definition Array_get (a : Array) (i : Z) : Z :=
  default 0 (zlookup (elems a) i).

(** [TypedIndexVal::getAsIndex()]: conversion to [size_t]. *)
Definition getAsIndex (v : Z) : Z := wrap64 v.

(** Failures raised by [taco_uassert], [taco_not_supported_yet] and the
    accessors of the storage classes, named as in the spec's taxonomy;
    [OutOfFuel] belongs to the embedding only. *)
Inductive Error :=
  | DimensionMismatch
  | TypeMismatch
  | InvalidModeAccess
  | UnsupportedModeType
  | RequiresMatrix
  | FormatMismatch
  | NullReference
  | OutOfFuel.

#[global] Instance Error_eq_dec : EqDecision Error.
Proof. solve_decision. Defined.

(** Modelled from the spec: [storage::ModeIndex] (taco/storage/index.h).
    "for Compressed, i=0 returns the position array, i=1 returns the
    coordinate array; for Dense, only a single synthetic array holding
    the extent is exposed at index 0.  Requesting an out-of-range array
    index fails with InvalidModeAccess." *)
Record ModeIndex := mkModeIndex { indexArrays : list Array }.

Definition getIndexArray (m : ModeIndex) (i : nat) : Error + Array :=
  match indexArrays m !! i with
  | Some a => inr a
  | None => inl InvalidModeAccess
  end.

(** Modelled from the spec: [storage::Index], "sequence of Mode Indices,
    one per physical level, plus the total count of stored entries in the
    last level". *)
Record Index := mkIndex {
  modeIndices : list ModeIndex;
  getSize : Z
}.

Definition getModeIndex (ix : Index) (lvl : nat) : Error + ModeIndex :=
  match modeIndices ix !! lvl with
  | Some m => inr m
  | None => inl InvalidModeAccess
  end.

(** Modelled from the spec: [storage::Storage], "an Index plus a flat
    value array". *)
Record Storage := mkStorage {
  getIndex : Index;
  getValues : Array
}.

(** Modelled from the spec: [TensorBase::Content] (declared in tensor.h,
    defined in tensor.cpp): "owns name, dimensions, DataType, Format, ...
    and the packed Storage". *)
Record Content := mkContent {
  getName : string;
  getDimensions : list Z;
  getComponentType : DataType;
  getFormat : Format;
  getStorage : Storage
}.

(** [TensorBase::getOrder()]: the number of modes. *)
Definition getOrder (t : Content) : nat := length (getDimensions t).

(** ** The iterator object [Tensor::const_iterator<size_t>] *)

(** The two per-level vectors of the iterator. *)
Inductive Vec := Coord | Ptrs.

#[global] Instance Vec_eq_dec : EqDecision Vec.
Proof. solve_decision. Defined.

(** What a call of [advanceIndex] does that is not visible in its result:
    the levels it enters and the indices it passes to [operator[]] of
    [coord] and [ptrs]. *)
Inductive Event :=
  | Visit (lvl : nat)
  | Access (v : Vec) (i : Z).

(** The fields of [const_iterator], and the events of the calls made on
    it so far. *)
Record const_iterator := mkIter {
  tensor : loc;
  coord : list Z;
  ptrs : list Z;
  curVal : list Z * Z;
  count : Z;
  advance : bool;
  trace : list Event
}.

(** Member functions run on the iterator and either return or throw. *)
Definition M (A : Type) : Type :=
  const_iterator -> (Error + A) * const_iterator.

Definition ret {A} (a : A) : M A := fun s => (inr a, s).

Definition fail {A} (e : Error) : M A := fun s => (inl e, s).

Definition bind {A B} (m : M A) (k : A -> M B) : M B :=
  fun s =>
    match m s with
    | (inl e, s') => (inl e, s')
    | (inr a, s') => k a s'
    end.

Definition lift {A} (r : Error + A) : M A :=
  match r with inl e => fail e | inr a => ret a end.

Declare Scope iter_scope.
Delimit Scope iter_scope with iter.
Notation "x <- m ;; k" := (bind m (fun x => k))
  (at level 100, m at next level, k at level 200, right associativity) : iter_scope.
Notation "m ;;; k" := (bind m (fun _ => k))
  (at level 100, k at level 200, right associativity) : iter_scope.

(** The iterator with one more event on record. *)
Definition log (e : Event) (s : const_iterator) : const_iterator :=
  mkIter (tensor s) (coord s) (ptrs s) (curVal s) (count s) (advance s)
         (trace s ++ [e]).

Definition emit (e : Event) : M unit := fun s => (inr tt, log e s).

Definition get_advance : M bool := fun s => (inr (advance s), s).

Definition set_advance (b : bool) : M unit :=
  fun s => (inr tt, mkIter (tensor s) (coord s) (ptrs s) (curVal s) (count s)
                          b (trace s)).

Definition vec_of (v : Vec) (s : const_iterator) : list Z :=
  match v with Coord => coord s | Ptrs => ptrs s end.

Definition with_vec (v : Vec) (l : list Z) (s : const_iterator) : const_iterator :=
  match v with
  | Coord => mkIter (tensor s) l (ptrs s) (curVal s) (count s) (advance s) (trace s)
  | Ptrs => mkIter (tensor s) (coord s) l (curVal s) (count s) (advance s) (trace s)
  end.

(** [curVal.second = x]. *)
Definition set_second (x : Z) : M unit :=
  fun s => (inr tt, mkIter (tensor s) (coord s) (ptrs s) (fst (curVal s), x)
                          (count s) (advance s) (trace s)).

(** [curVal.first[mode] = x]. *)
Definition set_first (mode : Z) (x : Z) : M unit :=
  fun s => (inr tt, mkIter (tensor s) (coord s) (ptrs s)
                          (zupdate (fst (curVal s)) mode x, snd (curVal s))
                          (count s) (advance s) (trace s)).

(** [++count]. *)
Definition incr_count : M unit :=
  fun s => (inr tt, mkIter (tensor s) (coord s) (ptrs s) (curVal s)
                          (wrap64 (count s + 1)) (advance s) (trace s)).

Fixpoint for_each {A} (l : list A) (body : A -> M unit) : M unit :=
  match l with
  | [] => ret tt
  | x :: l' => (body x ;;; for_each l' body)%iter
  end.

Section Traversal.

(** What a read of [coord] or [ptrs] outside the vector finds at index
    [i]: the source does not define it, so nothing is assumed of it. *)
Variable stray : Z -> Z.

(** The tensor the iterator points to ([*tensor]). *)
Variable t : Content.

Local Open Scope iter_scope.

(** [v[i]] used as a value. *)
Definition read (v : Vec) (i : Z) : M Z :=
  emit (Access v i) ;;;
  fun s => (inr (match zlookup (vec_of v s) i with
                 | Some x => x
                 | None => stray i
                 end), s).

(** [v[i] = x]. *)
Definition write (v : Vec) (i : Z) (x : Z) : M unit :=
  emit (Access v i) ;;;
  fun s => (inr tt, with_vec v (zupdate (vec_of v s) i x) s).

(** [++v[i]]. *)
Definition incr (v : Vec) (i : Z) : M unit :=
  emit (Access v i) ;;;
  fun s => (inr tt,
            with_vec v (match zlookup (vec_of v s) i with
                        | Some x => zupdate (vec_of v s) i (wrap64 (x + 1))
                        | None => vec_of v s
                        end) s).

(** [storage.getIndex().getModeIndex(lvl)]. *)
Definition modeIndex_at (lvl : nat) : ModeIndex :=
  default (mkModeIndex []) (modeIndices (getIndex (getStorage t)) !! lvl).

(** [modeOrdering[i]] converted to [size_t]. *)
Definition mode_at (i : nat) : Z :=
  getAsIndex (default 0 (getModeOrdering (getFormat t) !! i)).

(** The branch [lvl == tensor->getOrder()] of [advanceIndex]. *)
Definition leaf (lvl : nat) : M bool :=
  adv <- get_advance ;;
  if adv then
    set_advance false ;;; ret false
  else
    idx <- (if decide (lvl = 0%nat) then ret 0
            else read Ptrs (wrap64 (Z.of_nat lvl - 1))) ;;
    set_second (Array_get (getValues (getStorage t)) (getAsIndex idx)) ;;;
    for_each (seq 0 lvl)
      (fun i => c <- read Coord (Z.of_nat i) ;; set_first (mode_at i) (getAsIndex c)) ;;;
    set_advance true ;;; ret true.

(** The [for] loop of the Dense branch.  One unit of fuel is one
    evaluation of the loop condition; [resuming] is the jump to
    [resume_dense], which enters the body without evaluating it. *)
Fixpoint dense_loop (rec : M bool) (lvl : nat) (size base : Z)
    (fuel : nat) (resuming : bool) : M bool :=
  match fuel with
  | O => fail OutOfFuel
  | S fuel' =>
      enter <- (if resuming then ret true
                else
                  c <- read Coord (Z.of_nat lvl) ;;
                  if c <? size then
                    c' <- read Coord (Z.of_nat lvl) ;;
                    write Ptrs (Z.of_nat lvl) (wrap64 (base + c')) ;;; ret true
                  else ret false) ;;
      if enter : bool then
        r <- rec ;;
        if r : bool then ret true
        else incr Coord (Z.of_nat lvl) ;;; dense_loop rec lvl size base fuel' false
      else ret false
  end.

(** The [for] loop of the Sparse branch, in the same way. *)
Fixpoint sparse_loop (rec : M bool) (lvl : nat) (pos idx : Array) (k : Z)
    (fuel : nat) (resuming : bool) : M bool :=
  match fuel with
  | O => fail OutOfFuel
  | S fuel' =>
      enter <- (if resuming then ret true
                else
                  p <- read Ptrs (Z.of_nat lvl) ;;
                  if p <? getAsIndex (Array_get pos (wrap64 (getAsIndex k + 1))) then
                    p' <- read Ptrs (Z.of_nat lvl) ;;
                    write Coord (Z.of_nat lvl)
                      (getAsIndex (Array_get idx (getAsIndex p'))) ;;; ret true
                  else ret false) ;;
      if enter : bool then
        r <- rec ;;
        if r : bool then ret true
        else incr Ptrs (Z.of_nat lvl) ;;; sparse_loop rec lvl pos idx k fuel' false
      else ret false
  end.

(** [bool advanceIndex(size_t lvl)].  [fuel] bounds the depth of the
    recursion; a call at level [lvl] needs [getOrder t - lvl].  The last
    [else] of the source is the branch of [Fixed]; a format with fewer
    mode types than the tensor has dimensions, where [modeTypes[lvl]] has
    no element, is kept apart from it. *)
Fixpoint advanceIndex (fuel : nat) (lvl : nat) : M bool :=
  emit (Visit lvl) ;;;
  if decide (lvl = getOrder t) then leaf lvl
  else
    match fuel with
    | O => fail OutOfFuel
    | S fuel' =>
        let modeIndex := modeIndex_at lvl in
        match getModeTypes (getFormat t) !! lvl with
        | Some Dense =>
            a0 <- lift (getIndexArray modeIndex 0) ;;
            let size := getAsIndex (Array_get a0 0) in
            p <- read Ptrs (wrap64 (Z.of_nat lvl - 1)) ;;
            let base := if decide (lvl = 0%nat) then 0 else wrap64 (p * size) in
            adv <- get_advance ;;
            if adv then
              dense_loop (advanceIndex fuel' (S lvl)) lvl size base
                (S (Z.to_nat size)) true
            else
              write Coord (Z.of_nat lvl) 0 ;;;
              dense_loop (advanceIndex fuel' (S lvl)) lvl size base
                (S (Z.to_nat size)) false
        | Some Sparse =>
            pos <- lift (getIndexArray modeIndex 0) ;;
            idx <- lift (getIndexArray modeIndex 1) ;;
            k <- (if decide (lvl = 0%nat) then ret 0
                  else read Ptrs (wrap64 (Z.of_nat lvl - 1))) ;;
            let hi := getAsIndex (Array_get pos (wrap64 (getAsIndex k + 1))) in
            adv <- get_advance ;;
            if adv then
              sparse_loop (advanceIndex fuel' (S lvl)) lvl pos idx k
                (S (Z.to_nat hi)) true
            else
              write Ptrs (Z.of_nat lvl) (getAsIndex (Array_get pos (getAsIndex k))) ;;;
              sparse_loop (advanceIndex fuel' (S lvl)) lvl pos idx k
                (S (Z.to_nat hi)) false
        | Some Fixed => fail UnsupportedModeType
        | None => fail InvalidModeAccess
        end
    end.

(** [void advanceIndex()]: [advanceIndex(0); ++count;]. *)
Definition advanceIndex0 : M unit :=
  _ <- advanceIndex (getOrder t) 0 ;; incr_count.

(** [operator++()]. *)
Definition increment : M unit := advanceIndex0.

(** The member initialisers of the private constructor
    [const_iterator(tensor, isEnd)]. *)
Definition init_fields (tp : loc) (isEnd : bool) : const_iterator :=
  mkIter tp
    (replicate (getOrder t) 0)
    (replicate (getOrder t) 0)
    (replicate (getOrder t) 0, 0)
    (wrap64 (1 + Z.b2z isEnd * getSize (getIndex (getStorage t))))
    false
    [].

(** The constructor: it sets the fields and calls [advanceIndex()] once. *)
Definition const_iterator_new (tp : loc) (isEnd : bool) : (Error + unit) * const_iterator :=
  advanceIndex0 (init_fields tp isEnd).

(** [begin()] and [end()]. *)
Definition begin_ (tp : loc) := const_iterator_new tp false.
Definition end_ (tp : loc) := const_iterator_new tp true.

(** [k] calls of [advanceIndex()] in a row; a call that throws ends them. *)
Fixpoint calls (k : nat) (s : const_iterator) : (Error + unit) * const_iterator :=
  match k with
  | O => (inr tt, s)
  | S k' =>
      match calls k' s with
      | (inr _, s') => advanceIndex0 s'
      | (inl e, s') => (inl e, s')
      end
  end.

(** [begin()] incremented [k] times. *)
Definition advanced (tp : loc) (k : nat) : (Error + unit) * const_iterator :=
  calls (S k) (init_fields tp false).

End Traversal.

(** [operator==]: [tensor == rhs.tensor && count == rhs.count]. *)
Definition iterator_eq (a b : const_iterator) : bool :=
  bool_decide (tensor a = tensor b) && bool_decide (count a = count b).

(** ** The depth-first walk, as the specification words it *)

(** One physical level of a packed index: a Dense level is its extent, a
    Compressed level its position and coordinate arrays. *)
Inductive Level :=
  | DenseLevel (extent : Z)
  | CompressedLevel (pos idx : list Z).

(** Entry [i] of an index array. *)
Definition at_ (a : list Z) (i : Z) : Z := default 0 (zlookup a i).

Definition level_of (mt : ModeType) (m : ModeIndex) : option Level :=
  match mt, indexArrays m with
  | Dense, a0 :: _ => Some (DenseLevel (Array_get a0 0))
  | Sparse, pos :: idx :: _ => Some (CompressedLevel (elems pos) (elems idx))
  | _, _ => None
  end.

Fixpoint levels_of (mts : list ModeType) (ms : list ModeIndex) : option (list Level) :=
  match mts, ms with
  | [], [] => Some []
  | mt :: mts', m :: ms' =>
      match level_of mt m, levels_of mts' ms' with
      | Some l, Some ls => Some (l :: ls)
      | _, _ => None
      end
  | _, _ => None
  end.

(** The levels of a tensor, outermost first; [None] when a mode type is
    neither Dense nor Compressed or an index array is missing. *)
Definition levels (t : Content) : option (list Level) :=
  levels_of (getModeTypes (getFormat t)) (modeIndices (getIndex (getStorage t))).

(** A leaf of the level tree: the coordinate and the position chosen at
    each level, outermost first. *)
Definition Path := list (Z * Z).

(** The depth-first walk below the parent position [parent]: at a Dense
    level the children are the coordinates [0 .. extent-1], at position
    [parent * extent + c]; at a Compressed level the children are the
    positions [pos[parent] .. pos[parent+1]-1], with the coordinate read
    from the coordinate array at that slot. *)
Fixpoint walk (ls : list Level) (parent : Z) : list Path :=
  match ls with
  | [] => [[]]
  | DenseLevel e :: ls' =>
      flat_map (fun c => map (cons (c, parent * e + c)) (walk ls' (parent * e + c)))
               (seqZ 0 e)
  | CompressedLevel pos idx :: ls' =>
      flat_map (fun p => map (cons (at_ idx p, p)) (walk ls' p))
               (seqZ (at_ pos parent) (at_ pos (parent + 1) - at_ pos parent))
  end.

(** The level that stores dimension [d] under a mode ordering. *)
Fixpoint level_storing (ordering : list Z) (d : Z) : nat :=
  match ordering with
  | [] => 0
  | m :: rest => if m =? d then 0%nat else S (level_storing rest d)
  end.

(** Level-order coordinates permuted back to dimension order. *)
Definition permute_back (ordering : list Z) (cs : list Z) : list Z :=
  map (fun d => default 0 (cs !! level_storing ordering (Z.of_nat d)))
      (seq 0 (length cs)).

(** The offset into the value array at a leaf: the position at the last
    level, or the synthetic root position of an order-0 tensor. *)
Definition leaf_offset (y : Path) : Z := default 0 (last (map snd y)).

(** The pair the traversal produces at a leaf. *)
Definition produced (t : Content) (y : Path) : list Z * Z :=
  (permute_back (getModeOrdering (getFormat t)) (map fst y),
   at_ (elems (getValues (getStorage t))) (leaf_offset y)).

(** The sequence of pairs the specification describes. *)
Definition traversal (t : Content) : list (list Z * Z) :=
  match levels t with
  | Some ls => map (produced t) (walk ls 0)
  | None => []
  end.

(** ** Packed storage: the invariants of the data model *)

Fixpoint nondecreasing (l : list Z) : bool :=
  match l with
  | x :: (y :: _) as l' => (x <=? y) && nondecreasing l'
  | _ => true
  end.

Definition in_size_t (z : Z) : bool := (0 <=? z) && (z <? 2 ^ 64).

(** [wf_levels ls n]: the levels [ls] are well formed below a level that
    stores [n] entries.  A Dense level multiplies the count by its
    extent; a Compressed level has a non-decreasing position array of
    [n + 1] entries that starts at zero, and as many coordinates as its
    last entry. *)
Fixpoint wf_levels (ls : list Level) (n : Z) : bool :=
  match ls with
  | [] => true
  | DenseLevel e :: ls' =>
      in_size_t e && (n * e <? 2 ^ 64) && wf_levels ls' (n * e)
  | CompressedLevel pos idx :: ls' =>
      (Z.of_nat (length pos) =? n + 1) && nondecreasing pos
      && (at_ pos 0 =? 0) && (at_ pos n <? 2 ^ 64)
      && (Z.of_nat (length idx) =? at_ pos n) && forallb in_size_t idx
      && wf_levels ls' (at_ pos n)
  end.

(** The number of entries stored at the last level. *)
Fixpoint stored (ls : list Level) (n : Z) : Z :=
  match ls with
  | [] => n
  | DenseLevel e :: ls' => stored ls' (n * e)
  | CompressedLevel pos _ :: ls' => stored ls' (at_ pos n)
  end.

(** The mode ordering is a permutation of the dimensions. *)
Definition is_ordering (ordering : list Z) (order : nat) : bool :=
  bool_decide (ordering ≡ₚ (Z.of_nat <$> seq 0 order)).

(** A packed tensor: format and index have one entry per mode, the index
    is well formed, its size is the number of stored entries, and the
    value array has that many slots. *)
Definition packed (t : Content) : bool :=
  match levels t with
  | Some ls =>
      bool_decide (length ls = getOrder t)
      && (Z.of_nat (getOrder t) <? 2 ^ 64)
      && is_ordering (getModeOrdering (getFormat t)) (getOrder t)
      && wf_levels ls 1
      && (getSize (getIndex (getStorage t)) =? stored ls 1)
      && (Z.of_nat (length (elems (getValues (getStorage t)))) =? stored ls 1)
  | None => false
  end.

(** A 3x3 matrix, Dense rows and Compressed columns, holding
    (0,0)=1, (0,2)=2, (2,1)=3. *)
Definition int_array (l : list Z) : Array :=
  mkArray Int32 0%nat (Z.of_nat (length l)) l Free.

Definition example_csr : Content :=
  mkContent "A" [3; 3] Int32 CSR
    (mkStorage
       (mkIndex [mkModeIndex [int_array [3]];
                 mkModeIndex [int_array [0; 2; 2; 3]; int_array [0; 2; 1]]] 3)
       (int_array [1; 2; 3])).

(** ** Tensor handles, coordinate buffers and the heap *)

(** The data members of [TensorBase]: two shared pointers, and two
    [size_t] members that every handle holds by value. *)
Record TensorBase := mkTensorBase {
  content : loc;
  coordinateBuffer : loc;
  coordinateBufferUsed : Z;
  coordinateSize : Z
}.

(** What the shared pointers point to: the [Content] blocks, the
    coordinate buffers ([std::vector<char>], one byte per entry), and the
    arrays of the library and of its callers. *)
Record Heap := mkHeap {
  contents : gmap loc Content;
  buffers : gmap loc (list Z);
  memory : gmap loc (list Z)
}.

(** The implicit copy constructor of [TensorBase]: member by member. *)
Definition copy (h : TensorBase) : TensorBase :=
  mkTensorBase (content h) (coordinateBuffer h) (coordinateBufferUsed h)
               (coordinateSize h).

(** [operator==] on handles: "True iff two TensorBase objects refer to the
    same tensor". *)
Definition same_tensor (a b : TensorBase) : bool :=
  bool_decide (content a = content b).

(** The [n] bytes of [v], least significant first. *)
Definition bytes_le (n : nat) (v : Z) : list Z :=
  map (fun i => (v / 256 ^ Z.of_nat i) mod 256) (seq 0 n).

(** The value whose bytes, least significant first, are [bs]. *)
Fixpoint of_bytes_le (bs : list Z) : Z :=
  match bs with
  | [] => 0
  | b :: bs' => b + 256 * of_bytes_le bs'
  end.

(** Bytes stored one after the other from offset [off]. *)
Fixpoint store_bytes (buf : list Z) (off : Z) (bs : list Z) : list Z :=
  match bs with
  | [] => buf
  | b :: bs' => store_bytes (zupdate buf off b) (off + 1) bs'
  end.

(** The loop [for (int idx : coordinate) { *coordLoc = idx; coordLoc++; }]:
    the buffer and [coordLoc] after it. *)
Fixpoint store_coordinates (buf : list Z) (coordLoc : Z) (coordinate : list Z)
    : list Z * Z :=
  match coordinate with
  | [] => (buf, coordLoc)
  | idx :: rest =>
      store_coordinates (store_bytes buf coordLoc (bytes_le 4 idx))
                        (coordLoc + sizeof_int) rest
  end.

(** [TensorBase::insert(coordinate, value)], called on the handle [h] with
    a value of type [T] ([type<T>()]) whose bits are [value].  The result
    is what the call returned or threw, and the handle and the heap as the
    call left them. *)
Definition insert (h : TensorBase) (coordinate : list Z) (T : DataType) (value : Z)
    (H : Heap) : (Error + unit) * (TensorBase * Heap) :=
  match contents H !! content h with
  | None => (inl NullReference, (h, H))
  | Some c =>
      if negb (bool_decide (length coordinate = getOrder c)) then
        (inl DimensionMismatch, (h, H))
      else if negb (bool_decide (getComponentType c = T)) then
        (inl TypeMismatch, (h, H))
      else
        match buffers H !! coordinateBuffer h with
        | None => (inl NullReference, (h, H))
        | Some buf =>
            let buf1 :=
              if wrap64 (Z.of_nat (length buf) - coordinateBufferUsed h)
                 <? coordinateSize h
              then buf ++ replicate (Z.to_nat (coordinateSize h)) 0
              else buf in
            let '(buf2, coordLoc) :=
              store_coordinates buf1 (coordinateBufferUsed h) coordinate in
            let buf3 :=
              store_bytes buf2 coordLoc
                (bytes_le (Z.to_nat (getNumBytes (getComponentType c))) value) in
            (inr tt,
             (mkTensorBase (content h) (coordinateBuffer h)
                (wrap64 (coordinateBufferUsed h + coordinateSize h))
                (coordinateSize h),
              mkHeap (contents H) (<[coordinateBuffer h := buf3]> (buffers H))
                     (memory H)))
        end
  end.

(** Modelled from the spec: the constructors of [TensorBase] (tensor.cpp).
    "A tensor is born unpacked (only a Coordinate Buffer, no Storage)":
    a new [Content] and a new, empty coordinate buffer; the record size
    is that of "order-many int coordinates, one typed value". *)
Definition empty_storage (ty : DataType) : Storage :=
  mkStorage (mkIndex [] 0) (mkArray ty 0%nat 0 [] Free).

Definition new_tensor (name : string) (ctype : DataType) (dimensions : list Z)
    (format : Format) (H : Heap) : TensorBase * Heap :=
  let lc := fresh (dom (contents H)) in
  let lb := fresh (dom (buffers H)) in
  (mkTensorBase lc lb 0
     (Z.of_nat (length dimensions) * sizeof_int + getNumBytes ctype),
   mkHeap (<[lc := mkContent name dimensions ctype format (empty_storage ctype)]>
             (contents H))
          (<[lb := []]> (buffers H))
          (memory H)).

(** The cast [(int) x] of a [size_t]: the low 32 bits, read as signed. *)
Definition cast_int (x : Z) : Z := (x + 2 ^ 31) mod 2 ^ 32 - 2 ^ 31.

Section Packing.

(** What a read of the iterator's vectors outside their bounds finds. *)
Variable stray : Z -> Z.

(** [TensorBase::pack()] is defined in tensor.cpp: it turns the content
    and the used part of the coordinate buffer of its tensor into the
    packed content and the buffer it leaves.  What it computes is left
    open here. *)
Variable pack_content : Content -> list Z -> Z -> Error + (Content * list Z).

(** Modelled from the spec: [pack()] called on a handle.  It works on the
    [Content] and the buffer of that tensor and "must reset buffer usage
    to zero on success"; a failed pack "leaves the previous Storage and
    the Coordinate Buffer untouched". *)
Definition pack (h : TensorBase) (H : Heap) : (Error + unit) * (TensorBase * Heap) :=
  match contents H !! content h, buffers H !! coordinateBuffer h with
  | Some c, Some buf =>
      match pack_content c buf (coordinateBufferUsed h) with
      | inr (c', buf') =>
          (inr tt,
           (mkTensorBase (content h) (coordinateBuffer h) 0 (coordinateSize h),
            mkHeap (<[content h := c']> (contents H))
                   (<[coordinateBuffer h := buf']> (buffers H))
                   (memory H)))
      | inl e => (inl e, (h, H))
      end
  | _, _ => (inl NullReference, (h, H))
  end.

(** The loop of [transpose] over [*this]: from [it] up to [e], each
    produced pair is re-ordered and inserted into [newTensor].  One unit
    of fuel is one evaluation of [it != end()]. *)
Fixpoint insert_all (fuel : nat) (src : Content) (CType : DataType)
    (newModeOrdering : list Z) (it e : const_iterator)
    (newTensor : TensorBase) (H : Heap) : (Error + unit) * (TensorBase * Heap) :=
  match fuel with
  | O => (inl OutOfFuel, (newTensor, H))
  | S fuel' =>
      if iterator_eq it e then (inr tt, (newTensor, H))
      else
        let value := curVal it in
        let newCoordinate :=
          map (fun mode => cast_int (default 0 (zlookup (fst value) mode)))
              newModeOrdering in
        match insert newTensor newCoordinate CType (snd value) H with
        | (inr _, (newTensor', H')) =>
            match increment stray src it with
            | (inr _, it') =>
                insert_all fuel' src CType newModeOrdering it' e newTensor' H'
            | (inl err, _) => (inl err, (newTensor', H'))
            end
        | (inl err, st) => (inl err, st)
        end
  end.

(** [Tensor<CType>::transpose(name, newModeOrdering, format)], a [const]
    member function called on the handle [this]. *)
Definition transpose (this : TensorBase) (CType : DataType) (name : string)
    (newModeOrdering : list Z) (format : Format) (H : Heap)
    : (Error + TensorBase) * Heap :=
  match contents H !! content this with
  | None => (inl NullReference, H)
  | Some src =>
      let newDimensions :=
        map (fun mode => default 0 (zlookup (getDimensions src) mode))
            newModeOrdering in
      let '(newTensor, H1) := new_tensor name CType newDimensions format H in
      match begin_ stray src (content this), end_ stray src (content this) with
      | (inr _, it), (inr _, e) =>
          match insert_all (S (Z.to_nat (getSize (getIndex (getStorage src)))))
                           src CType newModeOrdering it e newTensor H1 with
          | (inr _, (newTensor', H2)) =>
              match pack newTensor' H2 with
              | (inr _, (newTensor'', H3)) => (inr newTensor'', H3)
              | (inl err, (_, H3)) => (inl err, H3)
              end
          | (inl err, (_, H2)) => (inl err, H2)
          end
      | (inl err, _), _ => (inl err, H1)
      | _, (inl err, _) => (inl err, H1)
      end
  end.

(** The scalar constructor [TensorBase(T val)]:
    [TensorBase(type<T>())], then [insert({}, val); pack();]. *)
Definition TensorBase_scalar (name : string) (T : DataType) (val : Z) (H : Heap)
    : (Error + TensorBase) * Heap :=
  let '(this, H1) := new_tensor name T [] (mkFormat [] []) H in
  match insert this [] T val H1 with
  | (inr _, (this', H2)) =>
      match pack this' H2 with
      | (inr _, (this'', H3)) => (inr this'', H3)
      | (inl err, (_, H3)) => (inl err, H3)
      end
  | (inl err, (_, H2)) => (inl err, H2)
  end.

End Packing.

(** Modelled from the spec: what [pack()] makes of an order-0 tensor
    whose buffer holds one record, the value [v]: "the Traversal Engine
    over the result enumerates exactly the set of inserted (coordinate,
    value) pairs", so the storage holds the one value, and
    [Index.getSize()], the "total count of stored leaf entries", is 1. *)
Definition packs_scalars
    (pack_content : Content -> list Z -> Z -> Error + (Content * list Z)) : Prop :=
  forall c buf,
    getOrder c = 0%nat ->
    exists data,
      pack_content c buf (getNumBytes (getComponentType c))
      = inr (mkContent (getName c) (getDimensions c) (getComponentType c) (getFormat c)
               (mkStorage (mkIndex [] 1)
                  (mkArray (getComponentType c) data 1
                     [of_bytes_le (take (Z.to_nat (getNumBytes (getComponentType c))) buf)]
                     Free)),
             buf).

(** ** The CSR factory and accessor *)

(** Modelled from the spec: [storage::makeArray(data, size, policy)], an
    array over caller-owned memory ("zero-copy"). *)
Definition makeArray (ty : DataType) (H : Heap) (data : loc) (size : Z) (p : Policy)
    : Array :=
  mkArray ty data size (take (Z.to_nat size) (default [] (memory H !! data))) p.

(** Modelled from the spec: [storage::makeCSRIndex(numrows, rowptr,
    colidx)]: "one Dense outer level sized by rows, one Compressed inner
    level with position length = outer extent + 1" over the caller's
    arrays; the count of stored entries is the last position. *)
Definition makeCSRIndex (numrows : Z) (rowptr colidx : loc) (H : Heap) : Index * Heap :=
  let ld := fresh (dom (memory H)) in
  let H1 := mkHeap (contents H) (buffers H) (<[ld := [numrows]]> (memory H)) in
  let pos := makeArray Int32 H1 rowptr (numrows + 1) UserOwns in
  let nnz := Array_get pos numrows in
  (mkIndex [mkModeIndex [mkArray Int32 ld 1 [numrows] Free];
            mkModeIndex [pos; makeArray Int32 H1 colidx nnz UserOwns]]
           nnz,
   H1).

(** [storage.setIndex(index)] and [storage.setValues(values)] on the
    storage of the tensor at [l]. *)
Definition setIndex (l : loc) (ix : Index) (H : Heap) : Heap :=
  mkHeap (alter (fun c => mkContent (getName c) (getDimensions c) (getComponentType c)
                            (getFormat c) (mkStorage ix (getValues (getStorage c))))
                l (contents H))
         (buffers H) (memory H).

Definition setValues (l : loc) (a : Array) (H : Heap) : Heap :=
  mkHeap (alter (fun c => mkContent (getName c) (getDimensions c) (getComponentType c)
                            (getFormat c) (mkStorage (getIndex (getStorage c)) a))
                l (contents H))
         (buffers H) (memory H).

(** [makeCSR<T>(name, dimensions, rowptr, colidx, vals)] over raw
    arrays. *)
Definition makeCSR (T : DataType) (name : string) (dimensions : list Z)
    (rowptr colidx vals : loc) (H : Heap) : (Error + TensorBase) * Heap :=
  if negb (bool_decide (length dimensions = 2%nat)) then (inl RequiresMatrix, H)
  else
    let '(tensor, H1) := new_tensor name T dimensions CSR H in
    let '(index, H2) := makeCSRIndex (default 0 (dimensions !! 0%nat)) rowptr colidx H1 in
    let H3 := setIndex (content tensor) index H2 in
    let H4 := setValues (content tensor)
                (makeArray T H3 vals (getSize index) UserOwns) H3 in
    (inr tensor, H4).

(** [getCSRArrays<T>(tensor, &rowptr, &colidx, &vals)]: the three
    pointers it stores through its arguments. *)
Definition getCSRArrays (tensor : TensorBase) (H : Heap) : Error + (loc * loc * loc) :=
  match contents H !! content tensor with
  | None => inl NullReference
  | Some c =>
      if negb (bool_decide (getFormat c = CSR)) then inl FormatMismatch
      else
        let index := getIndex (getStorage c) in
        let m := default (mkModeIndex []) (modeIndices index !! 1%nat) in
        match getIndexArray m 0, getIndexArray m 1 with
        | inr rowptrArr, inr colidxArr =>
            if negb (bool_decide (getType rowptrArr = Int32)) then inl TypeMismatch
            else if negb (bool_decide (getType colidxArr = Int32)) then inl TypeMismatch
            else inr (getData rowptrArr, getData colidxArr,
                      getData (getValues (getStorage c)))
        | inl e, _ => inl e
        | _, inl e => inl e
        end
  end.

(** ** Example tensors *)

Definition empty_heap : Heap := mkHeap ∅ ∅ ∅.

(** A fresh unpacked vector of three [int] components. *)
Definition example_vector : TensorBase * Heap :=
  new_tensor "v" Int32 [3] (mkFormat [Sparse] [0]) empty_heap.

(** A fresh unpacked vector of [double] components into which two
    records were inserted. *)
Definition example_two_records : TensorBase * Heap :=
  let '(h, H) := new_tensor "w" Float64 [9] (mkFormat [Sparse] [0]) empty_heap in
  let '(_, (h1, H1)) := insert h [4] Float64 1 H in
  let '(_, (h2, H2)) := insert h1 [7] Float64 2 H1 in
  (h2, H2).

(** A packed dense vector of two components. *)
Definition example_dense : Content :=
  mkContent "d" [2] Int32 (mkFormat [Dense] [0])
    (mkStorage (mkIndex [mkModeIndex [mkArray Int32 0%nat 1 [2] Free]] 2)
               (mkArray Int32 1%nat 2 [5; 7] Free)).

(** Caller-owned CSR arrays at the addresses 10, 11 and 12. *)
Definition example_memory : Heap :=
  mkHeap ∅ ∅ (<[10%nat := [0; 2; 2; 3]]> (<[11%nat := [0; 2; 1]]>
               (<[12%nat := [1; 2; 3]]> ∅))).

(** A [pack] that packs order-0 tensors as the spec says and nothing
    else. *)
Definition pack_scalars_only (c : Content) (buf : list Z) (used : Z)
    : Error + (Content * list Z) :=
  if bool_decide (getOrder c = 0%nat) then
    inr (mkContent (getName c) (getDimensions c) (getComponentType c) (getFormat c)
           (mkStorage (mkIndex [] 1)
              (mkArray (getComponentType c) 0%nat 1
                 [of_bytes_le (take (Z.to_nat used) buf)] Free)),
         buf)
  else inl UnsupportedModeType.

(** The matrix [example_csr] on the heap, with an empty coordinate
    buffer, and a handle on it. *)
Definition example_matrix : TensorBase * Heap :=
  (mkTensorBase 0%nat 0%nat 0 12,
   mkHeap {[0%nat := example_csr]} {[0%nat := []]} ∅).

(** A [pack] that leaves the content and the buffer as they are. *)
Definition pack_nothing (c : Content) (buf : list Z) (used : Z)
    : Error + (Content * list Z) :=
  inr (c, buf).

(** ** Invariants of the traversal *)

(** ** The children of a position, uniformly over the two kinds of level *)

(** The vector that holds the loop variable of a level: the coordinate at
    a Dense level, the position at a Compressed level. *)
Definition var_of (L : Level) : Vec :=
  match L with DenseLevel _ => Coord | CompressedLevel _ _ => Ptrs end.

Definition lo_of (L : Level) (q : Z) : Z :=
  match L with DenseLevel _ => 0 | CompressedLevel pos _ => at_ pos q end.

Definition hi_of (L : Level) (q : Z) : Z :=
  match L with DenseLevel e => e | CompressedLevel pos _ => at_ pos (q + 1) end.

(** The (coordinate, position) pair of the child with loop variable [j]. *)
Definition elem_of_level (L : Level) (q j : Z) : Z * Z :=
  match L with
  | DenseLevel e => (j, q * e + j)
  | CompressedLevel _ idx => (at_ idx j, j)
  end.

(** The loop variable of a child. *)
Definition key_of (L : Level) (x : Z * Z) : Z :=
  match L with DenseLevel _ => fst x | CompressedLevel _ _ => snd x end.

(** The leaves below the child with loop variable [j]. *)
Definition segment (L : Level) (ls : list Level) (q j : Z) : list Path :=
  map (cons (elem_of_level L q j)) (walk ls (snd (elem_of_level L q j))).

(** [valid ls q y]: [y] is a leaf of the walk of [ls] below [q]. *)
Fixpoint valid (ls : list Level) (q : Z) (y : Path) : Prop :=
  match ls, y with
  | [], [] => True
  | L :: ls', x :: y' =>
      lo_of L q <= key_of L x < hi_of L q
      /\ x = elem_of_level L q (key_of L x)
      /\ valid ls' (snd x) y'
  | _, _ => False
  end.

(** [rest ls q y]: the leaves that follow [y] in the walk of [ls] below [q]. *)
Fixpoint rest (ls : list Level) (q : Z) (y : Path) : list Path :=
  match ls, y with
  | L :: ls', x :: y' =>
      map (cons x) (rest ls' (snd x) y')
      ++ flat_map (segment L ls' q)
                  (seqZ (key_of L x + 1) (hi_of L q - (key_of L x + 1)))
  | _, _ => []
  end.

Section TraversalInvariants.

Variable stray : Z -> Z.
Variable t : Content.

Local Open Scope iter_scope.

(** The call left the iterator's tensor, count and the entries of both
    vectors above level [lvl] as they were. *)
Definition frame (lvl : nat) (s s' : const_iterator) : Prop :=
  tensor s' = tensor s /\ count s' = count s
  /\ length (coord s') = length (coord s)
  /\ length (ptrs s') = length (ptrs s)
  /\ (forall i, (i < lvl)%nat -> coord s' !! i = coord s !! i)
  /\ (forall i, (i < lvl)%nat -> ptrs s' !! i = ptrs s !! i).

(** From level [lvl] on, the vectors hold the leaf [y]. *)
Definition at_path (lvl : nat) (s : const_iterator) (y : Path) : Prop :=
  drop lvl (coord s) = map fst y /\ drop lvl (ptrs s) = map snd y.

(** The position of the parent of level [lvl]. *)
Definition parent (lvl : nat) (s : const_iterator) (q : Z) : Prop :=
  match lvl with
  | O => q = 0
  | S l => ptrs s !! l = Some q
  end.

(** [curVal] as the leaf branch computes it from the two vectors. *)
Definition copy_back (cs first : list Z) : list Z :=
  foldl (fun acc i => zupdate acc (mode_at t i) (getAsIndex (default 0 (cs !! i))))
        first (seq 0 (getOrder t)).

Definition leaf_cur (cur : list Z * Z) (cs ps : list Z) : list Z * Z :=
  (copy_back cs (fst cur),
   Array_get (getValues (getStorage t)) (getAsIndex (default 0 (last ps)))).

(** The call returned [true] at the first leaf of [L], or [false] when
    [L] is empty. *)
Definition outcome (lvl : nat) (ls : list Level) (q : Z) (s : const_iterator)
    (L : list Path) (r : (Error + bool) * const_iterator) : Prop :=
  exists s',
    r = (inr (match L with [] => false | _ => true end), s')
    /\ frame lvl s s'
    /\ match L with
       | [] => advance s' = false /\ curVal s' = curVal s
       | z :: zs =>
           advance s' = true /\ at_path lvl s' z /\ valid ls q z
           /\ rest ls q z = zs
           /\ curVal s' = leaf_cur (curVal s) (coord s') (ptrs s')
       end.

Definition co (v : Vec) : Vec := match v with Coord => Ptrs | Ptrs => Coord end.

Definition pair_of (v : Vec) (j o : Z) : Z * Z :=
  match v with Coord => (j, o) | Ptrs => (o, j) end.

(** The common shape of [dense_loop] and [sparse_loop]: the loop variable
    is entry [lvl] of the vector [var], the body first stores [other j]
    in the other vector. *)
Fixpoint level_loop (var : Vec) (hi : Z) (other : Z -> Z) (rec : M bool)
    (lvl : nat) (fuel : nat) (resuming : bool) : M bool :=
  match fuel with
  | O => fail OutOfFuel
  | S fuel' =>
      enter <- (if resuming then ret true
                else
                  j <- read stray var (Z.of_nat lvl) ;;
                  if j <? hi then
                    j' <- read stray var (Z.of_nat lvl) ;;
                    write (co var) (Z.of_nat lvl) (other j') ;;; ret true
                  else ret false) ;;
      if enter : bool then
        r <- rec ;;
        if r : bool then ret true
        else incr var (Z.of_nat lvl) ;;; level_loop var hi other rec lvl fuel' false
      else ret false
  end.

(** What the recursive call at the next level is known to do. *)
Definition rec_ok (lvl' : nat) (ls' : list Level) (cnt' : Z) (rec : M bool) : Prop :=
  forall q' s,
    0 <= q' < cnt' -> parent lvl' s q' ->
    length (coord s) = getOrder t -> length (ptrs s) = getOrder t ->
    (advance s = false -> outcome lvl' ls' q' s (walk ls' q') (rec s))
    /\ (advance s = true -> forall y, at_path lvl' s y -> valid ls' q' y ->
        outcome lvl' ls' q' s (rest ls' q' y) (rec s)).

(** What the loop at level [lvl] relies on. *)
Record loop_ctx (lvl : nat) (L : Level) (q cnt' : Z) (other : Z -> Z) : Prop := {
  ctx_lvl : (lvl < getOrder t)%nat;
  ctx_lo : 0 <= lo_of L q;
  ctx_hi : hi_of L q < 2 ^ 64;
  ctx_other : forall j, lo_of L q <= j < hi_of L q ->
              elem_of_level L q j = pair_of (var_of L) j (other j);
  ctx_child : forall j, lo_of L q <= j < hi_of L q ->
              0 <= snd (elem_of_level L q j) < cnt'
}.

(** The iterator after the loop condition held for [j] and [other j] was
    stored. *)
Definition entered (var : Vec) (lvl : nat) (o : Z) (s : const_iterator) : const_iterator :=
  with_vec (co var) (<[lvl := o]> (vec_of (co var) s))
    (log (Access (co var) (Z.of_nat lvl))
       (log (Access var (Z.of_nat lvl)) (log (Access var (Z.of_nat lvl)) s))).

(** The iterator after [++var[lvl]]. *)
Definition stepped (var : Vec) (lvl : nat) (j : Z) (s : const_iterator) : const_iterator :=
  with_vec var (<[lvl := j]> (vec_of var s)) (log (Access var (Z.of_nat lvl)) s).

(** The iterator between two calls: before the first call nothing is
    set; after call [k] it rests on leaf [k - 1] of the walk [W]. *)
Definition rests (Ls : list Level) (W : list Path) (k : nat) (s : const_iterator) : Prop :=
  length (coord s) = getOrder t /\ length (ptrs s) = getOrder t
  /\ length (fst (curVal s)) = getOrder t
  /\ match k with
     | O => advance s = false
     | S k' =>
         advance s = true
         /\ exists y, W !! k' = Some y /\ at_path 0 s y /\ valid Ls 0 y
                      /\ rest Ls 0 y = drop (S k') W /\ curVal s = produced t y
     end.

(** A level whose mode type the traversal does not implement. *)
Definition unsupported (l : nat) : Prop :=
  (l < getOrder t)%nat
  /\ exists m, getModeTypes (getFormat t) !! l = Some m
               /\ m <> Dense /\ m <> Sparse.

(** A computation only adds events, and it throws [UnsupportedModeType]
    exactly when it entered an unsupported level. *)
Definition quiet {A} (m : M A) : Prop :=
  forall s, exists ev,
    trace (snd (m s)) = trace s ++ ev
    /\ (fst (m s) = inl UnsupportedModeType
        <-> exists l, Visit l ∈ ev /\ unsupported l).

End TraversalInvariants.

(** The sum of [g] over a list of positions. *)
Fixpoint total (g : Z -> nat) (l : list Z) : nat :=
  match l with
  | [] => 0%nat
  | x :: l' => (g x + total g l')%nat
  end.

Definition record_coordinates (coordinate : list Z) : list Z :=
  concat (map (bytes_le 4) coordinate).

(** The record [transpose] inserts for one pair of the source: the
    coordinates picked in the new order, then the value. *)
Definition transposed_record (CType : DataType) (newModeOrdering : list Z)
    (x : list Z * Z) : list Z :=
  record_coordinates
    (map (fun mode => cast_int (default 0 (zlookup (fst x) mode))) newModeOrdering)
  ++ bytes_le (Z.to_nat (getNumBytes CType)) (snd x).

(** [H'] differs from [H] at most in the content at [lc] and in the
    buffer at [lb]. *)
Definition grows_at (lc lb : loc) (H H' : Heap) : Prop :=
  memory H' = memory H
  /\ (forall l, l <> lc -> contents H' !! l = contents H !! l)
  /\ (forall l, l <> lb -> buffers H' !! l = buffers H !! l).


(** ** The rest of the iterator's interface, and invariants that hold
    for every tensor *)

(** [operator!=]: the negation of [operator==]. *)
Definition iterator_neq (a b : const_iterator) : bool := negb (iterator_eq a b).

(** [operator*]: the current pair. *)
Definition deref (s : const_iterator) : list Z * Z := curVal s.

(** The iterator with another tensor pointer and another count. *)
Definition relabel (tp : loc) (c : Z) (s : const_iterator) : const_iterator :=
  mkIter tp (coord s) (ptrs s) (curVal s) c (advance s) (trace s).

(** A member function that neither reads nor writes [tensor] and
    [count]: it runs alike whatever the two fields hold, and leaves them
    as they are. *)
Definition blind {A} (m : M A) : Prop :=
  forall tp c s, m (relabel tp c s) = (fst (m s), relabel tp c (snd (m s))).

(** [kept P s s']: from [s] to [s'] the tensor pointer, the count and
    the sizes of the three vectors are unchanged, and every event added
    satisfies [P]. *)
Definition kept (P : Event -> Prop) (s s' : const_iterator) : Prop :=
  tensor s' = tensor s /\ count s' = count s
  /\ length (coord s') = length (coord s)
  /\ length (ptrs s') = length (ptrs s)
  /\ length (fst (curVal s')) = length (fst (curVal s))
  /\ exists ev, trace s' = trace s ++ ev /\ Forall P ev.

Definition keeps (P : Event -> Prop) {A} (m : M A) : Prop :=
  forall s, kept P s (snd (m s)).

(** An index that [operator[]] of a vector of [order] elements accepts. *)
Definition in_bounds (order : nat) (e : Event) : Prop :=
  match e with
  | Visit _ => True
  | Access _ i => 0 <= i < Z.of_nat order
  end.

Section RangeFor.

Variable stray : Z -> Z.
Variable t : Content.

(** The loop [for (const auto& value : tensor)] of a caller, as
    [transpose] has it, with the body [out.push_back(value)]: while
    [it != end], read [*it] and call [++it].  One unit of fuel is one
    test. *)
Fixpoint range_for (fuel : nat) (it e : const_iterator) (out : list (list Z * Z))
    : Error + list (list Z * Z) :=
  match fuel with
  | O => inl OutOfFuel
  | S fuel' =>
      if iterator_neq it e then
        match increment stray t it with
        | (inr _, it') => range_for fuel' it' e (out ++ [deref it])
        | (inl err, _) => inl err
        end
      else inr out
  end.

End RangeFor.

(** The position a path ends at: that of its last level, or the position
    it starts from. *)
Definition offset_from (parent : Z) (y : Path) : Z :=
  default parent (last (map snd y)).

(** Calls of [insert] one after the other, on the same handle. *)
Fixpoint insert_each (h : TensorBase) (T : DataType) (values : list (list Z * Z))
    (H : Heap) : (Error + unit) * (TensorBase * Heap) :=
  match values with
  | [] => (inr tt, (h, H))
  | (coordinate, value) :: values' =>
      match insert h coordinate T value H with
      | (inr _, (h', H')) => insert_each h' T values' H'
      | (inl err, st) => (inl err, st)
      end
  end.

(** The record of one inserted pair. *)
Definition record_of (T : DataType) (x : list Z * Z) : list Z :=
  record_coordinates (fst x) ++ bytes_le (Z.to_nat (getNumBytes T)) (snd x).

(** The position that the Dense levels of extents [es] give the
    coordinates [cs], from the parent position [p]: at each level the
    position is multiplied by the extent and the coordinate is added. *)
Fixpoint row_major (es cs : list Z) (p : Z) : Z :=
  match es, cs with
  | e :: es', c :: cs' => row_major es' cs' (p * e + c)
  | _, _ => p
  end.

(** A packed dense matrix of two rows and three columns. *)
Definition example_dense_matrix : Content :=
  mkContent "D" [2; 3] Int32 (mkFormat [Dense; Dense] [0; 1])
    (mkStorage (mkIndex [mkModeIndex [int_array [2]]; mkModeIndex [int_array [3]]] 6)
               (int_array [10; 11; 12; 13; 14; 15])).
(** * Proofs *)

(** ** Vectors and machine arithmetic *)

Lemma wrap64_small z : 0 <= z < 2 ^ 64 -> wrap64 z = z.
Proof. intros H. unfold wrap64. apply Z.mod_small. exact H. Qed.

Lemma getAsIndex_small z : 0 <= z < 2 ^ 64 -> getAsIndex z = z.
Proof. apply wrap64_small. Qed.

Lemma zlookup_nat (l : list Z) (i : nat) : zlookup l (Z.of_nat i) = l !! i.
Proof.
  unfold zlookup.
  destruct (Z.ltb_spec (Z.of_nat i) (Z.of_nat (length l))) as [Hlt | Hge].
  - replace (0 <=? Z.of_nat i) with true by (symmetry; apply Z.leb_le; lia).
    cbn. by rewrite Nat2Z.id.
  - rewrite andb_false_r. symmetry. apply lookup_ge_None. lia.
Qed.

Lemma zupdate_nat (l : list Z) (i : nat) (x : Z) :
  zupdate l (Z.of_nat i) x = <[i := x]> l.
Proof.
  unfold zupdate.
  destruct (Z.ltb_spec (Z.of_nat i) (Z.of_nat (length l))) as [Hlt | Hge].
  - replace (0 <=? Z.of_nat i) with true by (symmetry; apply Z.leb_le; lia).
    cbn. by rewrite Nat2Z.id.
  - rewrite andb_false_r. symmetry. apply list_insert_ge. lia.
Qed.

Lemma zlookup_Some (l : list Z) (i x : Z) :
  zlookup l i = Some x -> 0 <= i < Z.of_nat (length l) /\ l !! Z.to_nat i = Some x.
Proof.
  unfold zlookup.
  destruct (Z.leb_spec 0 i) as [H0 | H0],
    (Z.ltb_spec i (Z.of_nat (length l))) as [H1 | H1]; cbn;
    intros Hx; try discriminate Hx.
  split; [lia | exact Hx].
Qed.

Lemma zlookup_in_range (l : list Z) (i : Z) :
  0 <= i < Z.of_nat (length l) -> exists x, zlookup l i = Some x /\ l !! Z.to_nat i = Some x.
Proof.
  intros H. unfold zlookup.
  replace (0 <=? i) with true by (symmetry; apply Z.leb_le; lia).
  replace (i <? Z.of_nat (length l)) with true by (symmetry; apply Z.ltb_lt; lia).
  cbn. destruct (lookup_lt_is_Some_2 l (Z.to_nat i)) as [x Hx]; [lia |].
  exists x. by rewrite Hx.
Qed.

Lemma walk_cons L ls q :
  walk (L :: ls) q = flat_map (segment L ls q) (seqZ (lo_of L q) (hi_of L q - lo_of L q)).
Proof.
  destruct L as [e | pos idx]; cbn [walk lo_of hi_of].
  - by rewrite Z.sub_0_r.
  - done.
Qed.

Lemma seqZ_step j hi : j < hi -> seqZ j (hi - j) = j :: seqZ (j + 1) (hi - (j + 1)).
Proof.
  intros H. rewrite seqZ_cons by lia. f_equal. f_equal; lia.
Qed.

Lemma seqZ_done j hi : hi <= j -> seqZ j (hi - j) = [].
Proof. intros H. apply seqZ_nil. lia. Qed.

(** ** How a call of [advanceIndex] leaves the iterator *)

Section TraversalProofs.

Variable stray : Z -> Z.
Variable t : Content.

Local Open Scope iter_scope.

Lemma frame_refl lvl s : frame lvl s s.
Proof. repeat split; done. Qed.

Lemma frame_trans lvl s1 s2 s3 : frame lvl s1 s2 -> frame lvl s2 s3 -> frame lvl s1 s3.
Proof.
  intros (A1 & A2 & A3 & A4 & A5 & A6) (B1 & B2 & B3 & B4 & B5 & B6).
  repeat split; try congruence.
  - intros i Hi. rewrite B5, A5; done.
  - intros i Hi. rewrite B6, A6; done.
Qed.

Lemma frame_weaken lvl lvl' s s' : (lvl <= lvl')%nat -> frame lvl' s s' -> frame lvl s s'.
Proof.
  intros Hle (A1 & A2 & A3 & A4 & A5 & A6).
  repeat split; try done; intros i Hi; [apply A5 | apply A6]; lia.
Qed.

Lemma outcome_frame lvl ls q s0 s L r :
  frame lvl s0 s -> curVal s = curVal s0 ->
  outcome t lvl ls q s L r -> outcome t lvl ls q s0 L r.
Proof.
  intros Hf Hc (s' & Hr & Hf' & HL).
  exists s'. split; [done |]. split; [by eapply frame_trans |].
  destruct L as [| z zs]; rewrite <- Hc; done.
Qed.

(** *** The primitive operations *)

Lemma vec_of_log v e s : vec_of v (log e s) = vec_of v s.
Proof. by destruct v. Qed.

Lemma read_run v i s :
  read stray v i s
  = (inr (match zlookup (vec_of v s) i with Some x => x | None => stray i end),
     log (Access v i) s).
Proof. unfold read, bind, emit. by rewrite vec_of_log. Qed.

Lemma read_nat v (i : nat) x s :
  vec_of v s !! i = Some x ->
  read stray v (Z.of_nat i) s = (inr x, log (Access v (Z.of_nat i)) s).
Proof. intros H. rewrite read_run, zlookup_nat, H. done. Qed.

Lemma write_nat v (i : nat) x s :
  write v (Z.of_nat i) x s
  = (inr tt, with_vec v (<[i := x]> (vec_of v s)) (log (Access v (Z.of_nat i)) s)).
Proof. unfold write, bind, emit. by rewrite vec_of_log, zupdate_nat. Qed.

Lemma incr_nat v (i : nat) x s :
  vec_of v s !! i = Some x ->
  incr v (Z.of_nat i) s
  = (inr tt, with_vec v (<[i := wrap64 (x + 1)]> (vec_of v s))
                      (log (Access v (Z.of_nat i)) s)).
Proof.
  intros H. unfold incr, bind, emit.
  by rewrite vec_of_log, zlookup_nat, H, zupdate_nat.
Qed.

Lemma bind_run {A B} (m : M A) (k : A -> M B) s a s' :
  m s = (inr a, s') -> bind m k s = k a s'.
Proof. intros H. unfold bind. by rewrite H. Qed.

(** *** The leaf branch *)

Lemma copy_loop (l : list nat) : forall s,
  (forall i, i ∈ l -> (i < length (coord s))%nat) ->
  exists s',
    for_each l (fun i => c <- read stray Coord (Z.of_nat i) ;;
                         set_first (mode_at t i) (getAsIndex c)) s = (inr tt, s')
    /\ tensor s' = tensor s /\ count s' = count s /\ coord s' = coord s
    /\ ptrs s' = ptrs s /\ advance s' = advance s
    /\ snd (curVal s') = snd (curVal s)
    /\ fst (curVal s')
       = foldl (fun acc i => zupdate acc (mode_at t i)
                               (getAsIndex (default 0 (coord s !! i))))
               (fst (curVal s)) l.
Proof.
  induction l as [| i l IH]; intros s Hin.
  - exists s. cbn. repeat split; done.
  - destruct (lookup_lt_is_Some_2 (coord s) i) as [c Hc].
    { apply Hin. left. }
    cbn [for_each].
    erewrite bind_run; cycle 1.
    { erewrite bind_run; [| by apply (read_nat Coord)]. reflexivity. }
    match goal with |- context [for_each l _ ?s1] => destruct (IH s1) as (s' & Hrun & H) end.
    { intros j Hj. cbn. apply Hin. by right. }
    exists s'. split; [exact Hrun |].
    cbn in H. destruct H as (H1 & H2 & H3 & H4 & H5 & H6 & H7).
    repeat split; try done.
    rewrite H7. cbn. by rewrite Hc.
Qed.

Lemma leaf_resume lvl q s :
  advance s = true -> outcome t lvl [] q s [] (leaf stray t lvl s).
Proof.
  intros Hadv. unfold leaf, bind, get_advance. rewrite Hadv. cbn.
  eexists. split; [reflexivity |]. split; [repeat split; done |]. done.
Qed.

Lemma leaf_fresh lvl q s :
  lvl = getOrder t -> Z.of_nat (getOrder t) < 2 ^ 64 ->
  advance s = false -> parent lvl s q ->
  length (coord s) = getOrder t -> length (ptrs s) = getOrder t ->
  outcome t lvl [] q s [[]] (leaf stray t lvl s).
Proof.
  intros Hlvl Hord Hadv Hpar Hlc Hlp.
  unfold leaf. unfold bind at 1. unfold get_advance. rewrite Hadv.
  assert (Hidx : exists s1,
    (if decide (lvl = 0%nat) then ret 0
     else read stray Ptrs (wrap64 (Z.of_nat lvl - 1))) s
    = (inr (default 0 (last (ptrs s))), s1)
    /\ tensor s1 = tensor s /\ count s1 = count s /\ coord s1 = coord s
    /\ ptrs s1 = ptrs s /\ advance s1 = advance s /\ curVal s1 = curVal s).
  { destruct lvl as [| l].
    - exists s. cbn. destruct (ptrs s); [done | cbn in Hlp; lia].
    - cbn in Hpar. eexists. split.
      + rewrite decide_False by done.
        replace (wrap64 (Z.of_nat (S l) - 1)) with (Z.of_nat l)
          by (symmetry; replace (Z.of_nat (S l) - 1) with (Z.of_nat l) by lia;
              apply wrap64_small; lia).
        rewrite (read_nat Ptrs l q) by done.
        rewrite last_lookup. rewrite Hlp, <- Hlvl. cbn. by rewrite Hpar.
      + cbn; repeat split; reflexivity. }
  destruct Hidx as (s1 & Hrun & E1 & E2 & E3 & E4 & E5 & E6).
  erewrite bind_run by exact Hrun.
  unfold bind at 1. unfold set_second at 1.
  match goal with |- outcome t _ _ _ _ _ (_ ?s2) =>
    destruct (copy_loop (seq 0 lvl) s2) as (s3 & Hcopy & F1 & F2 & F3 & F4 & F5 & F6 & F7)
  end.
  { intros i Hi. cbn. rewrite E3, Hlc, <- Hlvl. apply elem_of_seq in Hi. lia. }
  erewrite bind_run by exact Hcopy.
  cbn in F1, F2, F3, F4, F5, F6, F7.
  unfold bind, set_advance, ret.
  eexists. split; [reflexivity |]. cbn.
  split.
  { repeat split; cbn; intros; congruence. }
  split; [done |]. split.
  { split; cbn; rewrite ?F3, ?F4, ?E3, ?E4; apply drop_ge; lia. }
  split; [done |]. split; [done |].
  unfold leaf_cur, copy_back. rewrite <- Hlvl.
  rewrite F3, F4, E4, <- E6, <- F7, <- F6.
  by destruct (curVal s3).
Qed.

(** *** The two loops, uniformly *)

Lemma bind_ext {A B} (m : M A) (k k' : A -> M B) s :
  (forall a s', k a s' = k' a s') -> bind m k s = bind m k' s.
Proof.
  intros H. unfold bind. destruct (m s) as [[e | a] s']; [done | apply H].
Qed.

Lemma dense_loop_level rec lvl size base fuel : forall resuming s,
  dense_loop stray rec lvl size base fuel resuming s
  = level_loop stray Coord size (fun c => wrap64 (base + c)) rec lvl fuel resuming s.
Proof.
  induction fuel as [| fuel IH]; intros resuming s; [done |].
  cbn [dense_loop level_loop].
  apply bind_ext. intros [|] s1; [| done].
  apply bind_ext. intros [|] s2; [done |].
  apply bind_ext. intros _ s3. apply IH.
Qed.

Lemma sparse_loop_level rec lvl pos idx k fuel : forall resuming s,
  sparse_loop stray rec lvl pos idx k fuel resuming s
  = level_loop stray Ptrs (getAsIndex (Array_get pos (wrap64 (getAsIndex k + 1))))
      (fun p => getAsIndex (Array_get idx (getAsIndex p))) rec lvl fuel resuming s.
Proof.
  induction fuel as [| fuel IH]; intros resuming s; [done |].
  cbn [sparse_loop level_loop].
  apply bind_ext. intros [|] s1; [| done].
  apply bind_ext. intros [|] s2; [done |].
  apply bind_ext. intros _ s3. apply IH.
Qed.

Lemma test_enters var hi other lvl j s :
  vec_of var s !! lvl = Some j -> j < hi ->
  (j0 <- read stray var (Z.of_nat lvl) ;;
   if j0 <? hi then
     j' <- read stray var (Z.of_nat lvl) ;;
     write (co var) (Z.of_nat lvl) (other j') ;;; ret true
   else ret false) s
  = (inr true, entered var lvl (other j) s).
Proof.
  intros Hv Hlt.
  erewrite bind_run by (apply read_nat; exact Hv).
  replace (j <? hi) with true by (symmetry; apply Z.ltb_lt; lia).
  erewrite bind_run by (apply read_nat; rewrite vec_of_log; exact Hv).
  erewrite bind_run by apply write_nat.
  unfold ret, entered. by rewrite !vec_of_log.
Qed.

Lemma test_leaves var hi other lvl j s :
  vec_of var s !! lvl = Some j -> hi <= j ->
  (j0 <- read stray var (Z.of_nat lvl) ;;
   if j0 <? hi then
     j' <- read stray var (Z.of_nat lvl) ;;
     write (co var) (Z.of_nat lvl) (other j') ;;; ret true
   else ret false) s
  = (inr false, log (Access var (Z.of_nat lvl)) s).
Proof.
  intros Hv Hge.
  erewrite bind_run by (apply read_nat; exact Hv).
  replace (j <? hi) with false by (symmetry; apply Z.ltb_ge; lia).
  done.
Qed.

Lemma entered_spec var lvl j o s :
  vec_of var s !! lvl = Some j ->
  (lvl < length (coord s))%nat -> (lvl < length (ptrs s))%nat ->
  let s1 := entered var lvl o s in
  coord s1 !! lvl = Some (fst (pair_of var j o))
  /\ ptrs s1 !! lvl = Some (snd (pair_of var j o))
  /\ frame lvl s s1 /\ advance s1 = advance s /\ curVal s1 = curVal s.
Proof.
  intros Hv Hlc Hlp.
  destruct var; cbn in *.
  - split; [done |]. split; [by apply list_lookup_insert_eq |].
    split; [| done].
    repeat split; cbn; try done; [by rewrite length_insert |].
    intros i Hi. apply list_lookup_insert_ne. lia.
  - split; [by apply list_lookup_insert_eq |]. split; [done |].
    split; [| done].
    repeat split; cbn; try done; [by rewrite length_insert |].
    intros i Hi. apply list_lookup_insert_ne. lia.
Qed.

Lemma stepped_spec var lvl j s :
  (lvl < length (vec_of var s))%nat ->
  let s1 := stepped var lvl j s in
  vec_of var s1 !! lvl = Some j
  /\ frame lvl s s1 /\ advance s1 = advance s /\ curVal s1 = curVal s.
Proof.
  intros Hl.
  destruct var; cbn in *.
  - split; [by apply list_lookup_insert_eq |]. split; [| done].
    repeat split; cbn; try done; [by rewrite length_insert |].
    intros i Hi. apply list_lookup_insert_ne. lia.
  - split; [by apply list_lookup_insert_eq |]. split; [| done].
    repeat split; cbn; try done; [by rewrite length_insert |].
    intros i Hi. apply list_lookup_insert_ne. lia.
Qed.

Lemma frame_lengths lvl s s' :
  frame lvl s s' ->
  length (coord s') = length (coord s) /\ length (ptrs s') = length (ptrs s).
Proof. intros (_ & _ & A & B & _). done. Qed.

Lemma frame_vec var lvl s s' i :
  frame lvl s s' -> (i < lvl)%nat -> vec_of var s' !! i = vec_of var s !! i.
Proof. intros (_ & _ & _ & _ & A & B) Hi. destruct var; cbn; auto. Qed.

Lemma at_path_cons lvl s x y :
  coord s !! lvl = Some (fst x) -> ptrs s !! lvl = Some (snd x) ->
  at_path (S lvl) s y -> at_path lvl s (x :: y).
Proof.
  intros Hc Hp [Hy1 Hy2]. split; cbn.
  - rewrite (drop_S _ _ _ Hc). by rewrite Hy1.
  - rewrite (drop_S _ _ _ Hp). by rewrite Hy2.
Qed.

Lemma at_path_inv lvl s x y :
  at_path lvl s (x :: y) ->
  coord s !! lvl = Some (fst x) /\ ptrs s !! lvl = Some (snd x) /\ at_path (S lvl) s y.
Proof.
  intros [Hc Hp]. cbn in Hc, Hp.
  assert (Hc0 : drop lvl (coord s) !! 0%nat = Some (fst x)) by (by rewrite Hc).
  assert (Hp0 : drop lvl (ptrs s) !! 0%nat = Some (snd x)) by (by rewrite Hp).
  rewrite lookup_drop, Nat.add_0_r in Hc0, Hp0.
  split; [done |]. split; [done |].
  split.
  - rewrite (drop_S _ _ _ Hc0) in Hc. by inversion Hc.
  - rewrite (drop_S _ _ _ Hp0) in Hp. by inversion Hp.
Qed.

Lemma loop_fresh lvl L ls' q cnt' other rec :
  loop_ctx t lvl L q cnt' other -> rec_ok t (S lvl) ls' cnt' rec ->
  forall n j s fuel,
    Z.to_nat (hi_of L q - j) = n -> lo_of L q <= j -> (n < fuel)%nat ->
    vec_of (var_of L) s !! lvl = Some j -> advance s = false ->
    length (coord s) = getOrder t -> length (ptrs s) = getOrder t ->
    outcome t lvl (L :: ls') q s
      (flat_map (segment L ls' q) (seqZ j (hi_of L q - j)))
      (level_loop stray (var_of L) (hi_of L q) other rec lvl fuel false s).
Proof.
  intros Hctx Hrec.
  pose proof (ctx_lvl _ _ _ _ _ _ Hctx) as Hlvl.
  induction n as [| n IH]; intros j s fuel Hn Hlo Hfuel Hvar Hadv Hlc Hlp;
    (destruct fuel as [| fuel]; [lia |]); cbn [level_loop].
  - (* the range is exhausted *)
    erewrite bind_run by (eapply test_leaves; [exact Hvar | lia]).
    rewrite seqZ_done by lia. cbn [flat_map].
    eexists. split; [reflexivity |].
    split; [repeat split; done |]. done.
  - (* a candidate [j] *)
    assert (Hj : j < hi_of L q) by lia.
    erewrite bind_run by (eapply test_enters; [exact Hvar | exact Hj]).
    destruct (entered_spec (var_of L) lvl j (other j) s Hvar) as (Hc1 & Hp1 & Hf1 & Ha1 & Hv1);
      [lia | lia |].
    rewrite <- (ctx_other _ _ _ _ _ _ Hctx j) in Hc1, Hp1 by lia.
    set (s1 := entered (var_of L) lvl (other j) s) in *.
    set (x := elem_of_level L q j) in *.
    destruct (frame_lengths _ _ _ Hf1) as [Hlc1 Hlp1].
    destruct (Hrec (snd x) s1) as [Hfresh _].
    { apply (ctx_child _ _ _ _ _ _ Hctx). lia. }
    { exact Hp1. }
    { congruence. }
    { congruence. }
    specialize (Hfresh ltac:(congruence)).
    destruct Hfresh as (s2 & Hrun & Hf2 & Hout).
    erewrite bind_run by exact Hrun.
    rewrite (seqZ_step j) by exact Hj. cbn [flat_map].
    unfold segment at 1. fold x.
    destruct (walk ls' (snd x)) as [| z zs].
    + (* nothing below [j]: on to [j + 1] *)
      destruct Hout as [Ha2 Hv2]. cbn [map app].
      destruct (frame_lengths _ _ _ Hf2) as [Hlc2 Hlp2].
      assert (Hvar2 : vec_of (var_of L) s2 !! lvl = Some j).
      { destruct L; cbn in *.
        - destruct Hf2 as (_ & _ & _ & _ & A & _). rewrite A by lia.
          subst x. cbn in Hc1. exact Hc1.
        - destruct Hf2 as (_ & _ & _ & _ & _ & A). rewrite A by lia.
          subst x. cbn in Hp1. exact Hp1. }
      erewrite bind_run by (apply incr_nat; exact Hvar2).
      pose proof (ctx_hi _ _ _ _ _ _ Hctx) as Hhi.
      pose proof (ctx_lo _ _ _ _ _ _ Hctx) as Hlo0.
      rewrite wrap64_small by lia.
      fold (stepped (var_of L) lvl (j + 1) s2).
      destruct (stepped_spec (var_of L) lvl (j + 1) s2) as (Hv3 & Hf3 & Ha3 & Hc3).
      { destruct L; cbn; lia. }
      destruct (frame_lengths _ _ _ Hf3) as [Hlc3 Hlp3].
      eapply outcome_frame; cycle 2.
      { apply (IH (j + 1)); try done; try lia; congruence. }
      * eapply frame_trans; [exact Hf1 |].
        eapply frame_trans; [eapply frame_weaken; [| exact Hf2]; lia | exact Hf3].
      * congruence.
    + (* the first leaf below [j] *)
      destruct Hout as (Ha2 & Hat2 & Hval2 & Hrest2 & Hcur2).
      cbn [map app].
      exists s2. split; [reflexivity |].
      split.
      { eapply frame_trans; [exact Hf1 |]. eapply frame_weaken; [| exact Hf2]. lia. }
      split; [exact Ha2 |].
      destruct Hf2 as (_ & _ & _ & _ & A & B).
      split.
      { apply at_path_cons; [| | exact Hat2].
        - rewrite A by lia. exact Hc1.
        - rewrite B by lia. exact Hp1. }
      assert (Hkey : key_of L x = j) by (subst x; destruct L; done).
      split.
      { cbn [valid]. rewrite Hkey. split; [lia |]. split; [done | exact Hval2]. }
      split.
      { cbn [rest]. rewrite Hkey, Hrest2. done. }
      rewrite Hcur2. by rewrite Hv1.
Qed.

Lemma loop_resume lvl L ls' q cnt' other rec :
  loop_ctx t lvl L q cnt' other -> rec_ok t (S lvl) ls' cnt' rec ->
  forall s x y fuel,
    at_path lvl s (x :: y) -> valid (L :: ls') q (x :: y) ->
    advance s = true ->
    length (coord s) = getOrder t -> length (ptrs s) = getOrder t ->
    (Z.to_nat (hi_of L q - key_of L x) < fuel)%nat ->
    outcome t lvl (L :: ls') q s (rest (L :: ls') q (x :: y))
      (level_loop stray (var_of L) (hi_of L q) other rec lvl fuel true s).
Proof.
  intros Hctx Hrec s x y fuel Hat Hval Hadv Hlc Hlp Hfuel.
  pose proof (ctx_lvl _ _ _ _ _ _ Hctx) as Hlvl.
  destruct fuel as [| fuel]; [lia |]. cbn [level_loop].
  erewrite bind_run by reflexivity.
  destruct (at_path_inv _ _ _ _ Hat) as (Hc & Hp & Hat').
  cbn [valid] in Hval. destruct Hval as (Hrange & Hx & Hval').
  destruct (Hrec (snd x) s) as [_ Hres]; try done.
  { rewrite Hx. apply (ctx_child _ _ _ _ _ _ Hctx). exact Hrange. }
  specialize (Hres Hadv y Hat' Hval').
  destruct Hres as (s2 & Hrun & Hf2 & Hout).
  erewrite bind_run by exact Hrun.
  cbn [rest].
  destruct (rest ls' (snd x) y) as [| z zs].
  - (* nothing left below [x]: on to the next candidate *)
    destruct Hout as [Ha2 Hv2]. cbn [map app].
    destruct (frame_lengths _ _ _ Hf2) as [Hlc2 Hlp2].
    assert (Hvar2 : vec_of (var_of L) s2 !! lvl = Some (key_of L x)).
    { destruct Hf2 as (_ & _ & _ & _ & A & B).
      destruct L; cbn; [rewrite A by lia | rewrite B by lia]; done. }
    erewrite bind_run by (apply incr_nat; exact Hvar2).
    pose proof (ctx_hi _ _ _ _ _ _ Hctx) as Hhi.
    pose proof (ctx_lo _ _ _ _ _ _ Hctx) as Hlo0.
    rewrite wrap64_small by lia.
    fold (stepped (var_of L) lvl (key_of L x + 1) s2).
    destruct (stepped_spec (var_of L) lvl (key_of L x + 1) s2) as (Hv3 & Hf3 & Ha3 & Hc3).
    { destruct L; cbn; lia. }
    destruct (frame_lengths _ _ _ Hf3) as [Hlc3 Hlp3].
    eapply outcome_frame; cycle 2.
    { eapply (loop_fresh lvl L ls' q cnt' other rec Hctx Hrec _ (key_of L x + 1));
        try done; try lia; congruence. }
    + eapply frame_trans; [eapply frame_weaken; [| exact Hf2]; lia | exact Hf3].
    + congruence.
  - (* the next leaf below [x] *)
    destruct Hout as (Ha2 & Hat2 & Hval2 & Hrest2 & Hcur2).
    cbn [map app].
    exists s2. split; [reflexivity |].
    split; [eapply frame_weaken; [| exact Hf2]; lia |].
    split; [exact Ha2 |].
    destruct Hf2 as (_ & _ & _ & _ & A & B).
    split.
    { apply at_path_cons; [| | exact Hat2].
      - rewrite A by lia. exact Hc.
      - rewrite B by lia. exact Hp. }
    split.
    { cbn [valid]. done. }
    split.
    { cbn [rest]. by rewrite Hrest2. }
    exact Hcur2.
Qed.

(** *** Reading the levels of a packed tensor *)

Lemma levels_of_lookup mts ms : forall Ls lvl L,
  levels_of mts ms = Some Ls -> Ls !! lvl = Some L ->
  exists mt m, mts !! lvl = Some mt /\ ms !! lvl = Some m /\ level_of mt m = Some L.
Proof.
  revert ms. induction mts as [| mt mts IH]; intros [| m ms] Ls lvl L Hl HL;
    cbn in Hl; try discriminate Hl.
  - inversion Hl; subst. by rewrite lookup_nil in HL.
  - destruct (level_of mt m) as [l |] eqn:El; [| discriminate Hl].
    destruct (levels_of mts ms) as [ls |] eqn:Els; [| discriminate Hl].
    inversion Hl; subst Ls.
    destruct lvl as [| lvl]; cbn in HL.
    + inversion HL; subst. exists mt, m. done.
    + destruct (IH _ _ _ _ Els HL) as (mt' & m' & A & B & C).
      exists mt', m'. done.
Qed.

Lemma level_dense_inv mt m e :
  level_of mt m = Some (DenseLevel e) ->
  mt = Dense /\ exists a0, getIndexArray m 0 = inr a0 /\ Array_get a0 0 = e.
Proof.
  unfold level_of, getIndexArray.
  destruct mt, (indexArrays m) as [| a0 [| a1 r]]; cbn; intros H;
    try discriminate H; inversion H; subst; eauto.
Qed.

Lemma level_sparse_inv mt m pos idx :
  level_of mt m = Some (CompressedLevel pos idx) ->
  mt = Sparse /\ exists pa ia,
    getIndexArray m 0 = inr pa /\ getIndexArray m 1 = inr ia
    /\ elems pa = pos /\ elems ia = idx.
Proof.
  unfold level_of, getIndexArray.
  destruct mt, (indexArrays m) as [| a0 [| a1 r]]; cbn; intros H;
    try discriminate H; inversion H; subst; eauto 10.
Qed.

Lemma nondecreasing_step (l : list Z) : forall i x y,
  nondecreasing l = true -> l !! i = Some x -> l !! S i = Some y -> x <= y.
Proof.
  induction l as [| a l IH]; intros i x y Hn Hx Hy; [by rewrite lookup_nil in Hx |].
  destruct l as [| b l]; [by rewrite lookup_cons, lookup_nil in Hy |].
  cbn [nondecreasing] in Hn. apply andb_prop in Hn as [Hab Hn].
  destruct i as [| i].
  - cbn in Hx, Hy. inversion Hx; inversion Hy; subst. by apply Z.leb_le.
  - eapply IH; [exact Hn | exact Hx | exact Hy].
Qed.

Lemma nondecreasing_lookup (l : list Z) : forall d i x y,
  nondecreasing l = true -> l !! i = Some x -> l !! (i + d)%nat = Some y -> x <= y.
Proof.
  induction d as [| d IH]; intros i x y Hn Hx Hy.
  - rewrite Nat.add_0_r in Hy. rewrite Hx in Hy. inversion Hy. lia.
  - destruct (lookup_lt_is_Some_2 l (i + d)) as [z Hz].
    { apply lookup_lt_Some in Hy. lia. }
    transitivity z.
    + eapply IH; [exact Hn | exact Hx | exact Hz].
    + eapply nondecreasing_step; [exact Hn | exact Hz |].
      by rewrite <- Nat.add_succ_r.
Qed.

Lemma at_lookup (l : list Z) (i : Z) :
  0 <= i < Z.of_nat (length l) -> l !! Z.to_nat i = Some (at_ l i).
Proof.
  intros H. destruct (zlookup_in_range l i H) as (x & Hz & Hl).
  unfold at_. rewrite Hz. exact Hl.
Qed.

Lemma nondecreasing_at (l : list Z) (i j : Z) :
  nondecreasing l = true -> 0 <= i <= j -> j < Z.of_nat (length l) ->
  at_ l i <= at_ l j.
Proof.
  intros Hn Hij Hj.
  eapply (nondecreasing_lookup l (Z.to_nat (j - i)) (Z.to_nat i)); [exact Hn | |].
  - apply at_lookup. lia.
  - replace (Z.to_nat i + Z.to_nat (j - i))%nat with (Z.to_nat j) by lia.
    apply at_lookup. lia.
Qed.

Lemma at_in_size_t (l : list Z) (i : Z) :
  forallb in_size_t l = true -> 0 <= at_ l i < 2 ^ 64.
Proof.
  intros Hall. unfold at_.
  destruct (zlookup l i) as [x |] eqn:E; cbn; [| lia].
  apply zlookup_Some in E as [_ E].
  rewrite forallb_forall in Hall.
  specialize (Hall x). unfold in_size_t in Hall.
  assert (Hin : In x l) by (apply list_elem_of_In, list_elem_of_lookup; eauto).
  apply Hall in Hin. apply andb_prop in Hin as [A B].
  apply Z.leb_le in A. apply Z.ltb_lt in B. lia.
Qed.

Lemma wf_dense e ls n :
  wf_levels (DenseLevel e :: ls) n = true ->
  0 <= e < 2 ^ 64 /\ n * e < 2 ^ 64 /\ wf_levels ls (n * e) = true.
Proof.
  cbn [wf_levels]. unfold in_size_t. intros H.
  repeat (apply andb_prop in H as [H ?]).
  repeat match goal with
         | H : (_ <=? _) = true |- _ => apply Z.leb_le in H
         | H : (_ <? _) = true |- _ => apply Z.ltb_lt in H
         end.
  done.
Qed.

Lemma wf_sparse pos idx ls n :
  wf_levels (CompressedLevel pos idx :: ls) n = true ->
  Z.of_nat (length pos) = n + 1 /\ nondecreasing pos = true
  /\ at_ pos 0 = 0 /\ at_ pos n < 2 ^ 64
  /\ Z.of_nat (length idx) = at_ pos n /\ forallb in_size_t idx = true
  /\ wf_levels ls (at_ pos n) = true.
Proof.
  cbn [wf_levels]. intros H.
  repeat (apply andb_prop in H as [H ?]).
  repeat match goal with
         | H : (_ =? _) = true |- _ => apply Z.eqb_eq in H
         | H : (_ <? _) = true |- _ => apply Z.ltb_lt in H
         end.
  done.
Qed.

Lemma sparse_range pos idx ls n q :
  wf_levels (CompressedLevel pos idx :: ls) n = true -> 0 <= q < n ->
  0 <= at_ pos q /\ at_ pos q <= at_ pos (q + 1) /\ at_ pos (q + 1) <= at_ pos n.
Proof.
  intros Hwf Hq. apply wf_sparse in Hwf as (Hlen & Hnd & H0 & Hn & _).
  split; [| split].
  - rewrite <- H0. apply nondecreasing_at; [done | lia | lia].
  - apply nondecreasing_at; [done | lia | lia].
  - apply nondecreasing_at; [done | lia | lia].
Qed.

(** *** All levels *)

Lemma parent_read lvl s q (e : Z) :
  parent lvl s q -> Z.of_nat lvl < 2 ^ 64 ->
  (if decide (lvl = 0%nat) then 0
   else wrap64 (match zlookup (ptrs s) (wrap64 (Z.of_nat lvl - 1)) with
                | Some x => x
                | None => stray (wrap64 (Z.of_nat lvl - 1))
                end * e))
  = wrap64 (q * e).
Proof.
  intros Hpar Hlt. destruct lvl as [| l]; cbn [parent] in Hpar.
  - subst q. done.
  - rewrite decide_False by done.
    replace (Z.of_nat (S l) - 1) with (Z.of_nat l) by lia.
    rewrite (wrap64_small (Z.of_nat l)) by lia. by rewrite zlookup_nat, Hpar.
Qed.

Lemma parent_read_k lvl s q :
  parent lvl s q -> Z.of_nat lvl < 2 ^ 64 ->
  exists s1,
    (if decide (lvl = 0%nat) then ret 0
     else read stray Ptrs (wrap64 (Z.of_nat lvl - 1))) s = (inr q, s1)
    /\ frame lvl s s1 /\ coord s1 = coord s /\ ptrs s1 = ptrs s
    /\ advance s1 = advance s /\ curVal s1 = curVal s.
Proof.
  intros Hpar Hlt. destruct lvl as [| l]; cbn [parent] in Hpar.
  - subst q. exists s. split; [done |]. split; [apply frame_refl | done].
  - rewrite decide_False by done.
    replace (Z.of_nat (S l) - 1) with (Z.of_nat l) by lia.
    rewrite (wrap64_small (Z.of_nat l)) by lia.
    eexists. split; [by apply (read_nat Ptrs) |].
    split; [repeat split; done | done].
Qed.

Lemma advance_levels Ls :
  levels t = Some Ls -> length Ls = getOrder t -> Z.of_nat (getOrder t) < 2 ^ 64 ->
  forall ls lvl cnt fuel,
    drop lvl Ls = ls -> (lvl + length ls = getOrder t)%nat ->
    wf_levels ls cnt = true -> cnt < 2 ^ 64 -> (length ls <= fuel)%nat ->
    rec_ok t lvl ls cnt (advanceIndex stray t fuel lvl).
Proof.
  intros HLs HlenLs Hord.
  induction ls as [| L ls' IH]; intros lvl cnt fuel Hdrop Hlen Hwf Hcnt Hfuel
    q s Hq Hpar Hlc Hlp.
  - (* the leaf *)
    cbn [length] in Hlen. rewrite Nat.add_0_r in Hlen.
    assert (Hrun : advanceIndex stray t fuel lvl s
                   = leaf stray t lvl (log (Visit lvl) s)).
    { destruct fuel; cbn [advanceIndex]; (erewrite bind_run by reflexivity);
        by rewrite decide_True. }
    rewrite Hrun. split.
    + intros Hadv. eapply outcome_frame; cycle 2.
      { apply leaf_fresh; done. }
      * repeat split; done.
      * done.
    + intros Hadv y Hat Hval.
      destruct y; [| done]. cbn [rest].
      eapply outcome_frame; cycle 2.
      { by apply leaf_resume. }
      * repeat split; done.
      * done.
  - (* a level with children *)
    cbn [length] in Hlen, Hfuel.
    destruct fuel as [| fuel]; [lia |].
    assert (HL : Ls !! lvl = Some L).
    { rewrite <- (Nat.add_0_r lvl), <- lookup_drop, Hdrop. done. }
    assert (Hdrop' : drop (S lvl) Ls = ls').
    { rewrite (drop_S _ _ _ HL) in Hdrop. by inversion Hdrop. }
    destruct (levels_of_lookup _ _ _ _ _ HLs HL) as (mt & m & Hmt & Hm & Hlev).
    assert (Hlvl : (lvl < getOrder t)%nat) by lia.
    cbn [advanceIndex].
    erewrite bind_run by reflexivity.
    rewrite decide_False by lia.
    unfold modeIndex_at. rewrite Hmt, Hm. cbn [default from_option id].
    set (s0 := log (Visit lvl) s).
    assert (Hf0 : frame lvl s s0) by (repeat split; done).
    assert (Hpar0 : parent lvl s0 q) by (destruct lvl; done).
    destruct L as [e | pos idx].
    + (* Dense *)
      apply level_dense_inv in Hlev as (-> & a0 & Ha0 & He).
      apply wf_dense in Hwf as (Hext & Hne & Hwf').
      rewrite Ha0. erewrite bind_run by reflexivity. rewrite He.
      rewrite (getAsIndex_small e) by exact Hext.
      erewrite bind_run by apply read_run.
      cbn zeta. cbn [vec_of].
      rewrite (parent_read lvl s0 q e Hpar0) by lia.
      assert (Hqe : 0 <= q * e < 2 ^ 64) by nia.
      rewrite (wrap64_small (q * e)) by exact Hqe.
      erewrite bind_run by reflexivity.
      set (s1 := log (Access Ptrs (wrap64 (Z.of_nat lvl - 1))) s0).
      assert (Hctx : loop_ctx t lvl (DenseLevel e) q (cnt * e)
                       (fun c => wrap64 (q * e + c))).
      { constructor; cbn; try lia.
        - intros j Hj. rewrite wrap64_small by nia. done.
        - intros j Hj. nia. }
      assert (Hrec : rec_ok t (S lvl) ls' (cnt * e) (advanceIndex stray t fuel (S lvl))).
      { apply IH; try done; lia. }
      change (advance s1) with (advance s).
      split.
      * intros Hadv. rewrite Hadv.
        erewrite bind_run by apply write_nat.
        rewrite dense_loop_level.
        fold (stepped Coord lvl 0 s1).
        destruct (stepped_spec Coord lvl 0 s1) as (Hv3 & Hf3 & Ha3 & Hc3).
        { cbn. lia. }
        rewrite walk_cons.
        eapply outcome_frame; cycle 2.
        { destruct (frame_lengths _ _ _ Hf3).
          eapply (loop_fresh lvl (DenseLevel e) ls' q (cnt * e) _ _ Hctx Hrec
                    _ 0); try done; cbn in *; try lia; congruence. }
        -- eapply frame_trans; [| exact Hf3]. repeat split; done.
        -- done.
      * intros Hadv y Hat Hval. rewrite Hadv.
        rewrite dense_loop_level.
        destruct y as [| x y]; [done |].
        eapply outcome_frame; cycle 2.
        { eapply (loop_resume lvl (DenseLevel e) ls' q (cnt * e) _ _ Hctx Hrec);
            try done; cbn [valid] in Hval; cbn in *; lia. }
        -- repeat split; done.
        -- done.
    + (* Compressed *)
      apply level_sparse_inv in Hlev as (-> & pa & ia & Hpa & Hia & Epos & Eidx).
      subst pos idx.
      set (pos := elems pa) in *. set (idx := elems ia) in *.
      pose proof (sparse_range _ _ _ _ _ Hwf Hq) as (Hlo0 & Hlohi & Hhin).
      apply wf_sparse in Hwf as (Hlenp & Hnd & Hp0 & Hpn & Hleni & Hall & Hwf').
      rewrite Hpa. erewrite bind_run by reflexivity.
      rewrite Hia. erewrite bind_run by reflexivity.
      destruct (parent_read_k lvl s0 q Hpar0) as (s1 & Hk & Hf1 & Ec1 & Ep1 & Ea1 & Ev1);
        [lia |].
      erewrite bind_run by exact Hk.
      cbn zeta.
      erewrite bind_run by reflexivity.
      assert (Hhi : getAsIndex (Array_get pa (wrap64 (getAsIndex q + 1)))
                    = at_ pos (q + 1)).
      { rewrite (getAsIndex_small q) by lia.
        rewrite (wrap64_small (q + 1)) by lia.
        change (Array_get pa (q + 1)) with (at_ pos (q + 1)).
        apply getAsIndex_small. lia. }
      assert (Hlo : getAsIndex (Array_get pa (getAsIndex q)) = at_ pos q).
      { rewrite (getAsIndex_small q) by lia.
        change (Array_get pa q) with (at_ pos q).
        apply getAsIndex_small. lia. }
      rewrite Hhi, Hlo.
      assert (Hctx : loop_ctx t lvl (CompressedLevel pos idx) q (at_ pos cnt)
                       (fun p => getAsIndex (Array_get ia (getAsIndex p)))).
      { constructor; cbn; try lia.
        intros j Hj. rewrite (getAsIndex_small j) by lia.
        change (Array_get ia j) with (at_ idx j).
        rewrite getAsIndex_small by (by apply at_in_size_t). done. }
      assert (Hrec : rec_ok t (S lvl) ls' (at_ pos cnt) (advanceIndex stray t fuel (S lvl))).
      { apply IH; try done; lia. }
      rewrite Ea1. change (advance s0) with (advance s).
      destruct (frame_lengths _ _ _ Hf1) as [Hlc1 Hlp1].
      split.
      * intros Hadv. rewrite Hadv.
        erewrite bind_run by apply write_nat.
        rewrite sparse_loop_level, Hhi.
        fold (stepped Ptrs lvl (at_ pos q) s1).
        destruct (stepped_spec Ptrs lvl (at_ pos q) s1) as (Hv3 & Hf3 & Ha3 & Hc3).
        { cbn. cbn in Hlp1. lia. }
        rewrite walk_cons.
        eapply outcome_frame; cycle 2.
        { destruct (frame_lengths _ _ _ Hf3).
          eapply (loop_fresh lvl (CompressedLevel pos idx) ls' q (at_ pos cnt) _ _
                    Hctx Hrec _ (at_ pos q)); try done; cbn in *; try lia; congruence. }
        -- eapply frame_trans; [| exact Hf3]. eapply frame_trans; [exact Hf0 | exact Hf1].
        -- cbn in *. congruence.
      * intros Hadv y Hat Hval. rewrite Hadv.
        rewrite sparse_loop_level, Hhi.
        destruct y as [| x y]; [done |].
        eapply outcome_frame; cycle 2.
        { eapply (loop_resume lvl (CompressedLevel pos idx) ls' q (at_ pos cnt) _ _
                    Hctx Hrec s1); try done.
          - unfold at_path. rewrite Ec1, Ep1. exact Hat.
          - rewrite Ea1. exact Hadv.
          - rewrite Ec1. exact Hlc.
          - rewrite Ep1. exact Hlp.
          - cbn [valid] in Hval. cbn in *. lia. }
        -- eapply frame_trans; [exact Hf0 | exact Hf1].
        -- cbn in *. congruence.
Qed.

(** *** Leaves of a packed index stay within [size_t] *)

Lemma valid_bounds : forall ls n q y,
  wf_levels ls n = true -> 0 <= q < n -> valid ls q y ->
  Forall (fun x => (0 <= fst x < 2 ^ 64) /\ (0 <= snd x < 2 ^ 64)) y.
Proof.
  induction ls as [| L ls IH]; intros n q y Hwf Hq Hval.
  - destruct y; [constructor | done].
  - destruct y as [| x y]; [done |].
    cbn [valid] in Hval. destruct Hval as (Hr & Hx & Hval).
    destruct L as [e | pos idx].
    + apply wf_dense in Hwf as (He & Hne & Hwf).
      cbn in Hr, Hx. rewrite Hx in *. cbn in *.
      constructor; [cbn; nia |].
      eapply (IH (n * e)); [exact Hwf | | exact Hval]. nia.
    + pose proof (sparse_range _ _ _ _ _ Hwf Hq) as (Hlo0 & Hlohi & Hhin).
      apply wf_sparse in Hwf as (Hlenp & Hnd & Hp0 & Hpn & Hleni & Hall & Hwf).
      cbn in Hr, Hx. rewrite Hx in *. cbn in *.
      constructor.
      * cbn. split; [by apply at_in_size_t | lia].
      * eapply (IH (at_ pos n)); [exact Hwf | | exact Hval]. lia.
Qed.

Lemma valid_length : forall ls q y, valid ls q y -> length y = length ls.
Proof.
  induction ls as [| L ls IH]; intros q [| x y] Hval; try done.
  cbn [valid] in Hval. destruct Hval as (_ & _ & Hval).
  cbn. f_equal. eapply IH. exact Hval.
Qed.

(** *** The copy of the coordinates into dimension order *)

Lemma foldl_ext_in {A B} (F G : A -> B -> A) (l : list B) : forall acc,
  (forall x a, x ∈ l -> F a x = G a x) -> foldl F acc l = foldl G acc l.
Proof.
  induction l as [| x l IH]; intros acc H; [done |]. cbn.
  rewrite H by left. apply IH. intros y a Hy. apply H. by right.
Qed.

Lemma updates_other (f : nat -> nat) (g : nat -> Z) (l : list nat) : forall (first : list Z) (m : nat),
  m ∉ (f <$> l) ->
  foldl (fun acc i => <[f i := g i]> acc) first l !! m = first !! m.
Proof.
  induction l as [| i l IH]; intros first m Hm; [done |]. cbn.
  rewrite fmap_cons in Hm. apply not_elem_of_cons in Hm as [Hne Hm].
  rewrite IH by exact Hm. by apply list_lookup_insert_ne.
Qed.

Lemma updates_lookup (f : nat -> nat) (g : nat -> Z) (l : list nat) : forall (first : list Z) (i : nat),
  NoDup (f <$> l) -> i ∈ l -> (f i < length first)%nat ->
  foldl (fun acc i => <[f i := g i]> acc) first l !! f i = Some (g i).
Proof.
  induction l as [| j l IH]; intros first i Hnd Hi Hlen.
  - by apply elem_of_nil in Hi.
  - rewrite fmap_cons in Hnd. apply NoDup_cons in Hnd as [Hj Hnd]. cbn.
    destruct (decide (f i = f j)) as [Heq | Hne].
    + assert (Hg : foldl (fun acc i0 => <[f i0 := g i0]> acc) (<[f j := g j]> first) l !! f i
                   = Some (g j)).
      { rewrite Heq. rewrite updates_other by exact Hj.
        apply list_lookup_insert_eq. lia. }
      apply elem_of_cons in Hi as [-> | Hi]; [exact Hg |].
      exfalso. apply Hj. rewrite <- Heq. apply list_elem_of_fmap. eauto.
    + apply elem_of_cons in Hi as [-> | Hi]; [done |].
      apply IH; [exact Hnd | exact Hi | by rewrite length_insert].
Qed.

Lemma updates_length (f : nat -> nat) (g : nat -> Z) (l : list nat) : forall (first : list Z),
  length (foldl (fun acc i => <[f i := g i]> acc) first l) = length first.
Proof.
  induction l as [| j l IH]; intros first; [done |]. cbn.
  by rewrite IH, length_insert.
Qed.

Lemma level_storing_lookup (ordering : list Z) (d : Z) :
  d ∈ ordering -> ordering !! level_storing ordering d = Some d.
Proof.
  induction ordering as [| m rest IH]; intros Hd; [by apply elem_of_nil in Hd |].
  cbn [level_storing].
  destruct (Z.eqb_spec m d) as [-> | Hne]; [done |].
  apply elem_of_cons in Hd as [-> | Hd]; [done |]. cbn. by apply IH.
Qed.

Lemma ordering_facts (ordering : list Z) (n : nat) :
  is_ordering ordering n = true ->
  length ordering = n
  /\ (forall i m, ordering !! i = Some m -> 0 <= m < Z.of_nat n)
  /\ (forall d, (d < n)%nat -> Z.of_nat d ∈ ordering)
  /\ NoDup (Z.to_nat <$> ordering).
Proof.
  unfold is_ordering. intros H. apply bool_decide_eq_true in H.
  split; [| split; [| split]].
  - rewrite H, length_fmap. apply length_seq.
  - intros i m Hm.
    assert (Hin : m ∈ (Z.of_nat <$> seq 0 n)).
    { rewrite <- H. apply list_elem_of_lookup. eauto. }
    apply list_elem_of_fmap in Hin as (d & -> & Hd).
    apply elem_of_seq in Hd. lia.
  - intros d Hd. rewrite H. apply list_elem_of_fmap.
    exists d. split; [done |]. apply elem_of_seq. lia.
  - rewrite H. rewrite <- list_fmap_compose.
    apply NoDup_fmap_2_strong; [| apply NoDup_seq].
    intros x y _ _ Hxy. cbn in Hxy. lia.
Qed.

Lemma copy_back_permute (cs first : list Z) :
  is_ordering (getModeOrdering (getFormat t)) (getOrder t) = true ->
  Z.of_nat (getOrder t) < 2 ^ 64 ->
  length cs = getOrder t -> length first = getOrder t ->
  Forall (fun c => 0 <= c < 2 ^ 64) cs ->
  copy_back t cs first = permute_back (getModeOrdering (getFormat t)) cs.
Proof.
  intros Hord Hn Hcs Hfirst Hsz.
  destruct (ordering_facts _ _ Hord) as (Hlen & Hrange & Hall & Hnd).
  set (ordering := getModeOrdering (getFormat t)) in *.
  set (f := fun i : nat => Z.to_nat (default 0 (ordering !! i))).
  set (g := fun i : nat => default 0 (cs !! i)).
  assert (Hfold : copy_back t cs first
                  = foldl (fun acc i => <[f i := g i]> acc) first (seq 0 (getOrder t))).
  { unfold copy_back. apply foldl_ext_in. intros i a Hi.
    apply elem_of_seq in Hi.
    destruct (lookup_lt_is_Some_2 ordering i) as [m Hm]; [lia |].
    destruct (lookup_lt_is_Some_2 cs i) as [c Hc]; [lia |].
    unfold mode_at, f, g. fold ordering. rewrite Hm, Hc. cbn.
    pose proof (Hrange _ _ Hm) as Hmr.
    rewrite (getAsIndex_small m) by lia.
    rewrite (getAsIndex_small c)
      by (eapply (proj1 (Forall_lookup _ cs) Hsz); exact Hc).
    rewrite <- (Z2Nat.id m) at 1 by lia. apply zupdate_nat. }
  rewrite Hfold. unfold permute_back. rewrite Hcs.
  apply list_eq. intros d.
  destruct (decide (d < getOrder t)%nat) as [Hd | Hd].
  - rewrite list_lookup_fmap, lookup_seq_lt by lia. cbn.
    pose proof (level_storing_lookup ordering (Z.of_nat d) (Hall d Hd)) as Hi0.
    set (i0 := level_storing ordering (Z.of_nat d)) in *.
    assert (Hfi : f i0 = d) by (unfold f; rewrite Hi0; cbn; lia).
    rewrite <- Hfi at 1.
    apply updates_lookup.
    + assert (Hf : f <$> seq 0 (getOrder t) = Z.to_nat <$> ordering).
      { apply list_eq. intros i. rewrite !list_lookup_fmap.
        destruct (decide (i < getOrder t)%nat) as [Hi | Hi].
        - rewrite lookup_seq_lt by lia. cbn. unfold f.
          destruct (lookup_lt_is_Some_2 ordering i) as [m Hm]; [lia |].
          by rewrite Hm.
        - rewrite lookup_seq_ge by lia.
          rewrite (proj2 (lookup_ge_None ordering i)) by lia. done. }
      rewrite Hf. exact Hnd.
    + apply elem_of_seq. apply lookup_lt_Some in Hi0. lia.
    + lia.
  - rewrite (proj2 (lookup_ge_None _ d)) by (rewrite updates_length; lia).
    symmetry. apply lookup_ge_None. rewrite length_fmap, length_seq. lia.
Qed.

(** *** The sequence of calls *)

Lemma packed_inv :
  packed t = true ->
  exists Ls,
    levels t = Some Ls /\ length Ls = getOrder t
    /\ Z.of_nat (getOrder t) < 2 ^ 64
    /\ is_ordering (getModeOrdering (getFormat t)) (getOrder t) = true
    /\ wf_levels Ls 1 = true
    /\ getSize (getIndex (getStorage t)) = stored Ls 1
    /\ Z.of_nat (length (elems (getValues (getStorage t)))) = stored Ls 1.
Proof.
  unfold packed. destruct (levels t) as [Ls |]; [| discriminate].
  intros H. repeat (apply andb_prop in H as [H ?]).
  exists Ls.
  repeat match goal with
         | H : bool_decide _ = true |- _ => apply bool_decide_eq_true in H
         | H : (_ =? _) = true |- _ => apply Z.eqb_eq in H
         | H : (_ <? _) = true |- _ => apply Z.ltb_lt in H
         end.
  done.
Qed.

Lemma leaf_cur_produced Ls y cur :
  packed t = true -> levels t = Some Ls ->
  valid Ls 0 y -> length (fst cur) = getOrder t ->
  leaf_cur t cur (map fst y) (map snd y) = produced t y.
Proof.
  intros Hp HLs Hval Hcur.
  destruct (packed_inv Hp) as (Ls' & HLs' & HlenLs & Hord & Hperm & Hwf & Hsize & Hvals).
  rewrite HLs in HLs'. inversion HLs'; subst Ls'.
  pose proof (valid_bounds Ls 1 0 y Hwf ltac:(lia) Hval) as Hb.
  unfold leaf_cur, produced. f_equal.
  - apply copy_back_permute; try done.
    + rewrite length_map. rewrite (valid_length _ _ _ Hval). done.
    + apply Forall_fmap. eapply Forall_impl; [exact Hb |]. cbn. tauto.
  - unfold leaf_offset, Array_get, at_. f_equal. f_equal.
    apply getAsIndex_small.
    destruct (last (map snd y)) as [p |] eqn:El; cbn; [| lia].
    apply last_Some_elem_of in El.
    apply list_elem_of_fmap in El as (x & -> & Hx).
    rewrite Forall_forall in Hb. apply Hb in Hx. tauto.
Qed.

Lemma call_outcome Ls k s :
  packed t = true -> levels t = Some Ls ->
  rests t Ls (walk Ls 0) k s ->
  outcome t 0 Ls 0 s (drop k (walk Ls 0)) (advanceIndex stray t (getOrder t) 0 s).
Proof.
  intros Hp HLs (Hlc & Hlp & Hcur & Hk).
  destruct (packed_inv Hp) as (Ls' & HLs' & HlenLs & Hord & Hperm & Hwf & Hsize & Hvals).
  rewrite HLs in HLs'. inversion HLs'; subst Ls'.
  destruct (advance_levels Ls HLs HlenLs Hord Ls 0%nat 1 (getOrder t)) with (q' := 0) (s := s)
    as [Hfresh Hresume]; try done; try lia.
  destruct k as [| k].
  - rewrite drop_0. by apply Hfresh.
  - destruct Hk as (Hadv & y & Hy & Hat & Hval & Hrest & _).
    rewrite <- Hrest. by apply Hresume.
Qed.

Lemma calls_rest Ls tp isEnd :
  packed t = true -> levels t = Some Ls ->
  forall k, (k <= S (length (walk Ls 0)))%nat ->
  exists s,
    calls stray t k (init_fields t tp isEnd) = (inr tt, s)
    /\ tensor s = tp
    /\ count s = wrap64 (1 + Z.b2z isEnd * getSize (getIndex (getStorage t)) + Z.of_nat k)
    /\ ((k <= length (walk Ls 0))%nat -> rests t Ls (walk Ls 0) k s).
Proof.
  intros Hp HLs.
  induction k as [| k IH]; intros Hk.
  - exists (init_fields t tp isEnd). split; [done |]. split; [done |].
    split; [cbn; by rewrite Z.add_0_r |].
    intros _. repeat split; cbn; by rewrite length_replicate.
  - destruct IH as (s & Hrun & Hten & Hcount & Hrests); [lia |].
    specialize (Hrests ltac:(lia)).
    pose proof (call_outcome Ls k s Hp HLs Hrests) as (s' & Hcall & Hframe & Hout).
    cbn [calls]. rewrite Hrun. unfold advanceIndex0.
    erewrite bind_run by exact Hcall.
    eexists. split; [reflexivity |]. cbn.
    destruct Hframe as (Ht & Hc & Hlc & Hlp & _).
    destruct Hrests as (Hlc0 & Hlp0 & Hcur0 & _).
    split; [by rewrite Ht |].
    split.
    { rewrite Hc, Hcount. unfold wrap64. rewrite Zplus_mod_idemp_l.
      f_equal. lia. }
    intros Hk'.
    destruct (drop k (walk Ls 0)) as [| z zs] eqn:Ed.
    { apply (f_equal length) in Ed. rewrite length_drop in Ed. cbn in Ed. lia. }
    destruct Hout as (Hadv & Hat & Hval & Hrest & Hcv).
    assert (Hz : walk Ls 0 !! k = Some z).
    { rewrite <- (Nat.add_0_r k), <- lookup_drop, Ed. done. }
    assert (Hcoord : coord s' = map fst z) by (destruct Hat as [A _]; by rewrite drop_0 in A).
    assert (Hptrs : ptrs s' = map snd z) by (destruct Hat as [_ A]; by rewrite drop_0 in A).
    assert (Hprod : curVal s' = produced t z).
    { rewrite Hcv, Hcoord, Hptrs. by eapply leaf_cur_produced. }
    split; [cbn; by rewrite Hlc |]. split; [cbn; by rewrite Hlp |].
    split.
    { cbn. rewrite Hprod. unfold produced, permute_back. cbn.
      rewrite length_map, length_seq, <- Hcoord. by rewrite Hlc. }
    split; [exact Hadv |].
    exists z. split; [exact Hz |]. split; [exact Hat |]. split; [exact Hval |].
    split; [| exact Hprod].
    rewrite Hrest. rewrite (drop_S _ _ _ Hz) in Ed. by inversion Ed.
Qed.

(** *** Counting the leaves *)

Lemma total_app g l1 l2 : total g (l1 ++ l2) = (total g l1 + total g l2)%nat.
Proof. induction l1 as [| x l1 IH]; cbn; [done |]. rewrite IH. lia. Qed.

Lemma total_ext g h l : (forall x, x ∈ l -> g x = h x) -> total g l = total h l.
Proof.
  induction l as [| x l IH]; intros H; cbn; [done |].
  rewrite H by left. rewrite IH; [done |]. intros y Hy. apply H. by right.
Qed.

Lemma total_map g (h : Z -> Z) l : total g (map h l) = total (fun x => g (h x)) l.
Proof. induction l as [| x l IH]; cbn; [done |]. by rewrite IH. Qed.

Lemma total_flat_map g (h : Z -> list Z) l :
  total g (flat_map h l) = total (fun x => total g (h x)) l.
Proof.
  induction l as [| x l IH]; cbn; [done |]. by rewrite total_app, IH.
Qed.

Lemma length_flat_map_total {B} (f : Z -> list B) l :
  length (flat_map f l) = total (fun x => length (f x)) l.
Proof.
  induction l as [| x l IH]; cbn; [done |]. by rewrite length_app, IH.
Qed.

Lemma total_one l : total (fun _ => 1%nat) l = length l.
Proof. induction l as [| x l IH]; cbn; [done |]. by rewrite IH. Qed.

(** The positions of the children of the parents [0 .. n-1], in order,
    are the positions [0 .. n'-1] of the next level. *)
Lemma dense_children e : 0 <= e -> forall k : nat,
  flat_map (fun q => map (fun j => q * e + j) (seqZ 0 e)) (seqZ 0 (Z.of_nat k))
  = seqZ 0 (Z.of_nat k * e).
Proof.
  intros He. induction k as [| k IH].
  - change (Z.of_nat 0) with 0. rewrite Z.mul_0_l.
    by rewrite !(seqZ_nil 0 0) by lia.
  - rewrite seqZ_S, flat_map_app, IH. cbn [flat_map]. rewrite app_nil_r.
    change (map (fun j => (0 + Z.of_nat k) * e + j) (seqZ 0 e))
      with (Z.add ((0 + Z.of_nat k) * e) <$> seqZ 0 e).
    rewrite fmap_add_seqZ.
    replace (Z.of_nat (S k) * e) with (Z.of_nat k * e + e) by lia.
    rewrite seqZ_app by nia. f_equal. f_equal; lia.
Qed.

Lemma sparse_children pos : nondecreasing pos = true -> at_ pos 0 = 0 ->
  forall k : nat, Z.of_nat k < Z.of_nat (length pos) ->
  flat_map (fun q => map (fun j => j) (seqZ (at_ pos q) (at_ pos (q + 1) - at_ pos q)))
           (seqZ 0 (Z.of_nat k))
  = seqZ 0 (at_ pos (Z.of_nat k)).
Proof.
  intros Hnd H0. induction k as [| k IH]; intros Hk.
  - change (Z.of_nat 0) with 0. rewrite H0.
    by rewrite !(seqZ_nil 0 0) by lia.
  - rewrite seqZ_S, flat_map_app, IH by lia. cbn [flat_map].
    rewrite app_nil_r, map_id.
    assert (0 <= at_ pos (Z.of_nat k)).
    { rewrite <- H0. apply nondecreasing_at; [done | lia | lia]. }
    assert (at_ pos (Z.of_nat k) <= at_ pos (Z.of_nat k + 1)).
    { apply nondecreasing_at; [done | lia | lia]. }
    replace (0 + Z.of_nat k) with (Z.of_nat k) by lia.
    replace (Z.of_nat (S k)) with (Z.of_nat k + 1) by lia.
    rewrite <- seqZ_app by lia. f_equal. lia.
Qed.

Lemma length_all_walks : forall ls n,
  wf_levels ls n = true -> 0 <= n ->
  Z.of_nat (length (flat_map (walk ls) (seqZ 0 n))) = stored ls n.
Proof.
  induction ls as [| L ls IH]; intros n Hwf Hn.
  - cbn [walk stored]. rewrite length_flat_map_total. cbn [length].
    rewrite total_one, length_seqZ. lia.
  - rewrite length_flat_map_total.
    rewrite (total_ext _
      (fun q => total (fun p => length (walk ls p))
                  (map (fun j => snd (elem_of_level L q j))
                       (seqZ (lo_of L q) (hi_of L q - lo_of L q))))).
    2:{ intros q _. rewrite walk_cons, length_flat_map_total, total_map.
        apply total_ext. intros j _. unfold segment. by rewrite length_map. }
    rewrite <- total_flat_map, <- length_flat_map_total.
    destruct L as [e | pos idx]; cbn [lo_of hi_of elem_of_level snd stored].
    + apply wf_dense in Hwf as (He & Hne & Hwf).
      rewrite <- (Z2Nat.id n) at 1 by lia.
      rewrite (flat_map_ext _ (fun q => map (fun j => q * e + j) (seqZ 0 e)))
        by (intros q; by rewrite Z.sub_0_r).
      rewrite dense_children by lia. rewrite Z2Nat.id by lia.
      apply IH; [exact Hwf | nia].
    + pose proof Hwf as Hwf0.
      apply wf_sparse in Hwf as (Hlenp & Hnd & Hp0 & Hpn & Hleni & Hall & Hwf).
      rewrite <- (Z2Nat.id n) at 1 by lia.
      rewrite sparse_children by (try done; lia). rewrite Z2Nat.id by lia.
      apply IH; [exact Hwf |].
      rewrite <- Hp0. apply nondecreasing_at; [done | lia | lia].
Qed.

Lemma length_walk ls :
  wf_levels ls 1 = true -> Z.of_nat (length (walk ls 0)) = stored ls 1.
Proof.
  intros Hwf. rewrite <- (length_all_walks ls 1 Hwf) by lia.
  rewrite (seqZ_cons 0 1), seqZ_nil by lia. cbn [flat_map]. by rewrite app_nil_r.
Qed.

Lemma length_traversal :
  packed t = true ->
  Z.of_nat (length (traversal t)) = getSize (getIndex (getStorage t)).
Proof.
  intros Hp.
  destruct (packed_inv Hp) as (Ls & HLs & HlenLs & Hord & Hperm & Hwf & Hsize & Hvals).
  unfold traversal. rewrite HLs, length_map, Hsize. by apply length_walk.
Qed.

Lemma stored_bound : forall ls n,
  wf_levels ls n = true -> 0 <= n < 2 ^ 64 -> 0 <= stored ls n < 2 ^ 64.
Proof.
  induction ls as [| L ls IH]; intros n Hwf Hn; [done |].
  destruct L as [e | pos idx]; cbn [stored].
  - apply wf_dense in Hwf as (He & Hne & Hwf). apply IH; [done | nia].
  - apply wf_sparse in Hwf as (Hlenp & Hnd & Hp0 & Hpn & Hleni & Hall & Hwf).
    apply IH; [done |]. split; [| done].
    rewrite <- Hp0. apply nondecreasing_at; [done | lia | lia].
Qed.

Lemma wrap64_near a b :
  0 <= a <= b -> b < a + 2 ^ 64 -> wrap64 a = wrap64 b -> a = b.
Proof.
  unfold wrap64. intros Hab Hb H.
  change (2 ^ 64) with 18446744073709551616 in *.
  Z.div_mod_to_equations. lia.
Qed.

Lemma calls_S k s :
  calls stray t (S k) s
  = match calls stray t k s with
    | (inr _, s') => advanceIndex0 stray t s'
    | (inl e, s') => (inl e, s')
    end.
Proof. reflexivity. Qed.

(** The iterators a loop from [begin()] to [end()] goes through. *)
Lemma advanced_packed (tp : loc) :
  packed t = true ->
  exists e,
    end_ stray t tp = (inr tt, e)
    /\ forall k : nat, (k <= length (traversal t))%nat ->
       exists b,
         advanced stray t tp k = (inr tt, b)
         /\ iterator_eq b e = bool_decide (k = length (traversal t))
         /\ (forall x, traversal t !! k = Some x -> curVal b = x)
         /\ increment stray t b = advanced stray t tp (S k).
Proof.
  intros Hp.
  pose proof (length_traversal Hp) as Hlen.
  destruct (packed_inv Hp) as (Ls & HLs & HlenLs & Hord & Hperm & Hwf & Hsize & Hvals).
  pose proof (stored_bound Ls 1 Hwf ltac:(lia)) as Hb.
  assert (HlenW : Z.of_nat (length (walk Ls 0)) = getSize (getIndex (getStorage t))).
  { rewrite Hsize. by apply length_walk. }
  assert (HlenT : length (traversal t) = length (walk Ls 0)).
  { unfold traversal. by rewrite HLs, length_map. }
  destruct (calls_rest Ls tp true Hp HLs 1) as (e & He & Het & Hec & _); [lia |].
  exists e. split; [exact He |].
  intros k Hk.
  destruct (calls_rest Ls tp false Hp HLs (S k)) as (b & Hbrun & Hbt & Hbc & Hbr); [lia |].
  exists b. split; [exact Hbrun |].
  split.
  { unfold iterator_eq. rewrite Hbt, Het, Hbc, Hec.
    rewrite bool_decide_eq_true_2 by done. cbn [andb Z.b2z].
    apply bool_decide_ext.
    split.
    - intros H. apply wrap64_near in H; lia.
    - intros H. f_equal. lia. }
  split.
  { intros x Hx. unfold traversal in Hx. rewrite HLs, list_lookup_fmap in Hx.
    destruct (walk Ls 0 !! k) as [y |] eqn:Ey; [| discriminate Hx].
    inversion Hx; subst x.
    destruct Hbr as (_ & _ & _ & _ & y' & Hy' & _ & _ & _ & Hcv).
    { apply lookup_lt_Some in Ey. lia. }
    congruence. }
  unfold advanced, increment. by rewrite (calls_S (S k)), Hbrun.
Qed.

(** C1.  For a packed tensor, successive calls of [advanceIndex(0)]
    enumerate the leaves of the depth-first walk over the levels: call
    number [k] (the constructor makes call 0) returns [true] and leaves in
    [curVal] the pair number [k] of [traversal], that is the coordinates of
    leaf [k] of [walk] permuted back to dimension order together with the
    value stored at the leaf's last position; the call that follows the
    last leaf returns [false].  The walk ranges over [0, extent) with
    positions [parent * extent + c] at a Dense level, and over
    [pos[parent], pos[parent+1]) with coordinates [idx[p]] at a Compressed
    level. *)
Theorem advanceIndex_walks_depth_first (tp : loc) (isEnd : bool) (k : nat) :
  packed t = true ->
  (k <= length (traversal t))%nat ->
  exists s,
    calls stray t k (init_fields t tp isEnd) = (inr tt, s)
    /\ exists s',
         advanceIndex stray t (getOrder t) 0 s
         = (inr (bool_decide (k < length (traversal t))%nat), s')
         /\ forall x, traversal t !! k = Some x -> curVal s' = x.
Proof.
  intros Hp Hk.
  destruct (packed_inv Hp) as (Ls & HLs & HlenLs & Hord & Hperm & Hwf & Hsize & Hvals).
  unfold traversal in *. rewrite HLs in *. rewrite length_map in *.
  destruct (calls_rest Ls tp isEnd Hp HLs k) as (s & Hrun & Hten & Hcount & Hrests); [lia |].
  specialize (Hrests Hk).
  exists s. split; [exact Hrun |].
  pose proof (call_outcome Ls k s Hp HLs Hrests) as (s' & Hcall & Hframe & Hout).
  exists s'.
  destruct (drop k (walk Ls 0)) as [| z zs] eqn:Ed.
  - assert (Hlen : (length (walk Ls 0) <= k)%nat).
    { apply (f_equal length) in Ed. rewrite length_drop in Ed. cbn in Ed. lia. }
    rewrite bool_decide_eq_false_2 by lia.
    split; [exact Hcall |].
    intros x Hx. rewrite list_lookup_fmap in Hx.
    rewrite (proj2 (lookup_ge_None _ _)) in Hx by lia. discriminate Hx.
  - assert (Hz : walk Ls 0 !! k = Some z).
    { rewrite <- (Nat.add_0_r k), <- lookup_drop, Ed. done. }
    rewrite bool_decide_eq_true_2 by (apply lookup_lt_Some in Hz; lia).
    split; [exact Hcall |].
    intros x Hx. rewrite list_lookup_fmap, Hz in Hx. inversion Hx; subst x.
    destruct Hout as (Hadv & Hat & Hval & Hrest & Hcv).
    destruct Hat as [Hc1 Hp1]. rewrite drop_0 in Hc1, Hp1.
    rewrite Hcv, Hc1, Hp1.
    eapply leaf_cur_produced; try done.
    by destruct Hrests as (_ & _ & ? & _).
Qed.

(** C2.  For a packed tensor the sequence of produced pairs has
    [Index.getSize()] elements; [operator==] holds exactly when the two
    iterators hold the same tensor pointer and the same count, so it reads
    no storage; and [begin()] incremented [k <= getSize] times exists and
    equals [end()] exactly when [k] is [getSize]. *)
Theorem iterator_sequence_has_getSize_elements (tp : loc) :
  packed t = true ->
  Z.of_nat (length (traversal t)) = getSize (getIndex (getStorage t))
  /\ (forall a b, iterator_eq a b = true <-> tensor a = tensor b /\ count a = count b)
  /\ exists e,
       end_ stray t tp = (inr tt, e)
       /\ forall k : nat,
            Z.of_nat k <= getSize (getIndex (getStorage t)) ->
            exists b,
              advanced stray t tp k = (inr tt, b)
              /\ iterator_eq b e
                 = bool_decide (Z.of_nat k = getSize (getIndex (getStorage t))).
Proof.
  intros Hp.
  pose proof (length_traversal Hp) as Hlen.
  destruct (packed_inv Hp) as (Ls & HLs & HlenLs & Hord & Hperm & Hwf & Hsize & Hvals).
  pose proof (stored_bound Ls 1 Hwf ltac:(lia)) as Hb.
  assert (HlenW : Z.of_nat (length (walk Ls 0)) = getSize (getIndex (getStorage t))).
  { rewrite Hsize. by apply length_walk. }
  split; [exact Hlen |].
  split.
  { intros a b. unfold iterator_eq. rewrite andb_true_iff, !bool_decide_eq_true. done. }
  destruct (calls_rest Ls tp true Hp HLs 1) as (e & He & Het & Hec & _); [lia |].
  exists e. split; [exact He |].
  intros k Hk.
  destruct (calls_rest Ls tp false Hp HLs (S k)) as (b & Hbrun & Hbt & Hbc & _); [lia |].
  exists b. split; [exact Hbrun |].
  unfold iterator_eq. rewrite Hbt, Het, Hbc, Hec.
  rewrite bool_decide_eq_true_2 by done. cbn [andb Z.b2z].
  apply bool_decide_ext.
  split.
  - intros H. apply wrap64_near in H; lia.
  - intros H. f_equal. lia.
Qed.

(** *** The events of a call *)

Lemma quiet_pure {A} (m : M A) :
  (forall s, exists a, fst (m s) = inr a /\ trace (snd (m s)) = trace s) -> quiet t m.
Proof.
  intros H s. destruct (H s) as (a & Ha & Ht). exists [].
  split; [by rewrite app_nil_r |].
  rewrite Ha. split; [discriminate |].
  intros (l & Hl & _). by apply elem_of_nil in Hl.
Qed.

Lemma quiet_ret {A} (a : A) : quiet t (ret a).
Proof. apply quiet_pure. intros s. by exists a. Qed.

Lemma quiet_fail {A} (e : Error) : e <> UnsupportedModeType -> quiet t (@fail A e).
Proof.
  intros He s. exists []. split; [by rewrite app_nil_r |]. cbn.
  split; [intros H; inversion H; done |].
  intros (l & Hl & _). by apply elem_of_nil in Hl.
Qed.

Lemma quiet_bind {A B} (m : M A) (k : A -> M B) :
  quiet t m -> (forall a, quiet t (k a)) -> quiet t (bind m k).
Proof.
  intros Hm Hk s. destruct (Hm s) as (ev1 & Ht1 & Hi1).
  unfold bind. destruct (m s) as [[e | a] s1] eqn:Em; cbn in *.
  - exists ev1. split; [exact Ht1 |]. split.
    + intros H. inversion H; subst. by apply Hi1.
    + intros H. apply Hi1 in H. by inversion H.
  - destruct (Hk a s1) as (ev2 & Ht2 & Hi2).
    exists (ev1 ++ ev2). split; [by rewrite Ht2, Ht1, app_assoc |].
    rewrite Hi2. split.
    + intros (l & Hl & Hb). exists l. split; [| done].
      apply elem_of_app. by right.
    + intros (l & Hl & Hb). apply elem_of_app in Hl as [Hl | Hl].
      * assert (Hno : @inr Error A a = inl UnsupportedModeType)
          by (apply Hi1; eauto).
        discriminate Hno.
      * eauto.
Qed.

Lemma quiet_access v i : quiet t (emit (Access v i)).
Proof.
  intros s. exists [Access v i]. split; [done |]. cbn.
  split; [discriminate |].
  intros (l & Hl & _). apply list_elem_of_singleton in Hl. discriminate Hl.
Qed.

Lemma quiet_visit l : ~ unsupported t l -> quiet t (emit (Visit l)).
Proof.
  intros Hl s. exists [Visit l]. split; [done |]. cbn.
  split; [discriminate |].
  intros (l' & Hl' & Hb). apply list_elem_of_singleton in Hl'.
  inversion Hl'; subst. done.
Qed.

Lemma quiet_read v i : quiet t (read stray v i).
Proof.
  apply quiet_bind; [apply quiet_access |]. intros _. apply quiet_pure.
  intros s. eexists. done.
Qed.

Lemma quiet_write v i x : quiet t (write v i x).
Proof.
  apply quiet_bind; [apply quiet_access |]. intros _. apply quiet_pure.
  intros s. exists tt. by destruct v.
Qed.

Lemma quiet_incr v i : quiet t (incr v i).
Proof.
  apply quiet_bind; [apply quiet_access |]. intros _. apply quiet_pure.
  intros s. exists tt. by destruct v.
Qed.

Lemma quiet_getIndexArray m i : quiet t (lift (getIndexArray m i)).
Proof.
  unfold getIndexArray. destruct (indexArrays m !! i); cbn.
  - apply quiet_ret.
  - by apply quiet_fail.
Qed.

Lemma quiet_for_each {A} (l : list A) (body : A -> M unit) :
  (forall x, quiet t (body x)) -> quiet t (for_each l body).
Proof.
  intros Hb. induction l as [| x l IH]; cbn.
  - apply quiet_ret.
  - apply quiet_bind; [apply Hb | intros _; exact IH].
Qed.

Lemma quiet_leaf lvl : quiet t (leaf stray t lvl).
Proof.
  unfold leaf.
  apply quiet_bind; [apply quiet_pure; intros s; by eexists |].
  intros [|].
  - apply quiet_bind; [apply quiet_pure; intros s; by exists tt |].
    intros _. apply quiet_ret.
  - apply quiet_bind.
    { destruct (decide (lvl = 0%nat)); [apply quiet_ret | apply quiet_read]. }
    intros idx.
    apply quiet_bind; [apply quiet_pure; intros s; by exists tt |]. intros _.
    apply quiet_bind.
    { apply quiet_for_each. intros i.
      apply quiet_bind; [apply quiet_read |]. intros c.
      apply quiet_pure. intros s. by exists tt. }
    intros _.
    apply quiet_bind; [apply quiet_pure; intros s; by exists tt |].
    intros _. apply quiet_ret.
Qed.

Lemma quiet_level_loop var hi other rec lvl :
  quiet t rec -> forall fuel resuming,
  quiet t (level_loop stray var hi other rec lvl fuel resuming).
Proof.
  intros Hrec. induction fuel as [| fuel IH]; intros resuming; cbn [level_loop].
  - by apply quiet_fail.
  - apply quiet_bind.
    { destruct resuming; [apply quiet_ret |].
      apply quiet_bind; [apply quiet_read |]. intros j.
      destruct (j <? hi); [| apply quiet_ret].
      apply quiet_bind; [apply quiet_read |]. intros j'.
      apply quiet_bind; [apply quiet_write |]. intros _. apply quiet_ret. }
    intros [|]; [| apply quiet_ret].
    apply quiet_bind; [exact Hrec |].
    intros [|]; [apply quiet_ret |].
    apply quiet_bind; [apply quiet_incr |]. intros _. apply IH.
Qed.

Lemma quiet_ext {A} (m m' : M A) : (forall s, m s = m' s) -> quiet t m' -> quiet t m.
Proof. intros H Hq s. rewrite H. apply Hq. Qed.

Lemma quiet_advanceIndex : forall fuel lvl,
  (lvl <= getOrder t)%nat -> (getOrder t - lvl <= fuel)%nat ->
  quiet t (advanceIndex stray t fuel lvl).
Proof.
  induction fuel as [| fuel IH]; intros lvl Hlvl Hfuel.
  - cbn [advanceIndex].
    assert (lvl = getOrder t) as Heq by lia.
    apply quiet_bind.
    { apply quiet_visit. unfold unsupported. lia. }
    intros _. rewrite decide_True by done. apply quiet_leaf.
  - cbn [advanceIndex].
    destruct (decide (lvl = getOrder t)) as [Heq | Hne].
    { apply quiet_bind.
      { apply quiet_visit. unfold unsupported. lia. }
      intros _. apply quiet_leaf. }
    assert (Hrec : quiet t (advanceIndex stray t fuel (S lvl))) by (apply IH; lia).
    destruct (getModeTypes (getFormat t) !! lvl) as [[| |] |] eqn:Emt.
    + apply quiet_bind.
      { apply quiet_visit. intros (_ & m & Hm & Hd & Hs). congruence. }
      intros _.
      apply quiet_bind; [apply quiet_getIndexArray |]. intros a0.
      apply quiet_bind; [apply quiet_read |]. intros p.
      apply quiet_bind; [apply quiet_pure; intros s; by eexists |]. intros adv.
      destruct adv.
      * eapply quiet_ext; [intros s; apply dense_loop_level |].
        by apply quiet_level_loop.
      * apply quiet_bind; [apply quiet_write |]. intros _.
        eapply quiet_ext; [intros s; apply dense_loop_level |].
        by apply quiet_level_loop.
    + apply quiet_bind.
      { apply quiet_visit. intros (_ & m & Hm & Hd & Hs). congruence. }
      intros _.
      apply quiet_bind; [apply quiet_getIndexArray |]. intros pos.
      apply quiet_bind; [apply quiet_getIndexArray |]. intros idx.
      apply quiet_bind.
      { destruct (decide (lvl = 0%nat)); [apply quiet_ret | apply quiet_read]. }
      intros k.
      apply quiet_bind; [apply quiet_pure; intros s; by eexists |]. intros adv.
      destruct adv.
      * eapply quiet_ext; [intros s; apply sparse_loop_level |].
        by apply quiet_level_loop.
      * apply quiet_bind; [apply quiet_write |]. intros _.
        eapply quiet_ext; [intros s; apply sparse_loop_level |].
        by apply quiet_level_loop.
    + intros s. exists [Visit lvl]. split; [done |]. cbn.
      split; [| done]. intros _. exists lvl. split; [by left |].
      split; [lia |]. by exists Fixed.
    + apply quiet_bind.
      { apply quiet_visit. intros (_ & m & Hm & _). congruence. }
      intros _. by apply quiet_fail.
Qed.

(** C7.  A call of [advanceIndex] throws the not-supported failure
    exactly when it entered a level whose mode type is neither [Dense]
    nor [Sparse]; when every mode type is one of the two, it does not
    throw it. *)
Theorem unsupported_mode_type_iff_visited (s : const_iterator) :
  let r := advanceIndex stray t (getOrder t) 0 s in
  exists ev,
    trace (snd r) = trace s ++ ev
    /\ (fst r = inl UnsupportedModeType
        <-> exists l m, Visit l ∈ ev /\ (l < getOrder t)%nat
                        /\ getModeTypes (getFormat t) !! l = Some m
                        /\ m <> Dense /\ m <> Sparse)
    /\ ((forall l, (l < getOrder t)%nat ->
           getModeTypes (getFormat t) !! l = Some Dense
           \/ getModeTypes (getFormat t) !! l = Some Sparse)
        -> fst r <> inl UnsupportedModeType).
Proof.
  cbn zeta.
  destruct (quiet_advanceIndex (getOrder t) 0%nat ltac:(lia) ltac:(lia) s)
    as (ev & Ht & Hiff).
  exists ev. split; [exact Ht |]. split.
  { rewrite Hiff. split.
    - intros (l & Hv & Hl & m & Hm & Hd & Hs). by exists l, m.
    - intros (l & m & Hv & Hl & Hm & Hd & Hs).
      exists l. split; [done |]. split; [done |]. by exists m. }
  intros Hall Hr. apply Hiff in Hr as (l & _ & Hl & m & Hm & Hd & Hs).
  destruct (Hall l Hl) as [H | H]; rewrite H in Hm; congruence.
Qed.

(** With a Dense outermost level, the call at level 0 passes the index
    [lvl - 1], which wraps to [2^64 - 1], to [ptrs]. *)
Lemma dense_root_reads_ptrs_at_minus_one (s : const_iterator) (a0 : Array) :
  (0 < getOrder t)%nat ->
  getModeTypes (getFormat t) !! 0%nat = Some Dense ->
  getIndexArray (modeIndex_at t 0) 0 = inr a0 ->
  Access Ptrs (2 ^ 64 - 1) ∈ trace (snd (advanceIndex stray t (getOrder t) 0 s)).
Proof.
  intros Hord Hmt Ha0.
  assert (Hrec : quiet t (advanceIndex stray t (getOrder t - 1) 1))
    by (apply quiet_advanceIndex; lia).
  replace (getOrder t) with (S (getOrder t - 1)) at 1 by lia.
  cbn [advanceIndex].
  erewrite bind_run by reflexivity.
  rewrite decide_False by lia. rewrite Hmt, Ha0.
  erewrite bind_run by reflexivity.
  erewrite bind_run by apply read_run.
  match goal with |- context [bind get_advance ?k ?s1] =>
    assert (Hq : quiet t (bind get_advance k)); [| destruct (Hq s1) as (ev & Ht & _)]
  end.
  { apply quiet_bind; [apply quiet_pure; intros s'; by eexists |]. intros adv.
    destruct adv.
    - eapply quiet_ext; [intros s'; apply dense_loop_level |].
      by apply quiet_level_loop.
    - apply quiet_bind; [apply quiet_write |]. intros _.
      eapply quiet_ext; [intros s'; apply dense_loop_level |].
      by apply quiet_level_loop. }
  rewrite Ht. cbn [trace log].
  apply elem_of_app. left. apply elem_of_app. right. by left.
Qed.
End TraversalProofs.

(** ** The coordinate buffer *)

Lemma length_bytes_le n v : length (bytes_le n v) = n.
Proof. unfold bytes_le. by rewrite length_map, length_seq. Qed.

Lemma store_bytes_app : forall (bs pre mid post : list Z),
  length mid = length bs ->
  store_bytes (pre ++ mid ++ post) (Z.of_nat (length pre)) bs = pre ++ bs ++ post.
Proof.
  induction bs as [| b bs IH]; intros pre mid post Hlen.
  - destruct mid; [done | discriminate Hlen].
  - destruct mid as [| m mid]; [discriminate Hlen |]. cbn [store_bytes].
    rewrite zupdate_nat.
    replace (<[length pre := b]> (pre ++ (m :: mid) ++ post))
      with ((pre ++ [b]) ++ mid ++ post).
    2:{ rewrite insert_app_r_alt by lia. rewrite Nat.sub_diag. cbn.
        by rewrite <- app_assoc. }
    replace (Z.of_nat (length pre) + 1) with (Z.of_nat (length (pre ++ [b])))
      by (rewrite length_app; cbn; lia).
    rewrite IH by (cbn in Hlen; lia).
    by rewrite <- app_assoc.
Qed.

Lemma length_record_coordinates coordinate :
  length (record_coordinates coordinate) = (4 * length coordinate)%nat.
Proof.
  unfold record_coordinates.
  induction coordinate as [| c r IH]; cbn [map concat]; [done |].
  rewrite length_app, length_bytes_le, IH. cbn [length]. lia.
Qed.

Lemma store_coordinates_app : forall (coordinate pre mid post : list Z),
  length mid = (4 * length coordinate)%nat ->
  store_coordinates (pre ++ mid ++ post) (Z.of_nat (length pre)) coordinate
  = (pre ++ record_coordinates coordinate ++ post,
     Z.of_nat (length pre) + 4 * Z.of_nat (length coordinate)).
Proof.
  induction coordinate as [| c r IH]; intros pre mid post Hlen.
  - destruct mid; [| discriminate Hlen]. cbn. f_equal. lia.
  - cbn [store_coordinates].
    rewrite <- (take_drop 4 mid), <- app_assoc.
    rewrite store_bytes_app
      by (rewrite length_take, length_bytes_le; cbn in Hlen; lia).
    rewrite app_assoc.
    replace (Z.of_nat (length pre) + sizeof_int)
      with (Z.of_nat (length (pre ++ bytes_le 4 c)))
      by (rewrite length_app, length_bytes_le; unfold sizeof_int; lia).
    rewrite IH by (rewrite length_drop; cbn in Hlen; lia).
    unfold record_coordinates. cbn [map concat].
    rewrite <- !app_assoc. f_equal.
    rewrite length_app, length_bytes_le. cbn [length]. lia.
Qed.

Lemma insert_record_split (pre midC midV post coordinate : list Z) (nb : nat) (value : Z) :
  length midC = (4 * length coordinate)%nat -> length midV = nb ->
  store_bytes
    (fst (store_coordinates (pre ++ midC ++ midV ++ post) (Z.of_nat (length pre)) coordinate))
    (snd (store_coordinates (pre ++ midC ++ midV ++ post) (Z.of_nat (length pre)) coordinate))
    (bytes_le nb value)
  = pre ++ (record_coordinates coordinate ++ bytes_le nb value) ++ post.
Proof.
  intros HC HV.
  rewrite store_coordinates_app by exact HC. cbn [fst snd].
  rewrite app_assoc.
  replace (Z.of_nat (length pre) + 4 * Z.of_nat (length coordinate))
    with (Z.of_nat (length (pre ++ record_coordinates coordinate)))
    by (rewrite length_app, length_record_coordinates; lia).
  rewrite store_bytes_app by (by rewrite length_bytes_le).
  by rewrite <- !app_assoc.
Qed.

(** The buffer after a successful [insert]: the bytes before the used
    count are kept, the record follows, the rest is kept. *)
Lemma insert_record (buf1 coordinate : list Z) (used : Z) (nb : nat) (value : Z) :
  0 <= used ->
  used + 4 * Z.of_nat (length coordinate) + Z.of_nat nb <= Z.of_nat (length buf1) ->
  store_bytes (fst (store_coordinates buf1 used coordinate))
              (snd (store_coordinates buf1 used coordinate)) (bytes_le nb value)
  = take (Z.to_nat used) buf1
    ++ (record_coordinates coordinate ++ bytes_le nb value)
    ++ drop (Z.to_nat used + 4 * length coordinate + nb) buf1.
Proof.
  intros Hu Hlen.
  set (n := Z.to_nat used). set (k := (4 * length coordinate)%nat).
  pose proof (insert_record_split (take n buf1) (take k (drop n buf1))
                (take nb (drop (n + k) buf1)) (drop (n + k + nb) buf1)
                coordinate nb value) as Hs.
  assert (Hsplit : take n buf1 ++ take k (drop n buf1)
                   ++ take nb (drop (n + k) buf1) ++ drop (n + k + nb) buf1 = buf1).
  { rewrite <- (drop_drop buf1 nb (n + k)), take_drop.
    rewrite <- (drop_drop buf1 k n). by rewrite !take_drop. }
  rewrite Hsplit in Hs.
  replace (Z.of_nat (length (take n buf1))) with used in Hs
    by (rewrite length_take; lia).
  apply Hs; rewrite length_take, length_drop; lia.
Qed.

(** C3 (as amended).  [insert] throws the wrong-number-of-indices
    failure when the coordinate's length is not the order; it throws the
    type failure when the length is right and the value's type is not the
    component type; and a call that throws leaves the handle (its used
    count) and the heap (the coordinate buffer) as they were. *)
Theorem insert_rejects_before_writing
    (h : TensorBase) (coordinate : list Z) (T : DataType) (value : Z)
    (H : Heap) (c : Content) :
  contents H !! content h = Some c ->
  (length coordinate <> getOrder c ->
   insert h coordinate T value H = (inl DimensionMismatch, (h, H)))
  /\ (length coordinate = getOrder c -> getComponentType c <> T ->
      insert h coordinate T value H = (inl TypeMismatch, (h, H)))
  /\ (forall e, fst (insert h coordinate T value H) = inl e ->
      snd (insert h coordinate T value H) = (h, H)).
Proof.
  intros Hc. unfold insert. rewrite Hc.
  split; [| split].
  - intros Hlen. by rewrite bool_decide_eq_false_2.
  - intros Hlen Hty. rewrite bool_decide_eq_true_2 by done.
    by rewrite bool_decide_eq_false_2.
  - intros e.
    destruct (bool_decide (length coordinate = getOrder c)); [| done].
    destruct (bool_decide (getComponentType c = T)); [| done]. cbn [negb].
    destruct (buffers H !! coordinateBuffer h) as [buf |]; [| done].
    destruct (store_coordinates _ _ _). cbn. discriminate.
Qed.

(** C3, against the sentence as worded: a call with the wrong number of
    indices and a value of the wrong type throws the
    wrong-number-of-indices failure, not the type failure. *)
Lemma insert_wrong_arity_hides_type_mismatch :
  exists c,
    contents (snd example_vector) !! content (fst example_vector) = Some c
    /\ getComponentType c <> Float64
    /\ length (@nil Z) <> getOrder c
    /\ insert (fst example_vector) [] Float64 7 (snd example_vector)
       = (inl DimensionMismatch, example_vector).
Proof.
  eexists. split; [vm_compute; reflexivity |].
  split; [discriminate |]. split; [discriminate |]. vm_compute. reflexivity.
Qed.

(** C8 (as amended).  A call of [insert] that passes both checks, on a
    handle whose record size is that of its tensor and whose used count
    is within the buffer, returns normally whatever the coordinates are.
    When fewer than one record of free space is left it first grows the
    buffer by exactly one record.  It keeps the bytes before the used
    count, writes the coordinates and then the value bytes at the used
    count, and advances the used count by one record. *)
Theorem insert_appends_one_record
    (h : TensorBase) (coordinate : list Z) (T : DataType) (value : Z)
    (H : Heap) (c : Content) (buf : list Z) :
  contents H !! content h = Some c ->
  buffers H !! coordinateBuffer h = Some buf ->
  length coordinate = getOrder c ->
  getComponentType c = T ->
  coordinateSize h = Z.of_nat (getOrder c) * sizeof_int + getNumBytes T ->
  0 <= coordinateBufferUsed h <= Z.of_nat (length buf) ->
  Z.of_nat (length buf) + coordinateSize h < 2 ^ 64 ->
  exists buf',
    insert h coordinate T value H
    = (inr tt,
       (mkTensorBase (content h) (coordinateBuffer h)
          (coordinateBufferUsed h + coordinateSize h) (coordinateSize h),
        mkHeap (contents H) (<[coordinateBuffer h := buf']> (buffers H)) (memory H)))
    /\ Z.of_nat (length buf')
       = (if Z.of_nat (length buf) - coordinateBufferUsed h <? coordinateSize h
          then Z.of_nat (length buf) + coordinateSize h
          else Z.of_nat (length buf))
    /\ take (Z.to_nat (coordinateBufferUsed h)) buf'
       = take (Z.to_nat (coordinateBufferUsed h)) buf
    /\ take (Z.to_nat (coordinateSize h)) (drop (Z.to_nat (coordinateBufferUsed h)) buf')
       = record_coordinates coordinate
         ++ bytes_le (Z.to_nat (getNumBytes T)) value.
Proof.
  intros Hc Hb Hlen Hty Hcs Hused Hmax.
  set (used := coordinateBufferUsed h) in *.
  set (cs := coordinateSize h) in *.
  assert (Hnb : 0 < getNumBytes T) by (destruct T; done).
  unfold sizeof_int in Hcs.
  unfold insert. rewrite Hc, Hb.
  rewrite !bool_decide_eq_true_2 by done. cbn [negb]. rewrite Hty.
  fold used cs.
  rewrite (wrap64_small (Z.of_nat (length buf) - used)) by lia.
  rewrite (wrap64_small (used + cs)) by lia.
  set (buf1 := if Z.of_nat (length buf) - used <? cs
               then buf ++ replicate (Z.to_nat cs) 0 else buf).
  assert (Hlen1 : Z.of_nat (length buf1)
                  = if Z.of_nat (length buf) - used <? cs
                    then Z.of_nat (length buf) + cs else Z.of_nat (length buf)).
  { unfold buf1. destruct (Z.of_nat (length buf) - used <? cs); [| done].
    rewrite length_app, length_replicate. lia. }
  assert (Hfit : used + cs <= Z.of_nat (length buf1)).
  { rewrite Hlen1. destruct (Z.ltb_spec (Z.of_nat (length buf) - used) cs); lia. }
  assert (Hpre : take (Z.to_nat used) buf1 = take (Z.to_nat used) buf).
  { unfold buf1. destruct (Z.of_nat (length buf) - used <? cs); [| done].
    apply take_app_le. lia. }
  pose proof (insert_record buf1 coordinate used (Z.to_nat (getNumBytes T)) value) as Hrec.
  destruct (store_coordinates buf1 used coordinate) as [buf2 coordLoc].
  cbn [fst snd] in Hrec.
  eexists. split; [reflexivity |].
  rewrite Hrec by lia. clear Hrec.
  set (rec := record_coordinates coordinate ++ bytes_le (Z.to_nat (getNumBytes T)) value).
  assert (Hlrec : length rec = Z.to_nat cs).
  { unfold rec. rewrite length_app, length_record_coordinates, length_bytes_le. lia. }
  assert (Hltake : length (take (Z.to_nat used) buf1) = Z.to_nat used)
    by (rewrite length_take; lia).
  split; [| split].
  - rewrite <- Hlen1. rewrite !length_app, length_drop, Hltake, Hlrec. lia.
  - rewrite take_app_le by lia. rewrite take_ge by lia. exact Hpre.
  - rewrite drop_app_length' by (symmetry; exact Hltake).
    rewrite take_app_length' by (symmetry; exact Hlrec). done.
Qed.

(** C8, against the sentence as worded: with two records stored and no
    free space left, a third [insert] takes the buffer from 24 to 36
    bytes, one record more and less than twice the size. *)
Lemma insert_grows_by_one_record_not_twofold :
  exists buf h' H' buf',
    buffers (snd example_two_records) !! coordinateBuffer (fst example_two_records)
    = Some buf
    /\ Z.of_nat (length buf) - coordinateBufferUsed (fst example_two_records)
       < coordinateSize (fst example_two_records)
    /\ insert (fst example_two_records) [1] Float64 3 (snd example_two_records)
       = (inr tt, (h', H'))
    /\ buffers H' !! coordinateBuffer h' = Some buf'
    /\ length buf = 24%nat /\ length buf' = 36%nat
    /\ (length buf' < 2 * length buf)%nat.
Proof.
  do 4 eexists.
  split; [vm_compute; reflexivity |].
  split; [vm_compute; reflexivity |].
  split; [vm_compute; reflexivity |].
  split; [vm_compute; reflexivity |].
  split; [reflexivity |]. split; [reflexivity |]. vm_compute. lia.
Qed.

(** C5, at a copy made before an [insert]: the two handles refer to the
    same tensor and the same buffer, and the record is in the buffer, but
    the copy's used count is still zero, so an [insert] through the copy
    overwrites the record. *)
Lemma copy_keeps_its_own_used_count :
  let t := fst example_vector in
  let u := copy t in
  exists t' H' u' H'',
    insert t [0] Int32 5 (snd example_vector) = (inr tt, (t', H'))
    /\ same_tensor t' u = true
    /\ coordinateBuffer t' = coordinateBuffer u
    /\ coordinateBufferUsed t' = 8
    /\ coordinateBufferUsed u = 0
    /\ buffers H' !! coordinateBuffer u = Some [0; 0; 0; 0; 5; 0; 0; 0]
    /\ insert u [1] Int32 9 H' = (inr tt, (u', H''))
    /\ buffers H'' !! coordinateBuffer t' = Some [1; 0; 0; 0; 9; 0; 0; 0].
Proof.
  cbn zeta. do 4 eexists.
  split; [vm_compute; reflexivity |].
  repeat split; vm_compute; reflexivity.
Qed.

(** ** Transpose *)

Lemma grows_at_refl lc lb H : grows_at lc lb H H.
Proof. done. Qed.

Lemma grows_at_trans lc lb H1 H2 H3 :
  grows_at lc lb H1 H2 -> grows_at lc lb H2 H3 -> grows_at lc lb H1 H3.
Proof.
  intros (A1 & A2 & A3) (B1 & B2 & B3).
  split; [congruence |]. split; intros l Hl.
  - rewrite B2, A2; done.
  - rewrite B3, A3; done.
Qed.

Lemma insert_grows (h : TensorBase) coordinate T value H :
  let r := insert h coordinate T value H in
  content (fst (snd r)) = content h
  /\ coordinateBuffer (fst (snd r)) = coordinateBuffer h
  /\ contents (snd (snd r)) = contents H
  /\ grows_at (content h) (coordinateBuffer h) H (snd (snd r)).
Proof.
  cbn zeta. unfold insert.
  destruct (contents H !! content h) as [c |]; [| done].
  destruct (negb (bool_decide (length coordinate = getOrder c))); [done |].
  destruct (negb (bool_decide (getComponentType c = T))); [done |].
  destruct (buffers H !! coordinateBuffer h) as [buf |]; [| done].
  destruct (store_coordinates _ _ _) as [buf2 coordLoc]. cbn.
  repeat split; try done.
  intros l Hl. by apply lookup_insert_ne.
Qed.

Lemma new_tensor_grows name ctype dimensions format H :
  let r := new_tensor name ctype dimensions format H in
  (content (fst r) ∉ dom (contents H))
  /\ (coordinateBuffer (fst r) ∉ dom (buffers H))
  /\ contents (snd r) !! content (fst r)
     = Some (mkContent name dimensions ctype format (empty_storage ctype))
  /\ grows_at (content (fst r)) (coordinateBuffer (fst r)) H (snd r).
Proof.
  cbn zeta. unfold new_tensor. cbn.
  split; [apply is_fresh |]. split; [apply is_fresh |].
  split; [apply lookup_insert_eq |].
  repeat split; intros l Hl; by apply lookup_insert_ne.
Qed.

(** An [insert] into a buffer that is used up to its end appends the
    record. *)
Lemma insert_at_end (h : TensorBase) coordinate T value H c buf :
  contents H !! content h = Some c ->
  buffers H !! coordinateBuffer h = Some buf ->
  length coordinate = getOrder c ->
  getComponentType c = T ->
  coordinateSize h = Z.of_nat (getOrder c) * sizeof_int + getNumBytes T ->
  coordinateBufferUsed h = Z.of_nat (length buf) ->
  Z.of_nat (length buf) + coordinateSize h < 2 ^ 64 ->
  insert h coordinate T value H
  = (inr tt,
     (mkTensorBase (content h) (coordinateBuffer h)
        (Z.of_nat (length buf) + coordinateSize h) (coordinateSize h),
      mkHeap (contents H)
        (<[coordinateBuffer h :=
             buf ++ record_coordinates coordinate
                 ++ bytes_le (Z.to_nat (getNumBytes T)) value]> (buffers H))
        (memory H))).
Proof.
  intros Hc Hb Hlen Hty Hcs Hused Hmax.
  assert (Hnb : 0 < getNumBytes T) by (destruct T; done).
  unfold sizeof_int in Hcs.
  unfold insert. rewrite Hc, Hb.
  rewrite !bool_decide_eq_true_2 by done. cbn [negb]. rewrite Hty, Hused.
  rewrite Z.sub_diag, (wrap64_small 0) by lia.
  rewrite (wrap64_small (Z.of_nat (length buf) + coordinateSize h)) by lia.
  replace (0 <? coordinateSize h) with true by (symmetry; apply Z.ltb_lt; lia).
  replace (Z.to_nat (coordinateSize h))
    with (4 * length coordinate + Z.to_nat (getNumBytes T))%nat by lia.
  rewrite replicate_add.
  pose proof (insert_record_split buf (replicate (4 * length coordinate) 0)
                (replicate (Z.to_nat (getNumBytes T)) 0) [] coordinate
                (Z.to_nat (getNumBytes T)) value) as Hrec.
  rewrite !app_nil_r in Hrec.
  destruct (store_coordinates _ _ coordinate) as [buf2 coordLoc].
  cbn [fst snd] in Hrec.
  rewrite Hrec by (by rewrite length_replicate). done.
Qed.

Section PackingProofs.

Variable stray : Z -> Z.
Variable pack_content : Content -> list Z -> Z -> Error + (Content * list Z).

Lemma pack_grows (h : TensorBase) H :
  let r := pack pack_content h H in
  content (fst (snd r)) = content h
  /\ coordinateBuffer (fst (snd r)) = coordinateBuffer h
  /\ grows_at (content h) (coordinateBuffer h) H (snd (snd r)).
Proof.
  cbn zeta. unfold pack.
  destruct (contents H !! content h) as [c |]; [| done].
  destruct (buffers H !! coordinateBuffer h) as [buf |]; [| done].
  destruct (pack_content c buf (coordinateBufferUsed h)) as [e | [c' buf']]; [done |].
  cbn. repeat split; try done; intros l Hl; by apply lookup_insert_ne.
Qed.

Lemma insert_all_grows src CType ord e : forall fuel it (h : TensorBase) H,
  let r := insert_all stray fuel src CType ord it e h H in
  content (fst (snd r)) = content h
  /\ coordinateBuffer (fst (snd r)) = coordinateBuffer h
  /\ contents (snd (snd r)) = contents H
  /\ grows_at (content h) (coordinateBuffer h) H (snd (snd r)).
Proof.
  induction fuel as [| fuel IH]; intros it h H; cbn zeta; cbn [insert_all].
  - done.
  - destruct (iterator_eq it e); [done |].
    pose proof (insert_grows h
      (map (fun mode => cast_int (default 0 (zlookup (fst (curVal it)) mode))) ord)
      CType (snd (curVal it)) H) as Hi.
    cbn zeta in Hi.
    destruct (insert h _ CType (snd (curVal it)) H) as [[err | []] [h1 H1]];
      cbn [fst snd] in Hi; [done |].
    destruct Hi as (Hc1 & Hb1 & Hk1 & Hg1).
    destruct (increment stray src it) as [[err | []] it']; [done |].
    specialize (IH it' h1 H1). cbn zeta in IH.
    destruct IH as (Hc2 & Hb2 & Hk2 & Hg2).
    rewrite Hc1, Hb1 in *.
    split; [done |]. split; [done |]. split; [congruence |].
    eapply grows_at_trans; [exact Hg1 | exact Hg2].
Qed.

Lemma insert_all_S fuel src CType ord it e (h : TensorBase) H :
  insert_all stray (S fuel) src CType ord it e h H
  = if iterator_eq it e then (inr tt, (h, H))
    else
      match insert h
              (map (fun mode => cast_int (default 0 (zlookup (fst (curVal it)) mode))) ord)
              CType (snd (curVal it)) H with
      | (inr _, (h', H')) =>
          match increment stray src it with
          | (inr _, it') => insert_all stray fuel src CType ord it' e h' H'
          | (inl err, _) => (inl err, (h', H'))
          end
      | (inl err, st) => (inl err, st)
      end.
Proof. reflexivity. Qed.

(** The loop of [transpose] over a packed source, from the iterator
    after [k] increments: it returns, and it has appended the records of
    the pairs from number [k] on, in the order of the traversal. *)
Lemma insert_all_traversal src CType ord tp e :
  packed src = true ->
  end_ stray src tp = (inr tt, e) ->
  forall (j k : nat) it (h : TensorBase) H cnew buf,
    (k + j = length (traversal src))%nat ->
    advanced stray src tp k = (inr tt, it) ->
    contents H !! content h = Some cnew ->
    buffers H !! coordinateBuffer h = Some buf ->
    getOrder cnew = length ord ->
    getComponentType cnew = CType ->
    coordinateSize h = Z.of_nat (length ord) * sizeof_int + getNumBytes CType ->
    coordinateBufferUsed h = Z.of_nat (length buf) ->
    Z.of_nat (length buf) + Z.of_nat j * coordinateSize h < 2 ^ 64 ->
    insert_all stray (S j) src CType ord it e h H
    = (inr tt,
       (mkTensorBase (content h) (coordinateBuffer h)
          (Z.of_nat (length (buf ++ concat (map (transposed_record CType ord)
                                                (drop k (traversal src))))))
          (coordinateSize h),
        mkHeap (contents H)
          (<[coordinateBuffer h :=
               buf ++ concat (map (transposed_record CType ord)
                                  (drop k (traversal src)))]> (buffers H))
          (memory H))).
Proof.
  intros Hp He.
  destruct (advanced_packed stray src tp Hp) as (e' & He' & Hiter).
  rewrite He in He'. inversion He'; subst e'. clear He'.
  induction j as [| j IH]; intros k it h H cnew buf Hk Hit Hc Hb Hord Hty Hcs Hused Hmax.
  - destruct (Hiter k ltac:(lia)) as (b & Hb' & Heq & _).
    rewrite Hit in Hb'. inversion Hb'; subst b. clear Hb'.
    rewrite insert_all_S, Heq, bool_decide_eq_true_2 by lia.
    rewrite drop_ge by lia. cbn [map concat]. rewrite app_nil_r.
    rewrite insert_id by exact Hb. rewrite <- Hused.
    by destruct h, H.
  - destruct (Hiter k ltac:(lia)) as (b & Hb' & Heq & Hcur & Hinc).
    rewrite Hit in Hb'. inversion Hb'; subst b. clear Hb'.
    destruct (lookup_lt_is_Some_2 (traversal src) k ltac:(lia)) as [x Hx].
    specialize (Hcur x Hx).
    assert (Hnb : 0 < getNumBytes CType) by (destruct CType; done).
    rewrite insert_all_S, Heq, bool_decide_eq_false_2 by lia.
    rewrite Hcur.
    rewrite (insert_at_end h _ CType (snd x) H cnew buf Hc Hb)
      by (rewrite ?length_map; unfold sizeof_int in *; (done || nia)).
    rewrite Hinc.
    destruct (Hiter (S k) ltac:(lia)) as (b' & Hb' & _).
    rewrite Hb'.
    fold (transposed_record CType ord x).
    set (buf1 := buf ++ transposed_record CType ord x).
    set (h1 := mkTensorBase _ _ _ _). set (H1 := mkHeap _ _ _).
    assert (Hlen1 : Z.of_nat (length buf1) = Z.of_nat (length buf) + coordinateSize h).
    { unfold buf1, transposed_record.
      rewrite !length_app, length_record_coordinates, length_bytes_le, length_map.
      unfold sizeof_int in Hcs. lia. }
    rewrite (IH (S k) b' h1 H1 cnew buf1); subst h1 H1;
      cbn [content coordinateBuffer coordinateBufferUsed coordinateSize
           contents buffers memory];
      try done; try lia.
    + rewrite insert_insert_eq.
      rewrite (drop_S _ _ _ Hx). cbn [map concat]. unfold buf1.
      by rewrite <- !app_assoc.
    + apply lookup_insert_eq.
Qed.

(** [transpose] of a packed source: the new buffer holds the records
    of the source's traversal, and the call ends as [pack()] does. *)
Lemma transpose_packed
    (this : TensorBase) (CType : DataType) (name : string)
    (newModeOrdering : list Z) (format : Format) (H : Heap) (src : Content) :
  contents H !! content this = Some src ->
  packed src = true ->
  Z.of_nat (length (traversal src))
  * (Z.of_nat (length newModeOrdering) * sizeof_int + getNumBytes CType) < 2 ^ 64 ->
  let r := transpose stray pack_content this CType name newModeOrdering format H in
  let created :=
    mkContent name
      (map (fun mode => default 0 (zlookup (getDimensions src) mode)) newModeOrdering)
      CType format (empty_storage CType) in
  let seeded :=
    concat (map (transposed_record CType newModeOrdering) (traversal src)) in
  match pack_content created seeded (Z.of_nat (length seeded)) with
  | inr (c', buf') =>
      exists newTensor,
        fst r = inr newTensor
        /\ coordinateBufferUsed newTensor = 0
        /\ contents (snd r) !! content newTensor = Some c'
        /\ buffers (snd r) !! coordinateBuffer newTensor = Some buf'
  | inl err => fst r = inl err
  end.
Proof.
  intros Hsrc Hp Hbound. cbn zeta.
  pose proof (length_traversal src Hp) as Hlen.
  destruct (advanced_packed stray src (content this) Hp) as (e & He & Hiter).
  destruct (Hiter 0%nat ltac:(lia)) as (it & Hit & _).
  unfold transpose. rewrite Hsrc. unfold new_tensor. cbn zeta.
  change (begin_ stray src (content this)) with (advanced stray src (content this) 0).
  rewrite Hit, He.
  replace (Z.to_nat (getSize (getIndex (getStorage src))))
    with (length (traversal src)) by lia.
  set (lc := fresh (dom (contents H))). set (lb := fresh (dom (buffers H))).
  set (dims := map (fun mode => default 0 (zlookup (getDimensions src) mode))
                   newModeOrdering).
  set (created := mkContent name dims CType format (empty_storage CType)).
  erewrite (insert_all_traversal src CType newModeOrdering (content this) e Hp He
              (length (traversal src)) 0 it _ _ created []);
    cbn [content coordinateBuffer coordinateBufferUsed coordinateSize
         contents buffers memory];
    [| done | done | apply lookup_insert_eq | apply lookup_insert_eq
     | by (unfold getOrder, created, dims; cbn; rewrite length_map)
     | done
     | by (unfold dims; rewrite length_map)
     | done
     | by (unfold dims; rewrite length_map; cbn [length]; lia)].
  rewrite drop_0, app_nil_l, insert_insert_eq.
  unfold pack.
  cbn [content coordinateBuffer coordinateBufferUsed coordinateSize
       contents buffers memory].
  rewrite !lookup_insert_eq.
  destruct (pack_content created _ _) as [err | [c' buf']]; [done |].
  eexists. split; [reflexivity |]. split; [reflexivity |].
  cbn [snd content coordinateBuffer contents buffers].
  by rewrite !lookup_insert_eq.
Qed.

(** C6.  [transpose] leaves every content and every buffer that existed
    before the call as it was, the source's among them, whether it
    returns or throws.  When it returns, the tensor it returns has a
    content and a coordinate buffer that did not exist before: they were
    created under the given name with the re-ordered dimensions, filled
    by the inserts of the loop over the source, and [pack()] was called
    on them last.  When the source is packed, the loop returns with the
    new buffer holding one record for each pair of the source's
    traversal, in that order, and the call returns what [pack()] makes of
    that buffer, or throws what [pack()] throws. *)
Theorem transpose_builds_new_tensor
    (this : TensorBase) (CType : DataType) (name : string)
    (newModeOrdering : list Z) (format : Format) (H : Heap) (src : Content) :
  contents H !! content this = Some src ->
  is_Some (buffers H !! coordinateBuffer this) ->
  let r := transpose stray pack_content this CType name newModeOrdering format H in
  let created :=
    mkContent name
      (map (fun mode => default 0 (zlookup (getDimensions src) mode)) newModeOrdering)
      CType format (empty_storage CType) in
  let seeded :=
    concat (map (transposed_record CType newModeOrdering) (traversal src)) in
  (contents (snd r) !! content this = Some src
   /\ buffers (snd r) !! coordinateBuffer this = buffers H !! coordinateBuffer this
   /\ memory (snd r) = memory H
   /\ contents H ⊆ contents (snd r)
   /\ buffers H ⊆ buffers (snd r))
  /\ (forall newTensor, fst r = inr newTensor ->
       (content newTensor ∉ dom (contents H))
       /\ (coordinateBuffer newTensor ∉ dom (buffers H))
       /\ exists it e filled H2,
            begin_ stray src (content this) = (inr tt, it)
            /\ end_ stray src (content this) = (inr tt, e)
            /\ insert_all stray (S (Z.to_nat (getSize (getIndex (getStorage src)))))
                 src CType newModeOrdering it e
                 (fst (new_tensor name CType (getDimensions created) format H))
                 (snd (new_tensor name CType (getDimensions created) format H))
               = (inr tt, (filled, H2))
            /\ contents H2 !! content filled = Some created
            /\ pack pack_content filled H2 = (inr tt, (newTensor, snd r)))
  /\ (packed src = true ->
      Z.of_nat (length (traversal src))
      * (Z.of_nat (length newModeOrdering) * sizeof_int + getNumBytes CType) < 2 ^ 64 ->
      match pack_content created seeded (Z.of_nat (length seeded)) with
      | inr (c', buf') =>
          exists newTensor,
            fst r = inr newTensor
            /\ coordinateBufferUsed newTensor = 0
            /\ contents (snd r) !! content newTensor = Some c'
            /\ buffers (snd r) !! coordinateBuffer newTensor = Some buf'
      | inl err => fst r = inl err
      end).
Proof.
  intros Hsrc Hbuf. cbn zeta. cbn [getDimensions].
  match goal with |- ?A /\ ?B /\ _ => assert (Hold : A /\ B) end.
  2:{ destruct Hold as [HA HB]. split; [exact HA |]. split; [exact HB |].
      intros Hp Hbound.
      exact (transpose_packed this CType name newModeOrdering format H src
               Hsrc Hp Hbound). }
  unfold transpose. rewrite Hsrc.
  set (dims := map (fun mode => default 0 (zlookup (getDimensions src) mode))
                   newModeOrdering).
  pose proof (new_tensor_grows name CType dims format H) as Hn. cbn zeta in Hn.
  destruct (new_tensor name CType dims format H) as [nt H1] eqn:En.
  cbn [fst snd] in Hn. destruct Hn as (Hfc & Hfb & Hnew & Hg1).
  assert (Hframe : forall H', grows_at (content nt) (coordinateBuffer nt) H H' ->
            contents H' !! content this = Some src
            /\ buffers H' !! coordinateBuffer this = buffers H !! coordinateBuffer this
            /\ memory H' = memory H
            /\ contents H ⊆ contents H' /\ buffers H ⊆ buffers H').
  { intros H' (Gm & Gc & Gb).
    assert (Hne : forall l, is_Some (contents H !! l) -> l <> content nt).
    { intros l Hl ->. apply Hfc. by apply elem_of_dom. }
    assert (Hnb : forall l, is_Some (buffers H !! l) -> l <> coordinateBuffer nt).
    { intros l Hl ->. apply Hfb. by apply elem_of_dom. }
    split; [rewrite Gc by (apply Hne; eauto); exact Hsrc |].
    split; [apply Gb, Hnb, Hbuf |]. split; [exact Gm |].
    split; apply map_subseteq_spec; intros l x Hl.
    - rewrite Gc by (apply Hne; eauto). exact Hl.
    - rewrite Gb by (apply Hnb; eauto). exact Hl. }
  destruct (begin_ stray src (content this)) as [[err | []] it] eqn:Eb.
  { cbn [fst snd]. split; [by apply Hframe | discriminate]. }
  destruct (end_ stray src (content this)) as [[err | []] e] eqn:Ee.
  { cbn [fst snd]. split; [by apply Hframe | discriminate]. }
  pose proof (insert_all_grows src CType newModeOrdering e
                (S (Z.to_nat (getSize (getIndex (getStorage src))))) it nt H1) as Hi.
  cbn zeta in Hi.
  destruct (insert_all stray _ src CType newModeOrdering it e nt H1)
    as [[err | []] [filled H2]] eqn:Ei; cbn [fst snd] in Hi;
    destruct Hi as (Hc2 & Hb2 & Hk2 & Hg2).
  { cbn [fst snd]. split; [| discriminate].
    apply Hframe. eapply grows_at_trans; [exact Hg1 | exact Hg2]. }
  pose proof (pack_grows filled H2) as Hp. cbn zeta in Hp.
  destruct (pack pack_content filled H2) as [[err | []] [packed_t H3]] eqn:Ep;
    cbn [fst snd] in Hp; destruct Hp as (Hc3 & Hb3 & Hg3);
    rewrite Hc2, Hb2 in Hg3.
  { cbn [fst snd]. split; [| discriminate].
    apply Hframe. eapply grows_at_trans; [exact Hg1 |].
    eapply grows_at_trans; [exact Hg2 | exact Hg3]. }
  cbn [fst snd]. split.
  { apply Hframe. eapply grows_at_trans; [exact Hg1 |].
    eapply grows_at_trans; [exact Hg2 | exact Hg3]. }
  intros newTensor Hret. inversion Hret; subst newTensor.
  split; [by rewrite Hc3, Hc2 |]. split; [by rewrite Hb3, Hb2 |].
  exists it, e, filled, H2.
  split; [done |]. split; [done |]. split; [done |].
  split; [by rewrite Hk2, Hc2 |]. exact Ep.
Qed.

End PackingProofs.

(** ** Scalars *)

Lemma bytes_le_S n v :
  bytes_le (S n) v = (v mod 256) :: bytes_le n (v / 256).
Proof.
  unfold bytes_le. cbn [seq map].
  f_equal; [by rewrite Z.pow_0_r, Z.div_1_r |].
  rewrite <- seq_shift, map_map. apply map_ext. intros i.
  rewrite Nat2Z.inj_succ, Z.pow_succ_r by lia.
  by rewrite Z.div_div by lia.
Qed.

Lemma of_bytes_le_bytes_le : forall n v,
  0 <= v < 256 ^ Z.of_nat n -> of_bytes_le (bytes_le n v) = v.
Proof.
  induction n as [| n IH]; intros v Hv.
  - cbn in *. lia.
  - rewrite bytes_le_S. cbn [of_bytes_le].
    rewrite Nat2Z.inj_succ, Z.pow_succ_r in Hv by lia.
    rewrite IH.
    + pose proof (Z.div_mod v 256 ltac:(lia)). lia.
    + split; [apply Z.div_pos; lia |].
      apply Z.div_lt_upper_bound; lia.
Qed.

Section ScalarProofs.

Variable stray : Z -> Z.
Variable pack_content : Content -> list Z -> Z -> Error + (Content * list Z).

(** C9.  The scalar constructor, given a [pack] that packs order-0
    tensors as specified, yields a tensor of order 0 over which [begin()]
    differs from [end()] and holds the pair of the empty coordinate vector
    and the value, and one increment of [begin()] reaches [end()]. *)
Theorem scalar_tensor_iterates_once
    (name : string) (T : DataType) (val : Z) (H : Heap) :
  packs_scalars pack_content ->
  0 <= val < 256 ^ getNumBytes T ->
  exists this H' c b e b',
    TensorBase_scalar pack_content name T val H = (inr this, H')
    /\ contents H' !! content this = Some c
    /\ getOrder c = 0%nat
    /\ begin_ stray c (content this) = (inr tt, b)
    /\ end_ stray c (content this) = (inr tt, e)
    /\ curVal b = ([], val)
    /\ iterator_eq b e = false
    /\ increment stray c b = (inr tt, b')
    /\ iterator_eq b' e = true.
Proof.
  intros Hpack Hval.
  assert (Hnb : 0 < getNumBytes T) by (destruct T; done).
  unfold TensorBase_scalar, new_tensor.
  set (lc := fresh (dom (contents H))). set (lb := fresh (dom (buffers H))).
  set (c0 := mkContent name [] T (mkFormat [] []) (empty_storage T)).
  unfold insert. cbn [contents buffers memory content coordinateBuffer
                      coordinateBufferUsed coordinateSize].
  rewrite lookup_insert_eq.
  rewrite bool_decide_eq_true_2 by done.
  rewrite bool_decide_eq_true_2 by done. cbn [negb].
  rewrite lookup_insert_eq.
  change (Z.of_nat (length (@nil Z)) * sizeof_int + getNumBytes T) with (getNumBytes T).
  change (Z.of_nat (length (@nil Z)) - 0) with 0.
  rewrite (wrap64_small 0) by lia.
  replace (0 <? getNumBytes T) with true by (symmetry; apply Z.ltb_lt; lia).
  cbn [store_coordinates app getComponentType c0].
  pose proof (store_bytes_app (bytes_le (Z.to_nat (getNumBytes T)) val) []
                (replicate (Z.to_nat (getNumBytes T)) 0) []) as Hst.
  cbn [app length] in Hst. rewrite !app_nil_r in Hst.
  change (Z.of_nat 0) with 0 in Hst.
  rewrite Hst by (by rewrite length_replicate, length_bytes_le). clear Hst.
  rewrite insert_insert_eq.
  rewrite Z.add_0_l, (wrap64_small (getNumBytes T)) by (destruct T; done).
  unfold pack. cbn [contents buffers memory content coordinateBuffer
                    coordinateBufferUsed coordinateSize].
  rewrite !lookup_insert_eq.
  destruct (Hpack c0 (bytes_le (Z.to_nat (getNumBytes T)) val)) as (data & Hpc); [done |].
  cbn [getComponentType c0] in Hpc. rewrite Hpc. clear Hpc.
  rewrite firstn_all2 by (by rewrite length_bytes_le).
  rewrite of_bytes_le_bytes_le by (rewrite Z2Nat.id; lia).
  do 6 eexists.
  split; [reflexivity |]. cbn [contents content].
  split; [apply lookup_insert_eq |].
  split; [reflexivity |]. split; [reflexivity |]. split; [reflexivity |].
  split; [reflexivity |].
  split.
  { unfold iterator_eq. cbn. by rewrite (bool_decide_eq_true_2 (lc = lc)). }
  split; [reflexivity |].
  unfold iterator_eq. cbn. by rewrite (bool_decide_eq_true_2 (lc = lc)).
Qed.

End ScalarProofs.

(** ** CSR arrays *)

(** C4.  A matrix made by [makeCSR] from three caller-owned arrays gives
    back, through [getCSRArrays], the very three pointers it was made
    from, and the caller's arrays are as they were.  Its index has a Dense
    outer level whose extent is the number of rows and a Compressed inner
    level whose position array counts rows + 1 entries; the position,
    coordinate and value arrays are the caller's, tagged as such. *)
Theorem makeCSR_getCSRArrays_same_arrays
    (T : DataType) (name : string) (rows cols : Z)
    (rowptr colidx vals : loc) (H : Heap) :
  is_Some (memory H !! rowptr) ->
  is_Some (memory H !! colidx) ->
  is_Some (memory H !! vals) ->
  exists tensor H' ct ext pos idx,
    makeCSR T name [rows; cols] rowptr colidx vals H = (inr tensor, H')
    /\ getCSRArrays tensor H' = inr (rowptr, colidx, vals)
    /\ memory H' !! rowptr = memory H !! rowptr
    /\ memory H' !! colidx = memory H !! colidx
    /\ memory H' !! vals = memory H !! vals
    /\ contents H' !! content tensor = Some ct
    /\ getModeTypes (getFormat ct) = [Dense; Sparse]
    /\ modeIndices (getIndex (getStorage ct))
       = [mkModeIndex [ext]; mkModeIndex [pos; idx]]
    /\ elems ext = [rows]
    /\ arraySize pos = rows + 1
    /\ (getData pos = rowptr /\ getPolicy pos = UserOwns)
    /\ (getData idx = colidx /\ getPolicy idx = UserOwns)
    /\ (getData (getValues (getStorage ct)) = vals
        /\ getPolicy (getValues (getStorage ct)) = UserOwns).
Proof.
  intros Hr Hc Hv.
  unfold makeCSR. cbn [length]. rewrite bool_decide_eq_true_2 by done. cbn [negb].
  unfold new_tensor, makeCSRIndex, setValues, setIndex.
  cbn [contents buffers memory content fst snd default lookup].
  do 6 eexists.
  split; [reflexivity |].
  assert (Hfresh : forall p, is_Some (memory H !! p) ->
            <[fresh (dom (memory H)) := [rows]]> (memory H) !! p = memory H !! p).
  { intros p Hp. apply lookup_insert_ne. intros Heq. rewrite <- Heq in Hp.
    apply (is_fresh (dom (memory H))). by apply elem_of_dom. }
  cbn [memory content contents].
  split.
  { unfold getCSRArrays. cbn [contents content].
    rewrite !lookup_alter_eq, lookup_insert_eq. cbn. reflexivity. }
  split; [by apply Hfresh |]. split; [by apply Hfresh |]. split; [by apply Hfresh |].
  split.
  { rewrite !lookup_alter_eq, lookup_insert_eq. cbn. reflexivity. }
  cbn. repeat split.
Qed.

(** ** The theorems at the example tensors *)

(** C10, at a packed vector with one Dense level: the constructor's call
    of [advanceIndex] passes [2^64 - 1], the wrapped [lvl - 1], to [ptrs],
    a vector of one element. *)
Lemma dense_outermost_level_indexes_ptrs_out_of_range (stray : Z -> Z) :
  packed example_dense = true
  /\ (1 <= getOrder example_dense)%nat
  /\ getModeTypes (getFormat example_dense) !! 0%nat = Some Dense
  /\ exists i,
       Access Ptrs i ∈ trace (snd (begin_ stray example_dense 0%nat))
       /\ ~ (0 <= i < Z.of_nat (getOrder example_dense)).
Proof.
  split; [reflexivity |]. split; [cbn; lia |]. split; [reflexivity |].
  exists (2 ^ 64 - 1). split; [| cbn; lia].
  unfold begin_, const_iterator_new, advanceIndex0.
  pose proof (dense_root_reads_ptrs_at_minus_one stray example_dense
                (init_fields example_dense 0%nat false)
                (mkArray Int32 0%nat 1 [2] Free)
                ltac:(cbn; lia) eq_refl eq_refl) as Hin.
  unfold bind.
  destruct (advanceIndex stray example_dense (getOrder example_dense) 0
              (init_fields example_dense 0%nat false)) as [[e | b] s1];
    exact Hin.
Qed.

(** The second call on the matrix [example_csr] produces its second
    pair. *)
Lemma advanceIndex_walks_depth_first_example :
  packed example_csr = true
  /\ exists s,
       calls (fun _ => 0) example_csr 1 (init_fields example_csr 0%nat false)
       = (inr tt, s)
       /\ exists s',
            advanceIndex (fun _ => 0) example_csr (getOrder example_csr) 0 s
            = (inr (bool_decide (1 < length (traversal example_csr))%nat), s')
            /\ forall x, traversal example_csr !! 1%nat = Some x -> curVal s' = x.
Proof.
  split; [reflexivity |].
  apply (advanceIndex_walks_depth_first (fun _ => 0) example_csr 0%nat false 1);
    [reflexivity | vm_compute; lia].
Defined.

(** The matrix [example_csr] has three pairs, as its index says. *)
Lemma iterator_sequence_has_getSize_elements_example :
  packed example_csr = true
  /\ Z.of_nat (length (traversal example_csr))
     = getSize (getIndex (getStorage example_csr)).
Proof.
  split; [reflexivity |].
  apply (iterator_sequence_has_getSize_elements (fun _ => 0) example_csr 0%nat).
  reflexivity.
Defined.

(** Two indices given to a vector: the call throws and nothing changes. *)
Lemma insert_rejects_before_writing_example :
  contents (snd example_vector) !! content (fst example_vector)
  = Some (mkContent "v" [3] Int32 (mkFormat [Sparse] [0]) (empty_storage Int32))
  /\ insert (fst example_vector) [1; 2] Int32 7 (snd example_vector)
     = (inl DimensionMismatch, (fst example_vector, snd example_vector)).
Proof.
  split; [reflexivity |].
  apply (insert_rejects_before_writing (fst example_vector) [1; 2] Int32 7
           (snd example_vector)
           (mkContent "v" [3] Int32 (mkFormat [Sparse] [0]) (empty_storage Int32)));
    [reflexivity | cbn; lia].
Defined.

(** A third record inserted into a buffer that holds two. *)
Lemma insert_appends_one_record_example :
  exists buf',
    insert (fst example_two_records) [1] Float64 3 (snd example_two_records)
    = (inr tt,
       (mkTensorBase (content (fst example_two_records))
          (coordinateBuffer (fst example_two_records))
          (coordinateBufferUsed (fst example_two_records)
           + coordinateSize (fst example_two_records))
          (coordinateSize (fst example_two_records)),
        mkHeap (contents (snd example_two_records))
          (<[coordinateBuffer (fst example_two_records) := buf']>
             (buffers (snd example_two_records)))
          (memory (snd example_two_records))))
    /\ Z.of_nat (length buf')
       = (if Z.of_nat (length [4; 0; 0; 0; 1; 0; 0; 0; 0; 0; 0; 0;
                               7; 0; 0; 0; 2; 0; 0; 0; 0; 0; 0; 0])
             - coordinateBufferUsed (fst example_two_records)
             <? coordinateSize (fst example_two_records)
          then Z.of_nat (length [4; 0; 0; 0; 1; 0; 0; 0; 0; 0; 0; 0;
                                 7; 0; 0; 0; 2; 0; 0; 0; 0; 0; 0; 0])
               + coordinateSize (fst example_two_records)
          else Z.of_nat (length [4; 0; 0; 0; 1; 0; 0; 0; 0; 0; 0; 0;
                                 7; 0; 0; 0; 2; 0; 0; 0; 0; 0; 0; 0]))
    /\ take (Z.to_nat (coordinateBufferUsed (fst example_two_records))) buf'
       = take (Z.to_nat (coordinateBufferUsed (fst example_two_records)))
              [4; 0; 0; 0; 1; 0; 0; 0; 0; 0; 0; 0;
               7; 0; 0; 0; 2; 0; 0; 0; 0; 0; 0; 0]
    /\ take (Z.to_nat (coordinateSize (fst example_two_records)))
            (drop (Z.to_nat (coordinateBufferUsed (fst example_two_records))) buf')
       = record_coordinates [1] ++ bytes_le (Z.to_nat (getNumBytes Float64)) 3.
Proof.
  apply (insert_appends_one_record (fst example_two_records) [1] Float64 3
           (snd example_two_records)
           (mkContent "w" [9] Float64 (mkFormat [Sparse] [0]) (empty_storage Float64)));
    [reflexivity | reflexivity | reflexivity | reflexivity | reflexivity
    | vm_compute; split; discriminate | vm_compute; reflexivity].
Defined.

(** The transpose of [example_csr]: the source is as it was, and the
    new buffer holds the three pairs with their coordinates swapped. *)
Lemma transpose_builds_new_tensor_example :
  let r := transpose (fun _ => 0) pack_nothing (fst example_matrix) Int32
             "B" [1; 0] CSR (snd example_matrix) in
  contents (snd example_matrix) !! content (fst example_matrix) = Some example_csr
  /\ packed example_csr = true
  /\ contents (snd r) !! content (fst example_matrix) = Some example_csr
  /\ exists newTensor,
       fst r = inr newTensor
       /\ buffers (snd r) !! coordinateBuffer newTensor
          = Some [0; 0; 0; 0; 0; 0; 0; 0; 1; 0; 0; 0;
                  2; 0; 0; 0; 0; 0; 0; 0; 2; 0; 0; 0;
                  1; 0; 0; 0; 2; 0; 0; 0; 3; 0; 0; 0].
Proof.
  cbn zeta.
  destruct (transpose_builds_new_tensor (fun _ => 0) pack_nothing (fst example_matrix)
              Int32 "B" [1; 0] CSR (snd example_matrix) example_csr
              ltac:(reflexivity) ltac:(by eexists))
    as ((Hsrc & _) & _ & Hpacked).
  specialize (Hpacked ltac:(reflexivity) ltac:(vm_compute; reflexivity)).
  unfold pack_nothing in Hpacked. cbv beta iota in Hpacked.
  destruct Hpacked as (newTensor & Hr & _ & _ & Hbuf).
  split; [reflexivity |]. split; [reflexivity |]. split; [exact Hsrc |].
  exists newTensor. split; [exact Hr |].
  etransitivity; [exact Hbuf | vm_compute; reflexivity].
Defined.

(** [pack_scalars_only] packs order-0 tensors as specified. *)
Lemma packs_scalars_only_packs_scalars : packs_scalars pack_scalars_only.
Proof.
  intros c buf Hord. exists 0%nat. unfold pack_scalars_only.
  by rewrite bool_decide_eq_true_2.
Defined.

(** The scalar 42. *)
Lemma scalar_tensor_iterates_once_example :
  exists this H' c b e b',
    TensorBase_scalar pack_scalars_only "s" Int32 42 empty_heap = (inr this, H')
    /\ contents H' !! content this = Some c
    /\ getOrder c = 0%nat
    /\ begin_ (fun _ => 0) c (content this) = (inr tt, b)
    /\ end_ (fun _ => 0) c (content this) = (inr tt, e)
    /\ curVal b = ([], 42)
    /\ iterator_eq b e = false
    /\ increment (fun _ => 0) c b = (inr tt, b')
    /\ iterator_eq b' e = true.
Proof.
  apply (scalar_tensor_iterates_once (fun _ => 0) pack_scalars_only "s" Int32 42
           empty_heap packs_scalars_only_packs_scalars).
  vm_compute. split; [discriminate | reflexivity].
Defined.

(** The arrays at the addresses 10, 11 and 12 made into a matrix and
    read back. *)
Lemma makeCSR_getCSRArrays_same_arrays_example :
  exists tensor H',
    makeCSR Int32 "A" [3; 3] 10%nat 11%nat 12%nat example_memory = (inr tensor, H')
    /\ getCSRArrays tensor H' = inr (10%nat, 11%nat, 12%nat).
Proof.
  destruct (makeCSR_getCSRArrays_same_arrays Int32 "A" 3 3 10%nat 11%nat 12%nat
              example_memory ltac:(by eexists) ltac:(by eexists) ltac:(by eexists))
    as (tensor & H' & ct & ext & pos & idx & Hm & Hg & _).
  exists tensor, H'. split; [exact Hm | exact Hg].
Defined.

(** * Further properties of the code *)

(** ** What a call of [advanceIndex] leaves alone, on every tensor *)

Lemma length_zupdate (l : list Z) i x : length (zupdate l i x) = length l.
Proof.
  unfold zupdate. destruct (_ && _); [apply length_insert | done].
Qed.

Lemma kept_refl P s : kept P s s.
Proof.
  repeat split; try done. exists []. split; [by rewrite app_nil_r | done].
Qed.

Lemma kept_trans P s1 s2 s3 : kept P s1 s2 -> kept P s2 s3 -> kept P s1 s3.
Proof.
  intros (A1 & A2 & A3 & A4 & A5 & ev1 & A6 & A7) (B1 & B2 & B3 & B4 & B5 & ev2 & B6 & B7).
  repeat split; try congruence.
  exists (ev1 ++ ev2). split; [by rewrite B6, A6, app_assoc |].
  by apply Forall_app.
Qed.

Lemma kept_weaken (P Q : Event -> Prop) s s' :
  (forall e, P e -> Q e) -> kept P s s' -> kept Q s s'.
Proof.
  intros HPQ (A1 & A2 & A3 & A4 & A5 & ev & A6 & A7).
  repeat split; try done. exists ev. split; [done |].
  eapply Forall_impl; [exact A7 | exact HPQ].
Qed.

Section Keeps.

Variable stray : Z -> Z.
Variable t : Content.
Variable P : Event -> Prop.

Local Open Scope iter_scope.

Lemma keeps_pure {A} (m : M A) :
  (forall s, tensor (snd (m s)) = tensor s /\ count (snd (m s)) = count s
             /\ length (coord (snd (m s))) = length (coord s)
             /\ length (ptrs (snd (m s))) = length (ptrs s)
             /\ length (fst (curVal (snd (m s)))) = length (fst (curVal s))
             /\ trace (snd (m s)) = trace s) ->
  keeps P m.
Proof.
  intros H s. destruct (H s) as (A1 & A2 & A3 & A4 & A5 & A6).
  repeat split; try done. exists []. split; [by rewrite app_nil_r | done].
Qed.

Lemma keeps_ret {A} (a : A) : keeps P (ret a).
Proof. intros s. apply kept_refl. Qed.

Lemma keeps_fail {A} (e : Error) : keeps P (@fail A e).
Proof. intros s. apply kept_refl. Qed.

Lemma keeps_lift {A} (r : Error + A) : keeps P (lift r).
Proof. destruct r; [apply keeps_fail | apply keeps_ret]. Qed.

Lemma keeps_bind {A B} (m : M A) (k : A -> M B) :
  keeps P m -> (forall a, keeps P (k a)) -> keeps P (bind m k).
Proof.
  intros Hm Hk s. specialize (Hm s). unfold bind.
  destruct (m s) as [[e | a] s1]; cbn [snd] in *; [exact Hm |].
  eapply kept_trans; [exact Hm | apply Hk].
Qed.

Lemma keeps_ext {A} (m m' : M A) : (forall s, m s = m' s) -> keeps P m' -> keeps P m.
Proof. intros H Hk s. rewrite H. apply Hk. Qed.

Lemma keeps_emit e : P e -> keeps P (emit e).
Proof.
  intros He s. repeat split; try done. exists [e]. split; [done |].
  by apply Forall_singleton.
Qed.

Lemma keeps_read v i : P (Access v i) -> keeps P (read stray v i).
Proof.
  intros He. apply keeps_bind; [by apply keeps_emit |]. intros _.
  by apply keeps_pure.
Qed.

Lemma keeps_write v i x : P (Access v i) -> keeps P (write v i x).
Proof.
  intros He. apply keeps_bind; [by apply keeps_emit |]. intros _.
  apply keeps_pure. intros s. destruct v; cbn; by rewrite ?length_zupdate.
Qed.

Lemma keeps_incr v i : P (Access v i) -> keeps P (incr v i).
Proof.
  intros He. apply keeps_bind; [by apply keeps_emit |]. intros _.
  apply keeps_pure. intros s.
  destruct v; cbn; destruct (zlookup _ i); cbn; by rewrite ?length_zupdate.
Qed.

Lemma keeps_for_each {A} (l : list A) (body : A -> M unit) :
  (forall x, x ∈ l -> keeps P (body x)) -> keeps P (for_each l body).
Proof.
  induction l as [| x l IH]; intros Hb; cbn.
  - apply keeps_ret.
  - apply keeps_bind; [apply Hb; by left |].
    intros _. apply IH. intros y Hy. apply Hb. by right.
Qed.

Hypothesis P_visit : forall l, P (Visit l).
Hypothesis P_level : forall v (i : nat), (i < getOrder t)%nat -> P (Access v (Z.of_nat i)).
Hypothesis P_parent : forall lvl : nat,
  (0 < lvl <= getOrder t)%nat -> P (Access Ptrs (wrap64 (Z.of_nat lvl - 1))).
Hypothesis P_root :
  (0 < getOrder t)%nat -> getModeTypes (getFormat t) !! 0%nat = Some Dense ->
  P (Access Ptrs (wrap64 (Z.of_nat 0 - 1))).

Lemma keeps_leaf lvl : (lvl <= getOrder t)%nat -> keeps P (leaf stray t lvl).
Proof.
  intros Hlvl. unfold leaf.
  apply keeps_bind; [by apply keeps_pure |].
  intros [|].
  - apply keeps_bind; [by apply keeps_pure |]. intros _. apply keeps_ret.
  - apply keeps_bind.
    { destruct (decide (lvl = 0%nat)); [apply keeps_ret |].
      apply keeps_read, P_parent. lia. }
    intros idx.
    apply keeps_bind; [by apply keeps_pure |]. intros _.
    apply keeps_bind.
    { apply keeps_for_each. intros i Hi. apply elem_of_seq in Hi.
      apply keeps_bind; [apply keeps_read, P_level; lia |]. intros c.
      apply keeps_pure. intros s. cbn. by rewrite length_zupdate. }
    intros _.
    apply keeps_bind; [by apply keeps_pure |]. intros _. apply keeps_ret.
Qed.

Lemma keeps_level_loop var hi other rec lvl :
  (lvl < getOrder t)%nat -> keeps P rec -> forall fuel resuming,
  keeps P (level_loop stray var hi other rec lvl fuel resuming).
Proof.
  intros Hlvl Hrec. induction fuel as [| fuel IH]; intros resuming; cbn [level_loop].
  - apply keeps_fail.
  - apply keeps_bind.
    { destruct resuming; [apply keeps_ret |].
      apply keeps_bind; [by apply keeps_read, P_level |]. intros j.
      destruct (j <? hi); [| apply keeps_ret].
      apply keeps_bind; [by apply keeps_read, P_level |]. intros j'.
      apply keeps_bind; [by apply keeps_write, P_level |]. intros _. apply keeps_ret. }
    intros [|]; [| apply keeps_ret].
    apply keeps_bind; [exact Hrec |].
    intros [|]; [apply keeps_ret |].
    apply keeps_bind; [by apply keeps_incr, P_level |]. intros _. apply IH.
Qed.

Lemma keeps_advanceIndex : forall fuel lvl,
  (lvl <= getOrder t)%nat -> keeps P (advanceIndex stray t fuel lvl).
Proof.
  induction fuel as [| fuel IH]; intros lvl Hlvl; cbn [advanceIndex].
  - apply keeps_bind; [by apply keeps_emit |]. intros _.
    destruct (decide (lvl = getOrder t)); [by apply keeps_leaf | apply keeps_fail].
  - apply keeps_bind; [by apply keeps_emit |]. intros _.
    destruct (decide (lvl = getOrder t)) as [Heq | Hne]; [by apply keeps_leaf |].
    assert (Hrec : keeps P (advanceIndex stray t fuel (S lvl))) by (apply IH; lia).
    destruct (getModeTypes (getFormat t) !! lvl) as [[| |] |] eqn:Emt.
    + apply keeps_bind; [apply keeps_lift |]. intros a0.
      apply keeps_bind.
      { apply keeps_read. destruct lvl as [| l].
        - apply P_root; [lia | exact Emt].
        - apply P_parent. lia. }
      intros p.
      apply keeps_bind; [by apply keeps_pure |]. intros adv.
      destruct adv.
      * eapply keeps_ext; [intros s; apply dense_loop_level |].
        apply keeps_level_loop; [lia | exact Hrec].
      * apply keeps_bind; [apply keeps_write, P_level; lia |]. intros _.
        eapply keeps_ext; [intros s; apply dense_loop_level |].
        apply keeps_level_loop; [lia | exact Hrec].
    + apply keeps_bind; [apply keeps_lift |]. intros pos.
      apply keeps_bind; [apply keeps_lift |]. intros idx.
      apply keeps_bind.
      { destruct (decide (lvl = 0%nat)); [apply keeps_ret |].
        apply keeps_read, P_parent. lia. }
      intros k.
      apply keeps_bind; [by apply keeps_pure |]. intros adv.
      destruct adv.
      * eapply keeps_ext; [intros s; apply sparse_loop_level |].
        apply keeps_level_loop; [lia | exact Hrec].
      * apply keeps_bind; [apply keeps_write, P_level; lia |]. intros _.
        eapply keeps_ext; [intros s; apply sparse_loop_level |].
        apply keeps_level_loop; [lia | exact Hrec].
    + apply keeps_fail.
    + apply keeps_fail.
Qed.

End Keeps.


(** X5.  On every tensor of fewer than 2^64 modes and from every state, a
    call of [advanceIndex(0)] passes to [operator[]] of [coord] and
    [ptrs] only indices below the order, but for the index [2^64 - 1]
    that the Dense branch passes to [ptrs] at level 0.  When level 0 is
    not Dense, every index is below the order. *)
Theorem advanceIndex_indices_below_order
    (stray : Z -> Z) (t : Content) (fuel : nat) (s : const_iterator) :
  Z.of_nat (getOrder t) < 2 ^ 64 ->
  exists ev,
    trace (snd (advanceIndex stray t fuel 0 s)) = trace s ++ ev
    /\ Forall (fun e => in_bounds (getOrder t) e
                        \/ (e = Access Ptrs (2 ^ 64 - 1)
                            /\ getModeTypes (getFormat t) !! 0%nat = Some Dense)) ev
    /\ (getModeTypes (getFormat t) !! 0%nat <> Some Dense ->
        Forall (in_bounds (getOrder t)) ev).
Proof.
  intros Hord.
  destruct (keeps_advanceIndex stray t
              (fun e => in_bounds (getOrder t) e
                        \/ (e = Access Ptrs (2 ^ 64 - 1)
                            /\ getModeTypes (getFormat t) !! 0%nat = Some Dense)))
    with (fuel := fuel) (lvl := 0%nat) (s := s)
    as (_ & _ & _ & _ & _ & ev & Htr & Hev).
  - intros l. by left.
  - intros v i Hi. left. cbn. lia.
  - intros lvl Hlvl. left. cbn. rewrite wrap64_small by lia. lia.
  - intros Hpos Hd. right. split; [| exact Hd]. f_equal.
  - lia.
  - exists ev. split; [exact Htr |]. split; [exact Hev |].
    intros Hnd. eapply Forall_impl; [exact Hev |].
    intros e [He | [_ Hd]]; [exact He | done].
Qed.

(** ** What a call of [advanceIndex] does not look at *)

Section Blind.

Variable stray : Z -> Z.
Variable t : Content.

Local Open Scope iter_scope.

Lemma blind_ret {A} (a : A) : blind (ret a).
Proof. done. Qed.

Lemma blind_fail {A} (e : Error) : blind (@fail A e).
Proof. done. Qed.

Lemma blind_lift {A} (r : Error + A) : blind (lift r).
Proof. by destruct r. Qed.

Lemma blind_bind {A B} (m : M A) (k : A -> M B) :
  blind m -> (forall a, blind (k a)) -> blind (bind m k).
Proof.
  intros Hm Hk tp c s. unfold bind. rewrite Hm.
  destruct (m s) as [[e | a] s1]; cbn [fst snd]; [done |]. apply Hk.
Qed.

Lemma blind_ext {A} (m m' : M A) : (forall s, m s = m' s) -> blind m' -> blind m.
Proof. intros H Hb tp c s. rewrite !H. apply Hb. Qed.

Lemma blind_emit e : blind (emit e).
Proof. done. Qed.

Lemma blind_read v i : blind (read stray v i).
Proof. intros tp c s. by destruct v. Qed.

Lemma blind_write v i x : blind (write v i x).
Proof. intros tp c s. by destruct v. Qed.

Lemma blind_incr v i : blind (incr v i).
Proof. intros tp c s. by destruct v. Qed.

Lemma blind_for_each {A} (l : list A) (body : A -> M unit) :
  (forall x, blind (body x)) -> blind (for_each l body).
Proof.
  intros Hb. induction l as [| x l IH]; cbn.
  - apply blind_ret.
  - apply blind_bind; [apply Hb | intros _; exact IH].
Qed.

Lemma blind_leaf lvl : blind (leaf stray t lvl).
Proof.
  unfold leaf.
  apply blind_bind; [done |].
  intros [|].
  - apply blind_bind; [done |]. intros _. apply blind_ret.
  - apply blind_bind.
    { destruct (decide (lvl = 0%nat)); [apply blind_ret | apply blind_read]. }
    intros idx.
    apply blind_bind; [done |]. intros _.
    apply blind_bind.
    { apply blind_for_each. intros i.
      apply blind_bind; [apply blind_read |]. intros c. done. }
    intros _.
    apply blind_bind; [done |]. intros _. apply blind_ret.
Qed.

Lemma blind_level_loop var hi other rec lvl :
  blind rec -> forall fuel resuming,
  blind (level_loop stray var hi other rec lvl fuel resuming).
Proof.
  intros Hrec. induction fuel as [| fuel IH]; intros resuming; cbn [level_loop].
  - apply blind_fail.
  - apply blind_bind.
    { destruct resuming; [apply blind_ret |].
      apply blind_bind; [apply blind_read |]. intros j.
      destruct (j <? hi); [| apply blind_ret].
      apply blind_bind; [apply blind_read |]. intros j'.
      apply blind_bind; [apply blind_write |]. intros _. apply blind_ret. }
    intros [|]; [| apply blind_ret].
    apply blind_bind; [exact Hrec |].
    intros [|]; [apply blind_ret |].
    apply blind_bind; [apply blind_incr |]. intros _. apply IH.
Qed.

Lemma blind_advanceIndex : forall fuel lvl, blind (advanceIndex stray t fuel lvl).
Proof.
  induction fuel as [| fuel IH]; intros lvl; cbn [advanceIndex].
  - apply blind_bind; [apply blind_emit |]. intros _.
    destruct (decide (lvl = getOrder t)); [apply blind_leaf | apply blind_fail].
  - apply blind_bind; [apply blind_emit |]. intros _.
    destruct (decide (lvl = getOrder t)); [apply blind_leaf |].
    destruct (getModeTypes (getFormat t) !! lvl) as [[| |] |].
    + apply blind_bind; [apply blind_lift |]. intros a0.
      apply blind_bind; [apply blind_read |]. intros p.
      apply blind_bind; [done |]. intros adv.
      destruct adv.
      * eapply blind_ext; [intros s; apply dense_loop_level |].
        by apply blind_level_loop.
      * apply blind_bind; [apply blind_write |]. intros _.
        eapply blind_ext; [intros s; apply dense_loop_level |].
        by apply blind_level_loop.
    + apply blind_bind; [apply blind_lift |]. intros pos.
      apply blind_bind; [apply blind_lift |]. intros idx.
      apply blind_bind.
      { destruct (decide (lvl = 0%nat)); [apply blind_ret | apply blind_read]. }
      intros k.
      apply blind_bind; [done |]. intros adv.
      destruct adv.
      * eapply blind_ext; [intros s; apply sparse_loop_level |].
        by apply blind_level_loop.
      * apply blind_bind; [apply blind_write |]. intros _.
        eapply blind_ext; [intros s; apply sparse_loop_level |].
        by apply blind_level_loop.
    + apply blind_fail.
    + apply blind_fail.
Qed.

(** The count after [k] calls of [advanceIndex()] that returned. *)
Lemma calls_count : forall (k : nat) s0 s c0,
  calls stray t k s0 = (inr tt, s) -> count s0 = wrap64 c0 ->
  tensor s = tensor s0 /\ count s = wrap64 (c0 + Z.of_nat k).
Proof.
  induction k as [| k IH]; intros s0 s c0 Hrun Hc0.
  - inversion Hrun; subst s. by rewrite Z.add_0_r.
  - cbn [calls] in Hrun.
    destruct (calls stray t k s0) as [[e | []] s1] eqn:Ek; [discriminate Hrun |].
    destruct (IH s0 s1 c0 Ek Hc0) as [Ht Hc].
    unfold advanceIndex0, bind in Hrun.
    pose proof (keeps_advanceIndex stray t (fun _ => True)
                  ltac:(done) ltac:(done) ltac:(done) ltac:(done)
                  (getOrder t) 0%nat ltac:(lia) s1) as (A1 & A2 & _).
    destruct (advanceIndex stray t (getOrder t) 0 s1) as [[e | b] s2];
      [discriminate Hrun |].
    cbn [snd] in A1, A2. inversion Hrun; subst s. cbn.
    split; [congruence |].
    rewrite A2, Hc. unfold wrap64. rewrite Zplus_mod_idemp_l. f_equal. lia.
Qed.

End Blind.

Lemma wrap64_add_cancel a x y :
  wrap64 (a + x) = wrap64 (a + y) <-> wrap64 x = wrap64 y.
Proof.
  unfold wrap64. split; intros H.
  - replace x with (a + x - a) by lia. replace y with (a + y - a) by lia.
    by rewrite <- (Zminus_mod_idemp_l (a + x)), H, Zminus_mod_idemp_l.
  - by rewrite <- (Zplus_mod_idemp_r x), H, Zplus_mod_idemp_r.
Qed.

(** X4.  On every tensor, [end()] runs as [begin()] does: the
    constructor calls [advanceIndex()] whatever [isEnd] is, so both throw
    or neither, and [*end()] is the pair that [*begin()] is; only the
    counts differ. *)
Theorem end_holds_the_pair_of_begin (stray : Z -> Z) (t : Content) (tp : loc) :
  let b := begin_ stray t tp in
  let e := end_ stray t tp in
  fst e = fst b
  /\ deref (snd e) = deref (snd b)
  /\ coord (snd e) = coord (snd b)
  /\ ptrs (snd e) = ptrs (snd b)
  /\ advance (snd e) = advance (snd b)
  /\ tensor (snd e) = tensor (snd b).
Proof.
  cbn zeta. unfold begin_, end_, const_iterator_new, advanceIndex0, bind.
  change (init_fields t tp true)
    with (relabel tp (wrap64 (1 + Z.b2z true * getSize (getIndex (getStorage t))))
            (init_fields t tp false)).
  rewrite (blind_advanceIndex stray t (getOrder t) 0).
  pose proof (keeps_advanceIndex stray t (fun _ => True)
                ltac:(done) ltac:(done) ltac:(done) ltac:(done)
                (getOrder t) 0%nat ltac:(lia) (init_fields t tp false)) as (A1 & _).
  destruct (advanceIndex stray t (getOrder t) 0 (init_fields t tp false))
    as [[e | b] s1]; cbn in *; by rewrite A1.
Qed.

(** X6.  On every tensor, whatever its index holds: when the
    constructors and the increments return, [begin()] incremented [k]
    times equals [end()] exactly when [k] is [Index.getSize()] modulo
    2^64.  Equality counts calls; it does not look at the position. *)
Theorem equality_counts_the_increments
    (stray : Z -> Z) (t : Content) (tp : loc) (k : nat) (b e : const_iterator) :
  advanced stray t tp k = (inr tt, b) ->
  end_ stray t tp = (inr tt, e) ->
  iterator_eq b e
  = bool_decide (wrap64 (Z.of_nat k) = wrap64 (getSize (getIndex (getStorage t)))).
Proof.
  intros Hb He.
  destruct (calls_count stray t (S k) (init_fields t tp false) b
              (1 + Z.b2z false * getSize (getIndex (getStorage t))) Hb eq_refl)
    as [Htb Hcb].
  destruct (calls_count stray t 1 (init_fields t tp true) e
              (1 + Z.b2z true * getSize (getIndex (getStorage t))) He eq_refl)
    as [Hte Hce].
  unfold iterator_eq. rewrite Htb, Hte, Hcb, Hce. cbn [init_fields tensor Z.b2z].
  rewrite bool_decide_eq_true_2 by done. cbn [andb].
  apply bool_decide_ext.
  replace (1 + 0 * getSize (getIndex (getStorage t)) + Z.of_nat (S k))
    with (2 + Z.of_nat k) by lia.
  replace (1 + 1 * getSize (getIndex (getStorage t)) + Z.of_nat 1)
    with (2 + getSize (getIndex (getStorage t))) by lia.
  apply wrap64_add_cancel.
Qed.

(** ** Iterating a packed tensor *)

Lemma map_flat_map {A B C} (g : B -> C) (f : A -> list B) (l : list A) :
  map g (flat_map f l) = flat_map (fun x => map g (f x)) l.
Proof.
  induction l as [| x l IH]; cbn; [done |]. by rewrite map_app, IH.
Qed.

Lemma flat_map_map {A B C} (f : B -> list C) (h : A -> B) (l : list A) :
  flat_map f (map h l) = flat_map (fun x => f (h x)) l.
Proof. induction l as [| x l IH]; cbn; [done |]. by rewrite IH. Qed.

Lemma flat_map_flat_map {A B C} (f : B -> list C) (g : A -> list B) (l : list A) :
  flat_map f (flat_map g l) = flat_map (fun x => flat_map f (g x)) l.
Proof.
  induction l as [| x l IH]; cbn; [done |]. by rewrite flat_map_app, IH.
Qed.

Lemma flat_map_singleton {A} (l : list A) : flat_map (fun x => [x]) l = l.
Proof. induction l as [| x l IH]; cbn; [done |]. by rewrite IH. Qed.

Lemma offset_from_cons p x y : offset_from p (x :: y) = offset_from (snd x) y.
Proof.
  unfold offset_from. cbn [map]. rewrite last_cons.
  by destruct (last (map snd y)).
Qed.

(** The leaves below the parents [0 .. n-1] end, in order, at the
    positions [0 .. stored-1] of the last level. *)
Lemma offsets_all_walks : forall ls n,
  wf_levels ls n = true -> 0 <= n ->
  flat_map (fun p => map (offset_from p) (walk ls p)) (seqZ 0 n)
  = seqZ 0 (stored ls n).
Proof.
  induction ls as [| L ls IH]; intros n Hwf Hn.
  - cbn [walk stored map]. apply flat_map_singleton.
  - rewrite (flat_map_ext _
      (fun q => flat_map (fun p => map (offset_from p) (walk ls p))
                  (map (fun j => snd (elem_of_level L q j))
                       (seqZ (lo_of L q) (hi_of L q - lo_of L q))))).
    2:{ intros q. rewrite walk_cons, map_flat_map, flat_map_map.
        apply flat_map_ext. intros j. unfold segment.
        rewrite map_map. apply map_ext. intros y. apply offset_from_cons. }
    rewrite <- flat_map_flat_map.
    destruct L as [e | pos idx]; cbn [lo_of hi_of elem_of_level snd stored].
    + apply wf_dense in Hwf as (He & Hne & Hwf).
      rewrite <- (Z2Nat.id n) at 1 by lia.
      rewrite (flat_map_ext (fun q => map (fun j => q * e + j) (seqZ 0 (e - 0)))
                 (fun q => map (fun j => q * e + j) (seqZ 0 e)))
        by (intros q; by rewrite Z.sub_0_r).
      rewrite dense_children by lia. rewrite Z2Nat.id by lia.
      apply IH; [exact Hwf | nia].
    + apply wf_sparse in Hwf as (Hlenp & Hnd & Hp0 & Hpn & Hleni & Hall & Hwf).
      rewrite <- (Z2Nat.id n) at 1 by lia.
      rewrite sparse_children by (try done; lia). rewrite Z2Nat.id by lia.
      apply IH; [exact Hwf |].
      rewrite <- Hp0. apply nondecreasing_at; [done | lia | lia].
Qed.

Lemma walk_offsets ls :
  wf_levels ls 1 = true -> map leaf_offset (walk ls 0) = seqZ 0 (stored ls 1).
Proof.
  intros Hwf. rewrite <- (offsets_all_walks ls 1 Hwf) by lia.
  rewrite (seqZ_cons 0 1), seqZ_nil by lia. cbn [flat_map]. by rewrite app_nil_r.
Qed.

Lemma map_at_seqZ (l : list Z) : map (at_ l) (seqZ 0 (Z.of_nat (length l))) = l.
Proof.
  apply list_eq. intros i. rewrite list_lookup_fmap.
  destruct (decide (i < length l)%nat) as [Hi | Hi].
  - rewrite lookup_seqZ_lt by lia. cbn. unfold at_.
    rewrite Z.add_0_l, zlookup_nat.
    destruct (lookup_lt_is_Some_2 l i Hi) as [x Hx]. by rewrite Hx.
  - rewrite lookup_seqZ_ge by lia. cbn. symmetry. apply lookup_ge_None. lia.
Qed.

Section PackedIteration.

Variable stray : Z -> Z.
Variable t : Content.

(** The values of the traversal are the value array. *)
Lemma traversal_values :
  packed t = true ->
  map snd (traversal t) = elems (getValues (getStorage t)).
Proof.
  intros Hp.
  destruct (packed_inv t Hp) as (Ls & HLs & HlenLs & Hord & Hperm & Hwf & Hsize & Hvals).
  unfold traversal. rewrite HLs, map_map. cbn [produced snd].
  rewrite <- (map_map leaf_offset (at_ (elems (getValues (getStorage t))))).
  rewrite walk_offsets by done. rewrite <- Hvals. apply map_at_seqZ.
Qed.

Lemma traversal_orders :
  packed t = true ->
  Forall (fun x : list Z * Z => length (fst x) = getOrder t) (traversal t).
Proof.
  intros Hp.
  destruct (packed_inv t Hp) as (Ls & HLs & HlenLs & Hord & Hperm & Hwf & Hsize & Hvals).
  apply Forall_lookup. intros k x Hx.
  unfold traversal in Hx. rewrite HLs, list_lookup_fmap in Hx.
  destruct (walk Ls 0 !! k) as [y |] eqn:Ey; [| discriminate Hx].
  inversion Hx; subst x. pose proof (lookup_lt_Some _ _ _ Ey) as Hk.
  destruct (calls_rest stray t Ls 0%nat false Hp HLs (S k)) as (s & _ & _ & _ & Hr); [lia |].
  destruct (Hr ltac:(lia)) as (_ & _ & Hlen & _ & y' & Hy' & _ & _ & _ & Hcv).
  rewrite Hcv in Hlen. congruence.
Qed.

Lemma range_for_S fuel it e out :
  range_for stray t (S fuel) it e out
  = if iterator_neq it e then
      match increment stray t it with
      | (inr _, it') => range_for stray t fuel it' e (out ++ [deref it])
      | (inl err, _) => inl err
      end
    else inr out.
Proof. reflexivity. Qed.

Lemma range_for_from (tp : loc) e :
  packed t = true -> end_ stray t tp = (inr tt, e) ->
  forall (j k : nat) fuel b out,
    (k + j = length (traversal t))%nat -> (j < fuel)%nat ->
    advanced stray t tp k = (inr tt, b) ->
    range_for stray t fuel b e out = inr (out ++ drop k (traversal t)).
Proof.
  intros Hp He.
  destruct (advanced_packed stray t tp Hp) as (e' & He' & Hiter).
  rewrite He in He'. inversion He'; subst e'. clear He'.
  induction j as [| j IH]; intros k fuel b out Hk Hfuel Hb;
    (destruct fuel as [| fuel]; [lia |]);
    destruct (Hiter k ltac:(lia)) as (b0 & Hb0 & Heq & Hcur & Hinc);
    rewrite Hb in Hb0; inversion Hb0; subst b0; clear Hb0;
    rewrite range_for_S; unfold iterator_neq; rewrite Heq.
  - rewrite bool_decide_eq_true_2 by lia. cbn [negb].
    rewrite drop_ge by lia. by rewrite app_nil_r.
  - rewrite bool_decide_eq_false_2 by lia. cbn [negb].
    destruct (lookup_lt_is_Some_2 (traversal t) k ltac:(lia)) as [x Hx].
    rewrite Hinc.
    destruct (Hiter (S k) ltac:(lia)) as (b' & Hb' & _). rewrite Hb'.
    rewrite (IH (S k) fuel b' _ ltac:(lia) ltac:(lia) Hb').
    unfold deref. rewrite (Hcur x Hx), (drop_S _ _ _ Hx).
    by rewrite <- app_assoc.
Qed.

(** X1.  A loop [for (const auto& value : tensor)] over a packed tensor
    returns after [Index.getSize()] iterations.  The values it reads are
    the entries of the value array, each once and in the order of the
    array, and every coordinate vector has as many entries as the tensor
    has modes. *)
Theorem range_for_reads_the_value_array (tp : loc) (fuel : nat) :
  packed t = true ->
  getSize (getIndex (getStorage t)) < Z.of_nat fuel ->
  exists b e values,
    begin_ stray t tp = (inr tt, b)
    /\ end_ stray t tp = (inr tt, e)
    /\ range_for stray t fuel b e [] = inr values
    /\ Z.of_nat (length values) = getSize (getIndex (getStorage t))
    /\ map snd values = elems (getValues (getStorage t))
    /\ Forall (fun x : list Z * Z => length (fst x) = getOrder t) values.
Proof.
  intros Hp Hfuel.
  pose proof (length_traversal t Hp) as Hlen.
  destruct (advanced_packed stray t tp Hp) as (e & He & Hiter).
  destruct (Hiter 0%nat ltac:(lia)) as (b & Hb & _).
  exists b, e, (traversal t).
  split; [exact Hb |]. split; [exact He |].
  split.
  { rewrite (range_for_from tp e Hp He (length (traversal t)) 0 fuel b [])
      by (done || lia).
    by rewrite drop_0. }
  split; [exact Hlen |].
  split; [by apply traversal_values | by apply traversal_orders].
Qed.

Lemma calls_add (a : nat) s s1 : forall b : nat,
  calls stray t a s = (inr tt, s1) ->
  calls stray t (a + b) s = calls stray t b s1.
Proof.
  intros b Ha. induction b as [| b IH].
  - by rewrite Nat.add_0_r.
  - rewrite Nat.add_succ_r, !calls_S, IH. done.
Qed.

(** The calls from an iterator that rests before the first leaf: after
    the call that returns [false] it rests there again. *)
Lemma calls_from Ls s0 :
  packed t = true -> levels t = Some Ls ->
  rests t Ls (walk Ls 0) 0 s0 ->
  forall k, (k <= S (length (walk Ls 0)))%nat ->
  exists s,
    calls stray t k s0 = (inr tt, s)
    /\ rests t Ls (walk Ls 0)
         (if decide (k = S (length (walk Ls 0))) then 0%nat else k) s.
Proof.
  intros Hp HLs H0.
  induction k as [| k IH]; intros Hk.
  - exists s0. split; [done |]. by rewrite decide_False by lia.
  - destruct IH as (s & Hrun & Hrests); [lia |].
    rewrite decide_False in Hrests by lia.
    pose proof (call_outcome stray t Ls k s Hp HLs Hrests) as (s' & Hcall & Hframe & Hout).
    rewrite calls_S, Hrun. unfold advanceIndex0.
    erewrite bind_run by exact Hcall.
    eexists. split; [reflexivity |]. cbn.
    destruct Hframe as (Ht & Hc & Hlc & Hlp & _).
    destruct Hrests as (Hlc0 & Hlp0 & Hcur0 & _).
    destruct (drop k (walk Ls 0)) as [| z zs] eqn:Ed.
    { assert (k = length (walk Ls 0)).
      { apply (f_equal length) in Ed. rewrite length_drop in Ed. cbn in Ed. lia. }
      rewrite decide_True by lia. destruct Hout as [Hadv Hcv].
      split; [cbn; by rewrite Hlc |]. split; [cbn; by rewrite Hlp |].
      split; [cbn; by rewrite Hcv |]. exact Hadv. }
    assert (Hz : walk Ls 0 !! k = Some z).
    { rewrite <- (Nat.add_0_r k), <- lookup_drop, Ed. done. }
    rewrite decide_False by (apply lookup_lt_Some in Hz; lia).
    destruct Hout as (Hadv & Hat & Hval & Hrest & Hcv).
    assert (Hcoord : coord s' = map fst z) by (destruct Hat as [A _]; by rewrite drop_0 in A).
    assert (Hptrs : ptrs s' = map snd z) by (destruct Hat as [_ A]; by rewrite drop_0 in A).
    assert (Hprod : curVal s' = produced t z).
    { rewrite Hcv, Hcoord, Hptrs. by eapply leaf_cur_produced. }
    split; [cbn; by rewrite Hlc |]. split; [cbn; by rewrite Hlp |].
    split.
    { cbn. rewrite Hprod. unfold produced, permute_back. cbn.
      rewrite length_map, length_seq, <- Hcoord. by rewrite Hlc. }
    split; [exact Hadv |].
    exists z. split; [exact Hz |]. split; [exact Hat |]. split; [exact Hval |].
    split; [| exact Hprod].
    rewrite Hrest. rewrite (drop_S _ _ _ Hz) in Ed. by inversion Ed.
Qed.

(** X2.  An iterator over a packed tensor that is incremented past the
    last pair does not fail: the call after the last pair returns
    [false] and the next one produces the first pair again.  With [n]
    pairs, call number [m * (n + 1) + k] does what call number [k]
    does. *)
Theorem advanceIndex_starts_over_after_the_end
    (tp : loc) (isEnd : bool) (m k : nat) :
  packed t = true ->
  (k <= length (traversal t))%nat ->
  exists s,
    calls stray t (m * S (length (traversal t)) + k) (init_fields t tp isEnd)
    = (inr tt, s)
    /\ exists s',
         advanceIndex stray t (getOrder t) 0 s
         = (inr (bool_decide (k < length (traversal t))%nat), s')
         /\ forall x, traversal t !! k = Some x -> deref s' = x.
Proof.
  intros Hp Hk.
  destruct (packed_inv t Hp) as (Ls & HLs & HlenLs & Hord & Hperm & Hwf & Hsize & Hvals).
  unfold traversal in *. rewrite HLs in *. rewrite length_map in *.
  set (n := length (walk Ls 0)) in *.
  assert (Hcycle : exists s0,
            calls stray t (m * S n) (init_fields t tp isEnd) = (inr tt, s0)
            /\ rests t Ls (walk Ls 0) 0 s0).
  { induction m as [| m IH].
    - exists (init_fields t tp isEnd). split; [done |].
      repeat split; cbn; by rewrite length_replicate.
    - destruct IH as (s0 & Hrun & H0).
      destruct (calls_from Ls s0 Hp HLs H0 (S n)) as (s1 & Hrun1 & H1); [done |].
      rewrite decide_True in H1 by done.
      exists s1. split; [| exact H1].
      replace (S m * S n)%nat with (m * S n + S n)%nat by lia.
      by rewrite (calls_add _ _ _ _ Hrun). }
  destruct Hcycle as (s0 & Hrun0 & H0).
  destruct (calls_from Ls s0 Hp HLs H0 k) as (s & Hrun & Hrests); [lia |].
  rewrite decide_False in Hrests by lia.
  exists s. split; [by rewrite (calls_add _ _ _ _ Hrun0) |].
  pose proof (call_outcome stray t Ls k s Hp HLs Hrests) as (s' & Hcall & Hframe & Hout).
  exists s'.
  destruct (drop k (walk Ls 0)) as [| z zs] eqn:Ed.
  - assert (Hlen : (n <= k)%nat).
    { apply (f_equal length) in Ed. rewrite length_drop in Ed. cbn in Ed. lia. }
    rewrite bool_decide_eq_false_2 by lia.
    split; [exact Hcall |].
    intros x Hx. rewrite list_lookup_fmap in Hx.
    rewrite (proj2 (lookup_ge_None _ _)) in Hx by lia. discriminate Hx.
  - assert (Hz : walk Ls 0 !! k = Some z).
    { rewrite <- (Nat.add_0_r k), <- lookup_drop, Ed. done. }
    rewrite bool_decide_eq_true_2 by (apply lookup_lt_Some in Hz; lia).
    split; [exact Hcall |].
    intros x Hx. rewrite list_lookup_fmap, Hz in Hx. inversion Hx; subst x.
    destruct Hout as (Hadv & Hat & Hval & Hrest & Hcv).
    destruct Hat as [Hc1 Hp1]. rewrite drop_0 in Hc1, Hp1.
    unfold deref. rewrite Hcv, Hc1, Hp1.
    eapply leaf_cur_produced; try done.
    by destruct Hrests as (_ & _ & ? & _).
Qed.

End PackedIteration.

Section CSRIteration.

Variable stray : Z -> Z.
Variable t : Content.

(** A leaf of a matrix in the format [CSR]. *)
Lemma csr_leaf (ext pos idx : Array) Ls (k : nat) y :
  levels t = Some Ls -> wf_levels Ls 1 = true ->
  getFormat t = CSR ->
  modeIndices (getIndex (getStorage t)) = [mkModeIndex [ext]; mkModeIndex [pos; idx]] ->
  walk Ls 0 !! k = Some y -> valid Ls 0 y ->
  exists row,
    produced t y = ([row; Array_get idx (Z.of_nat k)],
                    Array_get (getValues (getStorage t)) (Z.of_nat k))
    /\ 0 <= row < Array_get ext 0
    /\ Array_get pos row <= Z.of_nat k < Array_get pos (row + 1).
Proof.
  intros HLs Hwf Hf Hm Hy Hval.
  pose proof (length_walk Ls Hwf) as HlenW.
  pose proof (walk_offsets Ls Hwf) as Hoff.
  pose proof (lookup_lt_Some _ _ _ Hy) as Hk.
  assert (Hk' : leaf_offset y = Z.of_nat k).
  { apply (f_equal (fun l => l !! k)) in Hoff.
    rewrite list_lookup_fmap, Hy, lookup_seqZ_lt in Hoff by lia.
    cbn in Hoff. inversion Hoff. lia. }
  unfold levels in HLs. rewrite Hf, Hm in HLs. cbn in HLs.
  inversion HLs; subst Ls. clear HLs.
  destruct y as [| x0 [| x1 [| x2 y]]]; cbn in Hval; try tauto.
  destruct Hval as ((Hr0 & Hr1) & Hx0 & (Hc0 & Hc1) & Hx1 & _).
  unfold leaf_offset in Hk'. cbn in Hk'.
  exists (fst x0).
  assert (Hs0 : snd x0 = fst x0) by (rewrite Hx0; cbn; lia).
  rewrite Hs0, Hk' in Hc0, Hc1.
  split; [| split; [split; assumption | split; assumption]].
  unfold produced. rewrite Hf.
  unfold leaf_offset. cbn. rewrite Hk'. rewrite Hx1. cbn. by rewrite Hk'.
Qed.

(** X10.  Over a packed matrix in the format [CSR], with the extent
    array [ext], the position array [pos] and the coordinate array [idx],
    [begin()] incremented [k] times holds the pair of the coordinates
    [(row, idx[k])] and the value [vals[k]], where [row] is the row whose
    segment [pos[row] .. pos[row+1]-1] holds [k]. *)
Theorem csr_iterator_yields_row_column_value
    (tp : loc) (ext pos idx : Array) (k : nat) :
  packed t = true ->
  getFormat t = CSR ->
  modeIndices (getIndex (getStorage t)) = [mkModeIndex [ext]; mkModeIndex [pos; idx]] ->
  Z.of_nat k < getSize (getIndex (getStorage t)) ->
  exists b row,
    advanced stray t tp k = (inr tt, b)
    /\ deref b = ([row; Array_get idx (Z.of_nat k)],
                  Array_get (getValues (getStorage t)) (Z.of_nat k))
    /\ 0 <= row < Array_get ext 0
    /\ Array_get pos row <= Z.of_nat k < Array_get pos (row + 1).
Proof.
  intros Hp Hf Hm Hk.
  destruct (packed_inv t Hp) as (Ls & HLs & HlenLs & Hord & Hperm & Hwf & Hsize & Hvals).
  pose proof (length_walk Ls Hwf) as HlenW.
  destruct (calls_rest stray t Ls tp false Hp HLs (S k)) as (b & Hrun & _ & _ & Hr); [lia |].
  destruct (Hr ltac:(lia)) as (_ & _ & _ & _ & y & Hy & _ & Hval & _ & Hcv).
  destruct (csr_leaf ext pos idx Ls k y HLs Hwf Hf Hm Hy Hval) as (row & Hprod & Hrow & Hseg).
  exists b, row. split; [exact Hrun |].
  split; [| split; assumption].
  unfold deref. by rewrite Hcv.
Qed.

End CSRIteration.

(** ** More on [insert] *)


(** X7.  Calls of [insert] one after the other on a handle whose buffer
    is used up to its end all return, and leave the buffer extended by
    the records of the pairs in the order of the calls: nothing is
    sorted, merged or dropped, and the buffer is again used up to its
    end. *)
Theorem insert_each_appends_in_order
    (T : DataType) (c : Content) (values : list (list Z * Z)) :
  forall (h : TensorBase) (H : Heap) (buf : list Z),
  contents H !! content h = Some c ->
  buffers H !! coordinateBuffer h = Some buf ->
  getComponentType c = T ->
  coordinateSize h = Z.of_nat (getOrder c) * sizeof_int + getNumBytes T ->
  coordinateBufferUsed h = Z.of_nat (length buf) ->
  Forall (fun x : list Z * Z => length (fst x) = getOrder c) values ->
  Z.of_nat (length buf) + Z.of_nat (length values) * coordinateSize h < 2 ^ 64 ->
  insert_each h T values H
  = (inr tt,
     (mkTensorBase (content h) (coordinateBuffer h)
        (Z.of_nat (length buf) + Z.of_nat (length values) * coordinateSize h)
        (coordinateSize h),
      mkHeap (contents H)
        (<[coordinateBuffer h := buf ++ concat (map (record_of T) values)]> (buffers H))
        (memory H)))
  /\ Z.of_nat (length (buf ++ concat (map (record_of T) values)))
     = Z.of_nat (length buf) + Z.of_nat (length values) * coordinateSize h.
Proof.
  induction values as [| [coordinate value] values IH];
    intros h H buf Hc Hb Hty Hcs Hused Hall Hmax.
  - cbn [insert_each map concat length]. rewrite app_nil_r.
    split; [| lia].
    rewrite insert_id by exact Hb.
    replace (Z.of_nat (length buf) + Z.of_nat 0 * coordinateSize h)
      with (coordinateBufferUsed h) by lia.
    by destruct h, H.
  - apply Forall_cons in Hall as [Hlen Hall]. cbn [fst] in Hlen.
    assert (Hnb : 0 < getNumBytes T) by (destruct T; done).
    assert (Hpos : 0 < coordinateSize h) by (unfold sizeof_int in Hcs; lia).
    cbn [insert_each length] in *.
    rewrite (insert_at_end h coordinate T value H c buf Hc Hb Hlen Hty Hcs Hused)
      by nia.
    set (buf1 := buf ++ record_coordinates coordinate
                     ++ bytes_le (Z.to_nat (getNumBytes T)) value).
    assert (Hlen1 : Z.of_nat (length buf1) = Z.of_nat (length buf) + coordinateSize h).
    { unfold buf1.
      rewrite !length_app, length_record_coordinates, length_bytes_le.
      unfold sizeof_int in Hcs. lia. }
    destruct (IH (mkTensorBase (content h) (coordinateBuffer h)
                    (Z.of_nat (length buf) + coordinateSize h) (coordinateSize h))
                 (mkHeap (contents H) (<[coordinateBuffer h := buf1]> (buffers H))
                    (memory H))
                 buf1) as [Hrun Hsize]; cbn [content coordinateBuffer
                   coordinateBufferUsed coordinateSize contents buffers memory];
      try done; try (apply lookup_insert_eq); try nia.
    rewrite Hrun. cbn [content coordinateBuffer coordinateBufferUsed coordinateSize
                       contents buffers memory].
    rewrite insert_insert_eq.
    assert (Hcat : buf ++ concat (map (record_of T) ((coordinate, value) :: values))
                   = buf1 ++ concat (map (record_of T) values)).
    { unfold buf1. cbn [map concat]. unfold record_of at 1. cbn [fst snd].
      by rewrite <- !app_assoc. }
    rewrite Hcat.
    cbn [content coordinateBuffer coordinateBufferUsed coordinateSize] in Hsize.
    split; [| rewrite Hsize; lia].
    do 3 f_equal. nia.
Qed.

Lemma of_bytes_le_mod : forall (n : nat) v,
  of_bytes_le (bytes_le n v) = v mod 256 ^ Z.of_nat n.
Proof.
  induction n as [| n IH]; intros v.
  - cbn. by rewrite Z.mod_1_r.
  - rewrite bytes_le_S. cbn [of_bytes_le]. rewrite IH.
    rewrite Nat2Z.inj_succ, Z.pow_succ_r by lia.
    rewrite Z.rem_mul_r by lia. done.
Qed.

Lemma cast_int_mod x : - 2 ^ 31 <= x < 2 ^ 31 -> cast_int (x mod 2 ^ 32) = x.
Proof.
  intros Hx. unfold cast_int. rewrite Zplus_mod_idemp_l.
  rewrite Z.mod_small by lia. lia.
Qed.

Lemma record_coordinates_lookup : forall coordinate (i : nat) x (post : list Z),
  coordinate !! i = Some x ->
  take 4 (drop (4 * i) (record_coordinates coordinate ++ post)) = bytes_le 4 x.
Proof.
  induction coordinate as [| c cs IH]; intros i x post Hx; [done |].
  unfold record_coordinates. cbn [map concat]. rewrite <- app_assoc.
  destruct i as [| i].
  - inversion Hx; subst c. replace (4 * 0)%nat with 0%nat by lia. rewrite drop_0.
    by rewrite take_app_length' by (by rewrite length_bytes_le).
  - replace (4 * S i)%nat with (4 + 4 * i)%nat by lia.
    rewrite drop_app_add' by (by rewrite length_bytes_le).
    by apply IH.
Qed.

(** The buffer a call of [insert] that returns leaves. *)
Lemma insert_buffer (h : TensorBase) coordinate T value H c buf :
  contents H !! content h = Some c ->
  buffers H !! coordinateBuffer h = Some buf ->
  length coordinate = getOrder c ->
  getComponentType c = T ->
  coordinateSize h = Z.of_nat (getOrder c) * sizeof_int + getNumBytes T ->
  0 <= coordinateBufferUsed h <= Z.of_nat (length buf) ->
  Z.of_nat (length buf) + coordinateSize h < 2 ^ 64 ->
  exists pre post,
    length pre = Z.to_nat (coordinateBufferUsed h)
    /\ insert h coordinate T value H
       = (inr tt,
          (mkTensorBase (content h) (coordinateBuffer h)
             (coordinateBufferUsed h + coordinateSize h) (coordinateSize h),
           mkHeap (contents H)
             (<[coordinateBuffer h :=
                  pre ++ (record_coordinates coordinate
                          ++ bytes_le (Z.to_nat (getNumBytes T)) value) ++ post]>
                (buffers H))
             (memory H))).
Proof.
  intros Hc Hb Hlen Hty Hcs Hused Hmax.
  set (used := coordinateBufferUsed h) in *.
  set (cs := coordinateSize h) in *.
  assert (Hnb : 0 < getNumBytes T) by (destruct T; done).
  unfold sizeof_int in Hcs.
  unfold insert. rewrite Hc, Hb.
  rewrite !bool_decide_eq_true_2 by done. cbn [negb]. rewrite Hty.
  fold used cs.
  rewrite (wrap64_small (Z.of_nat (length buf) - used)) by lia.
  rewrite (wrap64_small (used + cs)) by lia.
  set (buf1 := if Z.of_nat (length buf) - used <? cs
               then buf ++ replicate (Z.to_nat cs) 0 else buf).
  assert (Hfit : used + cs <= Z.of_nat (length buf1)).
  { unfold buf1. destruct (Z.ltb_spec (Z.of_nat (length buf) - used) cs);
      rewrite ?length_app, ?length_replicate; lia. }
  pose proof (insert_record buf1 coordinate used (Z.to_nat (getNumBytes T)) value) as Hrec.
  destruct (store_coordinates buf1 used coordinate) as [buf2 coordLoc].
  cbn [fst snd] in Hrec.
  exists (take (Z.to_nat used) buf1),
         (drop (Z.to_nat used + 4 * length coordinate + Z.to_nat (getNumBytes T)) buf1).
  split; [rewrite length_take; lia |].
  by rewrite Hrec by lia.
Qed.

(** X9.  The record a call of [insert] writes reads back: the four bytes
    at offset [4 * i] of the record, read as a little-endian [int], are
    coordinate [i], and the bytes after the coordinates are the value. *)
Theorem insert_record_reads_back
    (h : TensorBase) (coordinate : list Z) (T : DataType) (value : Z)
    (H : Heap) (c : Content) (buf : list Z) :
  contents H !! content h = Some c ->
  buffers H !! coordinateBuffer h = Some buf ->
  length coordinate = getOrder c ->
  getComponentType c = T ->
  coordinateSize h = Z.of_nat (getOrder c) * sizeof_int + getNumBytes T ->
  0 <= coordinateBufferUsed h <= Z.of_nat (length buf) ->
  Z.of_nat (length buf) + coordinateSize h < 2 ^ 64 ->
  exists h' H' buf',
    insert h coordinate T value H = (inr tt, (h', H'))
    /\ buffers H' !! coordinateBuffer h = Some buf'
    /\ (forall (i : nat) x,
          coordinate !! i = Some x -> - 2 ^ 31 <= x < 2 ^ 31 ->
          cast_int (of_bytes_le
                      (take 4 (drop (Z.to_nat (coordinateBufferUsed h) + 4 * i) buf')))
          = x)
    /\ (0 <= value < 256 ^ getNumBytes T ->
        of_bytes_le
          (take (Z.to_nat (getNumBytes T))
                (drop (Z.to_nat (coordinateBufferUsed h) + 4 * length coordinate) buf'))
        = value).
Proof.
  intros Hc Hb Hlen Hty Hcs Hused Hmax.
  destruct (insert_buffer h coordinate T value H c buf Hc Hb Hlen Hty Hcs Hused Hmax)
    as (pre & post & Hpre & Hrun).
  assert (Hnb : 0 < getNumBytes T) by (destruct T; done).
  do 3 eexists. split; [exact Hrun |].
  cbn [buffers]. split; [apply lookup_insert_eq |].
  split.
  - intros i x Hx Hrange.
    rewrite <- Hpre, drop_app_add, <- app_assoc.
    rewrite (record_coordinates_lookup coordinate i x _ Hx).
    rewrite of_bytes_le_mod. by apply cast_int_mod.
  - intros Hv.
    rewrite <- Hpre, drop_app_add, <- app_assoc.
    rewrite <- (length_record_coordinates coordinate).
    rewrite drop_app_length.
    rewrite take_app_length' by (by rewrite length_bytes_le).
    rewrite of_bytes_le_mod, Z2Nat.id by lia.
    by apply Z.mod_small.
Qed.

(** ** A matrix made from CSR arrays, iterated *)

(** The tensor [makeCSR] makes of three arrays of the sizes it reads. *)
Lemma makeCSR_content (T : DataType) (name : string) (rows cols : Z)
    (rowptr colidx vals : loc) (H : Heap) (rp ci vs : list Z) :
  memory H !! rowptr = Some rp ->
  memory H !! colidx = Some ci ->
  memory H !! vals = Some vs ->
  Z.of_nat (length rp) = rows + 1 ->
  Z.of_nat (length ci) = at_ rp rows ->
  Z.of_nat (length vs) = at_ rp rows ->
  exists tensor H' ld,
    makeCSR T name [rows; cols] rowptr colidx vals H = (inr tensor, H')
    /\ contents H' !! content tensor
       = Some (mkContent name [rows; cols] T CSR
                 (mkStorage
                    (mkIndex [mkModeIndex [mkArray Int32 ld 1 [rows] Free];
                              mkModeIndex [mkArray Int32 rowptr (rows + 1) rp UserOwns;
                                           mkArray Int32 colidx (at_ rp rows) ci UserOwns]]
                             (at_ rp rows))
                    (mkArray T vals (at_ rp rows) vs UserOwns))).
Proof.
  intros Hr Hc Hv Hlr Hlc Hlv.
  unfold makeCSR. cbn [length]. rewrite bool_decide_eq_true_2 by done. cbn [negb].
  unfold new_tensor, makeCSRIndex, setValues, setIndex, makeArray.
  cbn [contents buffers memory content fst snd default lookup].
  assert (Hfresh : forall p x, memory H !! p = Some x ->
            <[fresh (dom (memory H)) := [rows]]> (memory H) !! p = Some x).
  { intros p x Hp. rewrite lookup_insert_ne; [done |]. intros Heq. subst p.
    apply (is_fresh (dom (memory H))). apply elem_of_dom. by eexists. }
  do 3 eexists. split; [reflexivity |].
  cbn [contents content].
  rewrite !lookup_alter_eq, lookup_insert_eq. cbn [fmap option_fmap option_map].
  cbn [getName getDimensions getComponentType getFormat getStorage getIndex
       getValues getSize modeIndices default list_lookup lookup].
  change (id rows) with rows.
  rewrite !(Hfresh _ _ Hr), !(Hfresh _ _ Hc), !(Hfresh _ _ Hv). cbn [default from_option id].
  rewrite (take_ge rp) by lia.
  change (Array_get (mkArray Int32 rowptr (rows + 1) rp UserOwns) rows) with (at_ rp rows).
  rewrite (take_ge ci), (take_ge vs) by lia.
  reflexivity.
Qed.

(** That tensor is packed when the arrays are a well-formed index. *)
Lemma csr_content_packed (T : DataType) (name : string) (rows cols : Z)
    (ld rowptr colidx vals : loc) (rp ci vs : list Z) :
  wf_levels [DenseLevel rows; CompressedLevel rp ci] 1 = true ->
  Z.of_nat (length vs) = at_ rp rows ->
  packed (mkContent name [rows; cols] T CSR
            (mkStorage
               (mkIndex [mkModeIndex [mkArray Int32 ld 1 [rows] Free];
                         mkModeIndex [mkArray Int32 rowptr (rows + 1) rp UserOwns;
                                      mkArray Int32 colidx (at_ rp rows) ci UserOwns]]
                        (at_ rp rows))
               (mkArray T vals (at_ rp rows) vs UserOwns)))
  = true.
Proof.
  intros Hwf Hlv. unfold packed.
  change (levels _) with (Some [DenseLevel rows; CompressedLevel rp ci]).
  cbv beta iota. rewrite Hwf.
  cbn [getOrder getDimensions length getFormat getModeOrdering CSR getStorage
       getIndex getSize getValues elems stored].
  rewrite Z.mul_1_l, Hlv, !Z.eqb_refl.
  reflexivity.
Qed.

(** X11.  A matrix that [makeCSR] makes of a well-formed index (a
    position array of [rows + 1] non-decreasing entries from 0, a
    coordinate array and a value array of [rowptr[rows]] entries)
    iterates as the arrays say: [begin()] incremented [k] times holds the
    coordinates [(row, colidx[k])] and the value [vals[k]], where [row]
    is the row whose segment of [rowptr] holds [k]. *)
Theorem makeCSR_iterates_its_arrays
    (stray : Z -> Z) (T : DataType) (name : string) (rows cols : Z)
    (rowptr colidx vals : loc) (H : Heap) (rp ci vs : list Z) (k : nat) :
  memory H !! rowptr = Some rp ->
  memory H !! colidx = Some ci ->
  memory H !! vals = Some vs ->
  wf_levels [DenseLevel rows; CompressedLevel rp ci] 1 = true ->
  Z.of_nat (length vs) = at_ rp rows ->
  Z.of_nat k < at_ rp rows ->
  exists tensor H' ct b row,
    makeCSR T name [rows; cols] rowptr colidx vals H = (inr tensor, H')
    /\ contents H' !! content tensor = Some ct
    /\ advanced stray ct (content tensor) k = (inr tt, b)
    /\ deref b = ([row; at_ ci (Z.of_nat k)], at_ vs (Z.of_nat k))
    /\ 0 <= row < rows
    /\ at_ rp row <= Z.of_nat k < at_ rp (row + 1).
Proof.
  intros Hr Hc Hv Hwf Hlv Hk.
  pose proof Hwf as Hwf0.
  apply wf_dense in Hwf0 as (Hrows & _ & Hwf1).
  apply wf_sparse in Hwf1 as (Hlr & _ & _ & _ & Hlc & _).
  rewrite Z.mul_1_l in Hlr, Hlc.
  destruct (makeCSR_content T name rows cols rowptr colidx vals H rp ci vs
              Hr Hc Hv Hlr Hlc Hlv) as (tensor & H' & ld & Hrun & Hct).
  pose proof (csr_content_packed T name rows cols ld rowptr colidx vals rp ci vs
                Hwf Hlv) as Hp.
  set (ct := mkContent name [rows; cols] T CSR _) in *.
  destruct (packed_inv ct Hp) as (Ls & HLs & HlenLs & Hord & Hperm & HwfL & Hsize & Hvals).
  pose proof (length_walk Ls HwfL) as HlenW.
  assert (Hk' : Z.of_nat k < stored Ls 1) by (rewrite <- Hsize; exact Hk).
  destruct (calls_rest stray ct Ls (content tensor) false Hp HLs (S k))
    as (b & Hb & _ & _ & Hrest); [lia |].
  destruct (Hrest ltac:(lia)) as (_ & _ & _ & _ & y & Hy & _ & Hval & _ & Hcv).
  destruct (csr_leaf ct (mkArray Int32 ld 1 [rows] Free)
              (mkArray Int32 rowptr (rows + 1) rp UserOwns)
              (mkArray Int32 colidx (at_ rp rows) ci UserOwns)
              Ls k y HLs HwfL eq_refl eq_refl Hy Hval)
    as (row & Hprod & Hrow & Hseg).
  exists tensor, H', ct, b, row.
  split; [exact Hrun |]. split; [exact Hct |]. split; [exact Hb |].
  split; [unfold deref; rewrite Hcv; exact Hprod |].
  split; [exact Hrow | exact Hseg].
Qed.

(** ** Dense tensors *)

Lemma dense_valid : forall es q y,
  valid (map DenseLevel es) q y ->
  Forall2 (fun c e => 0 <= c < e) (map fst y) es
  /\ offset_from q y = row_major es (map fst y) q.
Proof.
  induction es as [| e es IH]; intros q y Hval.
  - destruct y; [| done]. by split; [constructor |].
  - destruct y as [| x y]; [done |]. cbn in Hval.
    destruct Hval as (Hr & Hx & Hval).
    destruct (IH (snd x) y Hval) as [Hall Hoff].
    split; [by constructor |].
    rewrite offset_from_cons, Hoff. cbn [map row_major].
    f_equal. rewrite Hx at 1. done.
Qed.

Section DenseIteration.

Variable stray : Z -> Z.
Variable t : Content.

(** X12.  Over a packed tensor whose levels are all Dense, with the
    extents [es], [begin()] incremented [k] times holds the value
    [vals[k]] and the coordinates [cs] (one per level, each below its
    extent, put back in dimension order) whose row-major position
    [(..(c0 * e1 + c1) * e2 ..) + c_last] is [k]. *)
Theorem dense_iterator_is_row_major (tp : loc) (es : list Z) (k : nat) :
  packed t = true ->
  levels t = Some (map DenseLevel es) ->
  Z.of_nat k < getSize (getIndex (getStorage t)) ->
  exists b cs,
    advanced stray t tp k = (inr tt, b)
    /\ deref b = (permute_back (getModeOrdering (getFormat t)) cs,
                  Array_get (getValues (getStorage t)) (Z.of_nat k))
    /\ Forall2 (fun c e => 0 <= c < e) cs es
    /\ row_major es cs 0 = Z.of_nat k.
Proof.
  intros Hp HLs Hk.
  destruct (packed_inv t Hp) as (Ls & HLs' & HlenLs & Hord & Hperm & Hwf & Hsize & Hvals).
  rewrite HLs in HLs'. inversion HLs'; subst Ls. clear HLs'.
  pose proof (length_walk _ Hwf) as HlenW.
  pose proof (walk_offsets _ Hwf) as Hoff.
  destruct (calls_rest stray t _ tp false Hp HLs (S k)) as (b & Hrun & _ & _ & Hr); [lia |].
  destruct (Hr ltac:(lia)) as (_ & _ & _ & _ & y & Hy & _ & Hval & _ & Hcv).
  assert (Hk' : leaf_offset y = Z.of_nat k).
  { apply (f_equal (fun l => l !! k)) in Hoff.
    rewrite list_lookup_fmap, Hy, lookup_seqZ_lt in Hoff by lia.
    cbn in Hoff. inversion Hoff. lia. }
  destruct (dense_valid es 0 y Hval) as [Hall Hrm].
  exists b, (map fst y). split; [exact Hrun |].
  split.
  { unfold deref. rewrite Hcv. unfold produced, Array_get, at_. by rewrite Hk'. }
  split; [exact Hall |].
  rewrite <- Hrm. exact Hk'.
Qed.

End DenseIteration.

(** ** The innermost level *)

Lemma permute_back_lookup (ordering cs : list Z) (l : nat) (d : Z) :
  is_ordering ordering (length cs) = true ->
  ordering !! l = Some d ->
  permute_back ordering cs !! Z.to_nat d = cs !! l.
Proof.
  intros Hord Hl.
  destruct (ordering_facts _ _ Hord) as (Hlen & Hrange & Hall & Hnd).
  pose proof (Hrange l d Hl) as Hd.
  pose proof (lookup_lt_Some _ _ _ Hl) as Hlt.
  assert (Hin : d ∈ ordering) by (apply list_elem_of_lookup; eauto).
  pose proof (level_storing_lookup ordering d Hin) as Hls.
  assert (Heq : level_storing ordering d = l).
  { eapply (NoDup_lookup (Z.to_nat <$> ordering)); [exact Hnd | |].
    - rewrite list_lookup_fmap, Hls. done.
    - rewrite list_lookup_fmap, Hl. done. }
  unfold permute_back. rewrite list_lookup_fmap.
  rewrite lookup_seq_lt by lia. cbn.
  rewrite Z2Nat.id by lia. rewrite Heq.
  destruct (lookup_lt_is_Some_2 cs l ltac:(lia)) as [c Hc]. by rewrite Hc.
Qed.

Lemma valid_innermost_compressed pos idx : forall ls q y,
  valid (ls ++ [CompressedLevel pos idx]) q y ->
  exists y' x, y = y' ++ [x] /\ length y' = length ls /\ fst x = at_ idx (snd x).
Proof.
  induction ls as [| L ls IH]; intros q y Hval.
  - destruct y as [| x [| x' y]]; cbn in Hval; try tauto.
    destruct Hval as (_ & Hx & _).
    exists [], x. split; [done |]. split; [done |]. rewrite Hx at 1. done.
  - destruct y as [| x0 y]; [done |]. cbn [app valid] in Hval.
    destruct Hval as (_ & _ & Hval).
    destruct (IH _ _ Hval) as (y' & x & -> & Hlen & Hx).
    exists (x0 :: y'), x. split; [done |]. split; [cbn; by rewrite Hlen | exact Hx].
Qed.

Section InnermostLevel.

Variable stray : Z -> Z.
Variable t : Content.

(** X13.  Over a packed tensor whose innermost level is Compressed, with
    the coordinate array [idx], and stores dimension [d]: [begin()]
    incremented [k] times holds [idx[k]] as coordinate [d] and [vals[k]]
    as value.  The coordinate array of the innermost level and the value
    array are read at the same slot. *)
Theorem innermost_coordinate_is_parallel_to_values
    (tp : loc) (ls : list Level) (pos idx : list Z) (d : Z) (k : nat) :
  packed t = true ->
  levels t = Some (ls ++ [CompressedLevel pos idx]) ->
  getModeOrdering (getFormat t) !! length ls = Some d ->
  Z.of_nat k < getSize (getIndex (getStorage t)) ->
  exists b,
    advanced stray t tp k = (inr tt, b)
    /\ fst (deref b) !! Z.to_nat d = Some (at_ idx (Z.of_nat k))
    /\ snd (deref b) = Array_get (getValues (getStorage t)) (Z.of_nat k).
Proof.
  intros Hp HLs Hd Hk.
  destruct (packed_inv t Hp) as (Ls & HLs' & HlenLs & Hord & Hperm & Hwf & Hsize & Hvals).
  rewrite HLs in HLs'. inversion HLs'; subst Ls. clear HLs'.
  pose proof (length_walk _ Hwf) as HlenW.
  pose proof (walk_offsets _ Hwf) as Hoff.
  destruct (calls_rest stray t _ tp false Hp HLs (S k)) as (b & Hrun & _ & _ & Hr); [lia |].
  destruct (Hr ltac:(lia)) as (_ & _ & _ & _ & y & Hy & _ & Hval & _ & Hcv).
  assert (Hk' : leaf_offset y = Z.of_nat k).
  { apply (f_equal (fun l => l !! k)) in Hoff.
    rewrite list_lookup_fmap, Hy, lookup_seqZ_lt in Hoff by lia.
    cbn in Hoff. inversion Hoff. lia. }
  pose proof (valid_length _ _ _ Hval) as Hleny.
  destruct (valid_innermost_compressed pos idx ls 0 y Hval) as (y' & x & -> & Hlen' & Hx).
  assert (Hsx : snd x = Z.of_nat k).
  { unfold leaf_offset in Hk'. rewrite map_app in Hk'. cbn [map] in Hk'.
    rewrite last_snoc in Hk'. exact Hk'. }
  exists b. split; [exact Hrun |].
  unfold deref. rewrite Hcv. unfold produced. cbn [fst snd].
  split.
  - rewrite (permute_back_lookup _ _ (length ls) d).
    + rewrite map_app, lookup_app_r by (rewrite length_map; lia).
      rewrite length_map, Hlen', Nat.sub_diag. cbn. by rewrite Hx, Hsx.
    + rewrite length_map, Hleny, HlenLs. exact Hperm.
    + exact Hd.
  - unfold Array_get, at_. by rewrite Hk'.
Qed.

End InnermostLevel.

(** ** The further properties at the example tensors *)

(** The loop over the matrix [example_csr], with fuel for four tests. *)
Lemma range_for_reads_the_value_array_example :
  packed example_csr = true
  /\ exists b e values,
       begin_ (fun _ => 0) example_csr 0%nat = (inr tt, b)
       /\ end_ (fun _ => 0) example_csr 0%nat = (inr tt, e)
       /\ range_for (fun _ => 0) example_csr 4 b e [] = inr values
       /\ Z.of_nat (length values) = getSize (getIndex (getStorage example_csr))
       /\ map snd values = elems (getValues (getStorage example_csr))
       /\ Forall (fun x : list Z * Z => length (fst x) = getOrder example_csr) values.
Proof.
  split; [reflexivity |].
  apply (range_for_reads_the_value_array (fun _ => 0) example_csr 0%nat 4);
    [reflexivity | vm_compute; reflexivity].
Defined.

(** The sixth call on [example_csr], which has three pairs, produces its
    second pair. *)
Lemma advanceIndex_starts_over_after_the_end_example :
  packed example_csr = true
  /\ exists s,
       calls (fun _ => 0) example_csr (1 * S (length (traversal example_csr)) + 1)
             (init_fields example_csr 0%nat false)
       = (inr tt, s)
       /\ exists s',
            advanceIndex (fun _ => 0) example_csr (getOrder example_csr) 0 s
            = (inr (bool_decide (1 < length (traversal example_csr))%nat), s')
            /\ forall x, traversal example_csr !! 1%nat = Some x -> deref s' = x.
Proof.
  split; [reflexivity |].
  apply (advanceIndex_starts_over_after_the_end (fun _ => 0) example_csr
           0%nat false 1 1); [reflexivity | vm_compute; lia].
Defined.

(** The indices of the first call on [example_csr]. *)
Lemma advanceIndex_indices_below_order_example :
  Z.of_nat (getOrder example_csr) < 2 ^ 64
  /\ exists ev,
       trace (snd (advanceIndex (fun _ => 0) example_csr 2 0
                     (init_fields example_csr 0%nat false)))
       = trace (init_fields example_csr 0%nat false) ++ ev
       /\ Forall (fun e => in_bounds (getOrder example_csr) e
                           \/ (e = Access Ptrs (2 ^ 64 - 1)
                               /\ getModeTypes (getFormat example_csr) !! 0%nat
                                  = Some Dense)) ev
       /\ (getModeTypes (getFormat example_csr) !! 0%nat <> Some Dense ->
           Forall (in_bounds (getOrder example_csr)) ev).
Proof.
  split; [vm_compute; reflexivity |].
  apply (advanceIndex_indices_below_order (fun _ => 0) example_csr 2
           (init_fields example_csr 0%nat false)).
  vm_compute. reflexivity.
Defined.

(** [begin()] incremented three times over [example_csr] equals [end()]. *)
Lemma equality_counts_the_increments_example :
  iterator_eq (snd (advanced (fun _ => 0) example_csr 0%nat 3))
              (snd (end_ (fun _ => 0) example_csr 0%nat))
  = bool_decide (wrap64 (Z.of_nat 3)
                 = wrap64 (getSize (getIndex (getStorage example_csr)))).
Proof.
  apply (equality_counts_the_increments (fun _ => 0) example_csr 0%nat 3);
    vm_compute; reflexivity.
Defined.

(** Three pairs, one of them twice, inserted into a fresh vector. *)
Lemma insert_each_appends_in_order_example :
  fst (insert_each (fst example_vector) Int32 [([0], 5); ([2], 7); ([0], 5)]
         (snd example_vector)) = inr tt
  /\ buffers (snd (snd (insert_each (fst example_vector) Int32
                          [([0], 5); ([2], 7); ([0], 5)] (snd example_vector))))
       !! coordinateBuffer (fst example_vector)
     = Some [0; 0; 0; 0; 5; 0; 0; 0;
             2; 0; 0; 0; 7; 0; 0; 0;
             0; 0; 0; 0; 5; 0; 0; 0].
Proof.
  destruct (insert_each_appends_in_order Int32
              (mkContent "v" [3] Int32 (mkFormat [Sparse] [0]) (empty_storage Int32))
              [([0], 5); ([2], 7); ([0], 5)]
              (fst example_vector) (snd example_vector) [])
    as [Hrun _];
    [reflexivity | reflexivity | reflexivity | reflexivity | reflexivity
    | repeat constructor | vm_compute; reflexivity |].
  rewrite Hrun. split; [reflexivity | vm_compute; reflexivity].
Defined.

(** The record of the pair ([2], 7) read back. *)
Lemma insert_record_reads_back_example :
  exists h' H' buf',
    insert (fst example_vector) [2] Int32 7 (snd example_vector) = (inr tt, (h', H'))
    /\ buffers H' !! coordinateBuffer (fst example_vector) = Some buf'
    /\ cast_int (of_bytes_le (take 4 (drop 0 buf'))) = 2
    /\ of_bytes_le (take 4 (drop 4 buf')) = 7.
Proof.
  destruct (insert_record_reads_back (fst example_vector) [2] Int32 7
              (snd example_vector)
              (mkContent "v" [3] Int32 (mkFormat [Sparse] [0]) (empty_storage Int32))
              [])
    as (h' & H' & buf' & Hrun & Hb & Hc & Hv);
    [reflexivity | reflexivity | reflexivity | reflexivity | reflexivity
    | vm_compute; split; discriminate | vm_compute; reflexivity |].
  exists h', H', buf'. split; [exact Hrun |]. split; [exact Hb |]. split.
  - apply (Hc 0%nat 2); [reflexivity | lia].
  - apply Hv. vm_compute. split; [discriminate | reflexivity].
Defined.

(** The second pair of [example_csr]: row 0, column 2, value 2. *)
Lemma csr_iterator_yields_row_column_value_example :
  exists b row,
    advanced (fun _ => 0) example_csr 0%nat 1 = (inr tt, b)
    /\ deref b = ([row; Array_get (int_array [0; 2; 1]) (Z.of_nat 1)],
                  Array_get (getValues (getStorage example_csr)) (Z.of_nat 1))
    /\ 0 <= row < Array_get (int_array [3]) 0
    /\ Array_get (int_array [0; 2; 2; 3]) row <= Z.of_nat 1
       < Array_get (int_array [0; 2; 2; 3]) (row + 1).
Proof.
  apply (csr_iterator_yields_row_column_value (fun _ => 0) example_csr 0%nat
           (int_array [3]) (int_array [0; 2; 2; 3]) (int_array [0; 2; 1]) 1);
    [reflexivity | reflexivity | reflexivity | vm_compute; reflexivity].
Defined.

(** The third pair of the matrix made of the arrays at 10, 11 and 12. *)
Lemma makeCSR_iterates_its_arrays_example :
  exists tensor H' ct b row,
    makeCSR Int32 "A" [3; 3] 10%nat 11%nat 12%nat example_memory = (inr tensor, H')
    /\ contents H' !! content tensor = Some ct
    /\ advanced (fun _ => 0) ct (content tensor) 2 = (inr tt, b)
    /\ deref b = ([row; at_ [0; 2; 1] (Z.of_nat 2)], at_ [1; 2; 3] (Z.of_nat 2))
    /\ 0 <= row < 3
    /\ at_ [0; 2; 2; 3] row <= Z.of_nat 2 < at_ [0; 2; 2; 3] (row + 1).
Proof.
  apply (makeCSR_iterates_its_arrays (fun _ => 0) Int32 "A" 3 3 10%nat 11%nat 12%nat
           example_memory [0; 2; 2; 3] [0; 2; 1] [1; 2; 3] 2);
    vm_compute; reflexivity.
Defined.

(** The fifth pair of [example_dense_matrix]. *)
Lemma dense_iterator_is_row_major_example :
  exists b cs,
    advanced (fun _ => 0) example_dense_matrix 0%nat 4 = (inr tt, b)
    /\ deref b = (permute_back (getModeOrdering (getFormat example_dense_matrix)) cs,
                  Array_get (getValues (getStorage example_dense_matrix)) (Z.of_nat 4))
    /\ Forall2 (fun c e => 0 <= c < e) cs [2; 3]
    /\ row_major [2; 3] cs 0 = Z.of_nat 4.
Proof.
  apply (dense_iterator_is_row_major (fun _ => 0) example_dense_matrix 0%nat [2; 3] 4);
    vm_compute; reflexivity.
Defined.

(** The third pair of [example_csr] has column [idx[2]] and value
    [vals[2]]. *)
Lemma innermost_coordinate_is_parallel_to_values_example :
  exists b,
    advanced (fun _ => 0) example_csr 0%nat 2 = (inr tt, b)
    /\ fst (deref b) !! Z.to_nat 1 = Some (at_ [0; 2; 1] (Z.of_nat 2))
    /\ snd (deref b) = Array_get (getValues (getStorage example_csr)) (Z.of_nat 2).
Proof.
  apply (innermost_coordinate_is_parallel_to_values (fun _ => 0) example_csr 0%nat
           [DenseLevel 3] [0; 2; 2; 3] [0; 2; 1] 1 2);
    vm_compute; reflexivity.
Defined.
